(** * refstr: paths of nodes over Go values, and the string decoder

    A shallow embedding of the Go package [refstr] (path.go, the node
    file, the utility file and decoder.go).  The package is written
    against Go's [reflect] library; the first part of this file is a
    small operational model of the part of [reflect] the package calls:
    types, values, a heap of cells and map objects, addressable and
    read-only values, and panics.  The second part embeds the package's
    own functions over that model, keeping their names: the value
    utilities, nodes and node sets with the cache of [GetTypeNodes],
    paths with [Get], [Set] and [SetString], references, and the
    decoder with [Parse], [Decode], [DecodeType] and the multi-valued
    strings.  It ends with the values of the package's tests and the
    predicates the statements use.  The third part states and proves
    the properties: first those of paths and references that the
    package documents, then further ones of each group of functions.

    Scope of the model: the types are bool, int, string, pointers,
    maps, slices, arrays and structs; they declare no methods, and there
    are no function, channel or interface types.  Keys are nil or boxed
    booleans, ints and strings.  Pointers point to whole cells, a slice
    starts at the beginning of its backing array, and integers are
    unbounded. *)

From stdpp Require Import base option list gmap strings pretty.
From Stdlib Require Import ZArith Lia.

Set Warnings "-register-all".

Local Open Scope Z_scope.
Local Open Scope string_scope.
Local Open Scope list_scope.

(* ------------------------------------------------------------------ *)
(** ** Go types ([reflect.Type]) *)

(** The types of the model: booleans, [int], strings, pointers, maps,
    slices, arrays and structs.  A struct field is its name, whether it
    is embedded (anonymous), and its type.  The types of the model
    declare no methods and there are no function, channel or interface
    types. *)
Inductive type : Type :=
| TBool
| TInt
| TString
| TPtr (e : type)
| TMap (k e : type)
| TSlice (e : type)
| TArray (n : nat) (e : type)
| TStruct (fs : list (string * bool * type)).

Module reflect.
Inductive Kind := Invalid | Bool | Int | String | Pointer | Map | Slice | Array | Struct.
End reflect.

Definition kindOf (t : type) : reflect.Kind :=
  match t with
  | TBool => reflect.Bool
  | TInt => reflect.Int
  | TString => reflect.String
  | TPtr _ => reflect.Pointer
  | TMap _ _ => reflect.Map
  | TSlice _ => reflect.Slice
  | TArray _ _ => reflect.Array
  | TStruct _ => reflect.Struct
  end.

(** Type identity, as [==] on [reflect.Type]. *)
Fixpoint type_eqb (a b : type) {struct a} : bool :=
  match a, b with
  | TBool, TBool | TInt, TInt | TString, TString => true
  | TPtr x, TPtr y => type_eqb x y
  | TMap k x, TMap k' y => type_eqb k k' && type_eqb x y
  | TSlice x, TSlice y => type_eqb x y
  | TArray n x, TArray m y => Nat.eqb n m && type_eqb x y
  | TStruct fs, TStruct gs =>
      (fix go (fs gs : list (string * bool * type)) {struct fs} : bool :=
         match fs, gs with
         | [], [] => true
         | (n, a, t) :: fs', (n', a', t') :: gs' =>
             bool_decide (n = n') && bool_decide (a = a') && type_eqb t t' && go fs' gs'
         | _, _ => false
         end) fs gs
  | _, _ => false
  end.

(** The zero value of a type is defined below, once values exist. *)

(* ------------------------------------------------------------------ *)
(** ** Keys *)

(** A key handed to [Next] or stored in a [Node] is an [any]; the model
    has the nil interface and boxed booleans, ints and strings. *)
Inductive key := KNil | KBool (b : bool) | KInt (z : Z) | KStr (s : string).

Global Instance key_eq_dec : EqDecision key.
Proof. solve_decision. Defined.

Definition key_enc (k : key) : option (bool + Z + string) :=
  match k with
  | KNil => None
  | KBool b => Some (inl (inl b))
  | KInt z => Some (inl (inr z))
  | KStr s => Some (inr s)
  end.

Definition key_dec (x : option (bool + Z + string)) : key :=
  match x with
  | None => KNil
  | Some (inl (inl b)) => KBool b
  | Some (inl (inr z)) => KInt z
  | Some (inr s) => KStr s
  end.

Global Instance key_countable : Countable key.
Proof.
  apply (inj_countable' key_enc key_dec). by intros [].
Defined.

(** [ToString(a)] is [fmt.Sprintf("%+v", a)]; [strconv.Itoa] prints an
    int in decimal. *)
Definition Itoa (i : Z) : string := pretty i.

Definition ToString (k : key) : string :=
  match k with
  | KNil => "<nil>"
  | KBool true => "true"
  | KBool false => "false"
  | KInt z => Itoa z
  | KStr s => s
  end.

(* ------------------------------------------------------------------ *)
(** ** Values and the heap *)

Abbreviation loc := nat.

(** A Go value.  Pointers, maps and slices are references into the heap:
    a pointer names a cell, a map names a map object, a slice names the
    cell of its backing array and carries its length (its capacity is
    the length of the backing array).  Arrays and structs are
    aggregates held by value. *)
Inductive val : Type :=
| VBool (b : bool)
| VInt (z : Z)
| VStr (s : string)
| VPtr (p : option loc)
| VMap (m : option loc)
| VSlice (s : option (loc * nat))
| VAgg (l : list val).

Inductive obj : Type :=
| OCell (v : val)
| OMap (m : gmap key val).

Abbreviation heap := (list obj).

Fixpoint zero (t : type) : val :=
  match t with
  | TBool => VBool false
  | TInt => VInt 0
  | TString => VStr ""
  | TPtr _ => VPtr None
  | TMap _ _ => VMap None
  | TSlice _ => VSlice None
  | TArray n e => VAgg (replicate n (zero e))
  | TStruct fs =>
      VAgg ((fix go (fs : list (string * bool * type)) : list val :=
               match fs with
               | [] => []
               | (_, _, t) :: fs' => zero t :: go fs'
               end) fs)
  end.

(** Selecting and replacing a component of an aggregate along a list of
    field or element indices. *)
Fixpoint load_sel (v : val) (sel : list nat) : option val :=
  match sel with
  | [] => Some v
  | i :: sel' =>
      match v with
      | VAgg l => match l !! i with Some x => load_sel x sel' | None => None end
      | _ => None
      end
  end.

Fixpoint store_sel (v : val) (sel : list nat) (x : val) : option val :=
  match sel with
  | [] => Some x
  | i :: sel' =>
      match v with
      | VAgg l =>
          match l !! i with
          | Some y =>
              match store_sel y sel' x with
              | Some y' => Some (VAgg (<[i := y']> l))
              | None => None
              end
          | None => None
          end
      | _ => None
      end
  end.

Definition cell_at (h : heap) (l : loc) : option val :=
  match h !! l with Some (OCell v) => Some v | _ => None end.

Definition map_at (h : heap) (l : loc) : option (gmap key val) :=
  match h !! l with Some (OMap m) => Some m | _ => None end.

Definition alloc (h : heap) (o : obj) : loc * heap := (List.length h, h ++ [o]).

(* ------------------------------------------------------------------ *)
(** ** [reflect.Value] *)

(** A valid [reflect.Value] has a type and is either a detached copy
    ([Here]) or a view of a place in the heap ([At]: a cell and a
    selection inside it); only the latter is addressable.  It is
    read-only ([rro]) when it was obtained through an unexported struct
    field.  reflect keeps two flags for this, and [rembed] tells them
    apart: it is set when the value is read-only only because of an
    unexported embedded field (flagEmbedRO without flagStickyRO), which
    a further [Field] does not pass on.  [RV] builds a value without
    that flag.  The zero [reflect.Value] (invalid) is [None]. *)
Inductive src := Here (v : val) | At (l : loc) (sel : list nat).

Record rvalue := mkRV { rtyp : type; rsrc : src; rro : bool; rembed : bool }.

Abbreviation RV t s ro := (mkRV t s ro false).

Abbreviation Value := (option rvalue).

Definition invalidValue : Value := None.

Definition IsValid (v : Value) : bool := bool_decide (is_Some v).

Definition KindV (v : Value) : reflect.Kind :=
  match v with Some rv => kindOf (rtyp rv) | None => reflect.Invalid end.

(** Outcome of running Go code: it returns, or it panics.  [Panic] also
    stands for a heap that is not well formed (a dangling reference),
    which Go rules out. *)
Inductive outcome (A : Type) := Ok (a : A) | Panic.
Arguments Ok {A} a.
Arguments Panic {A}.

Definition obind {A B} (x : outcome A) (f : A -> outcome B) : outcome B :=
  match x with Ok a => f a | Panic => Panic end.

Notation "x <- c ;; k" := (obind c (fun x => k))
  (at level 100, c at next level, right associativity).

Definition of_opt {A} (o : option A) : outcome A :=
  match o with Some a => Ok a | None => Panic end.

Definition rload (h : heap) (rv : rvalue) : outcome val :=
  match rsrc rv with
  | Here v => Ok v
  | At l sel => of_opt (cell_at h l ≫= fun v => load_sel v sel)
  end.

Definition rstore (h : heap) (l : loc) (sel : list nat) (x : val) : outcome heap :=
  of_opt (cell_at h l ≫= fun v =>
          store_sel v sel x ≫= fun v' => Some (<[l := OCell v']> h)).

Definition CanAddr (rv : rvalue) : bool :=
  match rsrc rv with At _ _ => true | Here _ => false end.

Definition CanSet (rv : rvalue) : bool := CanAddr rv && negb (rro rv).

(* ------------------------------------------------------------------ *)
(** ** The operations of [reflect] used by the package *)

(** Whether a field name is exported: Go tests whether its first rune
    is an upper-case letter, which for a name that starts with an ASCII
    byte is the test below.  package unicode is not modelled: a name
    that starts with any other byte counts as unexported here, and the
    statements that rest on a name being unexported take names that
    start with an ASCII byte ([asciiStart]). *)
Definition is_exported (name : string) : bool :=
  match name with
  | String a _ => let n := Ascii.nat_of_ascii a in (Nat.leb 65 n && Nat.leb n 90)%bool
  | EmptyString => false
  end.

Definition asciiStart (name : string) : bool :=
  match name with
  | String a _ => Nat.ltb (Ascii.nat_of_ascii a) 128
  | EmptyString => false
  end.

(** [rv.Elem()] on a pointer: the value pointed to, addressable, with
    the read-only flags of the pointer; the zero Value for a nil
    pointer. *)
Definition Elem (h : heap) (rv : rvalue) : outcome Value :=
  match rtyp rv with
  | TPtr e =>
      v <- rload h rv ;;
      match v with
      | VPtr (Some l) => Ok (Some (mkRV e (At l []) (rro rv) (rembed rv)))
      | VPtr None => Ok None
      | _ => Panic
      end
  | _ => Panic
  end.

(** [rv.IsNil()]: panics on kinds that cannot be nil. *)
Definition IsNil (h : heap) (rv : rvalue) : outcome bool :=
  match kindOf (rtyp rv) with
  | reflect.Pointer | reflect.Map | reflect.Slice =>
      v <- rload h rv ;;
      match v with
      | VPtr p => Ok (bool_decide (p = None))
      | VMap m => Ok (bool_decide (m = None))
      | VSlice s => Ok (bool_decide (s = None))
      | _ => Panic
      end
  | _ => Panic
  end.

(** [rv.Len()]. *)
Definition Len (h : heap) (rv : rvalue) : outcome Z :=
  match rtyp rv with
  | TArray n _ => Ok (Z.of_nat n)
  | TSlice _ =>
      v <- rload h rv ;;
      match v with
      | VSlice None => Ok 0
      | VSlice (Some (_, n)) => Ok (Z.of_nat n)
      | _ => Panic
      end
  | TMap _ _ =>
      v <- rload h rv ;;
      match v with
      | VMap None => Ok 0
      | VMap (Some l) => m <- of_opt (map_at h l) ;; Ok (Z.of_nat (size m))
      | _ => Panic
      end
  | TString =>
      v <- rload h rv ;;
      match v with VStr s => Ok (Z.of_nat (String.length s)) | _ => Panic end
  | _ => Panic
  end.

(** A component of an aggregate value: a view when the aggregate is
    addressable, a copy otherwise. *)
Definition component (h : heap) (rv : rvalue) (i : nat) (t : type) (ro em : bool)
  : outcome Value :=
  match rsrc rv with
  | At l sel => Ok (Some (mkRV t (At l (sel ++ [i])) ro em))
  | Here v =>
      match v with
      | VAgg vs => x <- of_opt (vs !! i) ;; Ok (Some (mkRV t (Here x) ro em))
      | _ => Panic
      end
  end.

(** [rv.Field(i)]: panics if [rv] is not a struct or [i] is out of
    range.  The field inherits the sticky read-only flag of [rv] but
    not the flag of an embedded field; an unexported field is read-only
    itself, by the embedded flag when it is embedded and by the sticky
    flag otherwise. *)
Definition Field (h : heap) (rv : rvalue) (i : nat) : outcome Value :=
  match rtyp rv with
  | TStruct fs =>
      match fs !! i with
      | Some (name, anonymous, t) =>
          let sticky := rro rv && negb (rembed rv) in
          let unexported := negb (is_exported name) in
          component h rv i t (sticky || unexported)
                    (negb sticky && unexported && anonymous)
      | None => Panic
      end
  | _ => Panic
  end.

(** [rv.Index(i)] on an array or a slice (indexing a string is not
    modelled); panics when out of range.  A slice element is always
    addressable. *)
Definition Index (h : heap) (rv : rvalue) (i : Z) : outcome Value :=
  match rtyp rv with
  | TArray n e =>
      if bool_decide (0 <= i < Z.of_nat n)
      then component h rv (Z.to_nat i) e (rro rv) false
      else Panic
  | TSlice e =>
      v <- rload h rv ;;
      match v with
      | VSlice (Some (l, n)) =>
          if bool_decide (0 <= i < Z.of_nat n)
          then Ok (Some (RV e (At l [Z.to_nat i]) (rro rv)))
          else Panic
      | _ => Panic
      end
  | _ => Panic
  end.

(** [rv.Set(x)]: panics unless [rv] is settable and [x] is a valid,
    exported value of the same type. *)
Definition SetV (rv : rvalue) (x : Value) (h : heap) : outcome heap :=
  match rsrc rv, x with
  | At l sel, Some xv =>
      if negb (rro rv) && negb (rro xv) && type_eqb (rtyp xv) (rtyp rv)
      then v <- rload h xv ;; rstore h l sel v
      else Panic
  | _, _ => Panic
  end.

(** [reflect.New(t)]: a pointer to a fresh zero value of [t]. *)
Definition New (t : type) (h : heap) : rvalue * heap :=
  let '(l, h') := alloc h (OCell (zero t)) in
  (RV (TPtr t) (Here (VPtr (Some l))) false, h').

(** [reflect.MakeMap(t)]. *)
Definition MakeMap (t : type) (h : heap) : rvalue * heap :=
  let '(l, h') := alloc h (OMap ∅) in
  (RV t (Here (VMap (Some l))) false, h').

(** [reflect.MakeSlice(t, 0, 0)]: an empty slice that is not nil. *)
Definition MakeSlice (t : type) (h : heap) : rvalue * heap :=
  let '(l, h') := alloc h (OCell (VAgg [])) in
  (RV t (Here (VSlice (Some (l, 0%nat)))) false, h').

(** [reflect.Append(s, x)]: writes into the backing array when there is
    room, and otherwise moves the elements to a fresh backing array (of
    capacity length+1 in the model). *)
Definition Append (s : rvalue) (x : Value) (h : heap) : outcome (rvalue * heap) :=
  match rtyp s, x with
  | TSlice e, Some xv =>
      if negb (rro s) && negb (rro xv) && type_eqb (rtyp xv) e then
        hd <- rload h s ;;
        v <- rload h xv ;;
        match hd with
        | VSlice None =>
            let '(l, h') := alloc h (OCell (VAgg [v])) in
            Ok (RV (rtyp s) (Here (VSlice (Some (l, 1%nat)))) false, h')
        | VSlice (Some (l, n)) =>
            back <- of_opt (cell_at h l) ;;
            match back with
            | VAgg vs =>
                if bool_decide (n < List.length vs)%nat
                then Ok (RV (rtyp s) (Here (VSlice (Some (l, S n)))) false,
                         <[l := OCell (VAgg (<[n := v]> vs))]> h)
                else
                  let '(l', h') := alloc h (OCell (VAgg (take n vs ++ [v]))) in
                  Ok (RV (rtyp s) (Here (VSlice (Some (l', S n)))) false, h')
            | _ => Panic
            end
        | _ => Panic
        end
      else Panic
  | _, _ => Panic
  end.

(** The map key denoted by a key value. *)
Definition val_key (v : val) : option key :=
  match v with
  | VBool b => Some (KBool b)
  | VInt z => Some (KInt z)
  | VStr s => Some (KStr s)
  | _ => None
  end.

(** [m.MapIndex(k)]: a copy of the entry, or the zero Value when the key
    is absent or the map is nil; panics on a key of the wrong type. *)
Definition MapIndex (h : heap) (m : rvalue) (k : Value) : outcome Value :=
  match rtyp m, k with
  | TMap kt e, Some kv =>
      if type_eqb (rtyp kv) kt then
        kval <- rload h kv ;;
        kk <- of_opt (val_key kval) ;;
        mv <- rload h m ;;
        match mv with
        | VMap None => Ok None
        | VMap (Some l) =>
            g <- of_opt (map_at h l) ;;
            match g !! kk with
            | Some x => Ok (Some (RV e (Here x) (rro m || rro kv)))
            | None => Ok None
            end
        | _ => Panic
        end
      else Panic
  | _, _ => Panic
  end.

(** [m.SetMapIndex(k, x)]: stores a copy of [x] under [k]; deletes [k]
    when [x] is the zero Value; panics on a nil map. *)
Definition SetMapIndex (m : rvalue) (k x : Value) (h : heap) : outcome heap :=
  match rtyp m, k with
  | TMap kt e, Some kv =>
      if negb (rro m) && negb (rro kv) && type_eqb (rtyp kv) kt then
        kval <- rload h kv ;;
        kk <- of_opt (val_key kval) ;;
        mv <- rload h m ;;
        match x with
        | None =>
            match mv with
            | VMap None => Ok h
            | VMap (Some l) =>
                g <- of_opt (map_at h l) ;; Ok (<[l := OMap (delete kk g)]> h)
            | _ => Panic
            end
        | Some xv =>
            if negb (rro xv) && type_eqb (rtyp xv) e then
              v <- rload h xv ;;
              match mv with
              | VMap (Some l) =>
                  g <- of_opt (map_at h l) ;; Ok (<[l := OMap (<[kk := v]> g)]> h)
              | _ => Panic
              end
            else Panic
        end
      else Panic
  | _, _ => Panic
  end.

(** [t.Elem()] on a [reflect.Type]. *)
Definition typeElem (t : type) : outcome type :=
  match t with
  | TPtr e | TMap _ e | TSlice e | TArray _ e => Ok e
  | _ => Panic
  end.

(* ------------------------------------------------------------------ *)
(** ** Value utilities of the package *)

(** What is passed as [any]: the nil interface, a boxed Go value, or a
    [reflect.Value] itself. *)
Inductive any := Nil | Iface (t : type) (v : val) | Refl (rv : Value).

Inductive error :=
| ErrSetNotSupported
| ErrGetNotSupported
| ErrGetInvalid
| ErrParseBool (s : string)
| ErrParseInt (s : string)
| ErrCustomParse (s : string)
| ErrUnsupportedKind (t : type).

(** [Reflect]: a [reflect.Value] is returned as it is, anything else
    goes through [reflect.ValueOf]. *)
Definition Reflect (v : any) : Value :=
  match v with
  | Refl rv => rv
  | Nil => None
  | Iface t x => Some (RV t (Here x) false)
  end.

Definition IsPointing (rv : Value) : bool :=
  match KindV rv with reflect.Pointer => true | _ => false end.

(** The loop of [Concrete], [for IsPointing(rv) { rv = rv.Elem() }]: it
    strips one pointer of the value's type at each turn. *)
Fixpoint concreteLoop (t : type) (h : heap) (rv : rvalue) : outcome Value :=
  match t with
  | TPtr e =>
      x <- Elem h rv ;;
      match x with
      | Some rv' => concreteLoop e h rv'
      | None => Ok None
      end
  | _ => Ok (Some rv)
  end.

Definition Concrete (h : heap) (v : Value) : outcome Value :=
  match v with
  | Some rv => concreteLoop (rtyp rv) h rv
  | None => Ok None
  end.

Fixpoint ConcreteType (rt : type) : type :=
  match rt with
  | TPtr e => ConcreteType e
  | _ => rt
  end.

Definition PointerMaybe (h : heap) (v : Value) : outcome Value :=
  match v with
  | Some rv =>
      if IsPointing v then
        e <- Elem h rv ;;
        if IsPointing e then Ok e else Ok v
      else Ok v
  | None => Ok None
  end.

(** The first switch of [InitValue]: for a type that can be nil, a value
    that is not nil is fine as it is, and a nil one must be settable. *)
Definition nilGuard (rv : rvalue) (h : heap)
    (k : outcome (bool * heap)) : outcome (bool * heap) :=
  isnil <- IsNil h rv ;;
  if negb isnil then Ok (true, h)
  else if negb (CanSet rv) then Ok (false, h)
  else k.

Fixpoint InitValue (v : Value) (rt : type) (h : heap) {struct rt}
  : outcome (bool * heap) :=
  match v with
  | None => Ok (false, h)
  | Some rv =>
      match rt with
      | TSlice _ =>
          nilGuard rv h
            (let '(s, h1) := MakeSlice rt h in
             h2 <- SetV rv (Some s) h1 ;; Ok (true, h2))
      | TMap _ _ =>
          nilGuard rv h
            (let '(m, h1) := MakeMap rt h in
             h2 <- SetV rv (Some m) h1 ;; Ok (true, h2))
      | TPtr e =>
          nilGuard rv h
            (let '(ptr, h1) := New e h in
             pe <- Elem h1 ptr ;;
             r <- InitValue pe e h1 ;;
             let '(ok, h2) := r in
             if negb ok then Ok (false, h2)
             else h3 <- SetV rv (Some ptr) h2 ;; Ok (true, h3))
      | _ => Ok (true, h)
      end
  end.

Definition InitType (rt : type) (h : heap) : outcome (Value * heap) :=
  let '(rv, h1) := New rt h in
  e <- Elem h1 rv ;;
  r <- InitValue e rt h1 ;;
  let '(ok, h2) := r in
  if negb ok then Ok (None, h2) else Ok (e, h2).

(** [Init]: [rv.Type()] panics on the zero Value. *)
Definition Init (value : any) (h : heap) : outcome (Value * heap) :=
  match Reflect value with
  | Some rv =>
      r <- InitValue (Some rv) (rtyp rv) h ;;
      let '(ok, h1) := r in
      if negb ok then Ok (None, h1) else Ok (Some rv, h1)
  | None => Panic
  end.

(* ------------------------------------------------------------------ *)
(** ** Nodes *)

(** The read and write functions a node can carry.  The package has one
    pair for sequence slots, one for map entries and one per struct
    field index (and one per method index, for the methods the model
    leaves out); a node names the function it holds. *)
Inductive NodeGet := GIndex | GMap | GField (i : nat).
Inductive NodeSet := SIndex | SMap | SField (i : nat).

Record Node := mkNode {
  KeyString : string;
  Key : key;
  KeyType : option type;
  Typ : type;
  CopyOnly : bool;
  Get : option NodeGet;
  Set_ : option NodeSet
}.

Definition fieldType := TString.
Definition indexType := TInt.

(** The key of a node as a [reflect.Value] ([Reflect(n.Key)]). *)
Definition reflectKey (k : key) : Value :=
  match k with
  | KNil => None
  | KBool b => Some (RV TBool (Here (VBool b)) false)
  | KInt z => Some (RV TInt (Here (VInt z)) false)
  | KStr s => Some (RV TString (Here (VStr s)) false)
  end.

(** [n.Key.(int)]: the type assertion panics on any other key. *)
Definition keyInt (k : key) : outcome Z :=
  match k with KInt z => Ok z | _ => Panic end.

(** A method of [reflect.Value] called on the zero Value panics. *)
Definition valid (v : Value) : outcome rvalue := of_opt v.

Definition indexGet (n : Node) (rv : Value) (h : heap) : outcome Value :=
  c <- Concrete h rv ;;
  c <- valid c ;;
  i <- keyInt (Key n) ;;
  Index h c i.

(** The loop of [indexSet]:
    [for index >= c.Len() && c.CanSet() { c.Set(reflect.Append(c, zero)) }].
    Each turn makes the slice one longer, so [index + 1] turns are
    always enough; the model panics if the turns run out. *)
Fixpoint growLoop (turns : nat) (index : Z) (c : rvalue) (h : heap) : outcome heap :=
  len <- Len h c ;;
  if bool_decide (index >= len) && CanSet c then
    match turns with
    | O => Panic
    | S turns' =>
        e <- typeElem (rtyp c) ;;
        let '(p, h1) := New e h in
        z <- Elem h1 p ;;
        r <- Append c z h1 ;;
        let '(s, h2) := r in
        h3 <- SetV c (Some s) h2 ;;
        growLoop turns' index c h3
    end
  else Ok h.

Definition indexSet (n : Node) (rv val : Value) (h : heap)
  : outcome (option error * heap) :=
  index <- keyInt (Key n) ;;
  c <- Concrete h rv ;;
  if bool_decide (index < 0) then Ok (Some ErrSetNotSupported, h)
  else
    c <- valid c ;;
    h1 <- growLoop (Z.to_nat (index + 1)) index c h ;;
    el <- Index h1 c index ;;
    el <- valid el ;;
    if negb (CanSet el) then Ok (Some ErrSetNotSupported, h1)
    else h2 <- SetV el val h1 ;; Ok (None, h2).

Definition mapGet (n : Node) (rv : Value) (h : heap) : outcome Value :=
  c <- Concrete h rv ;;
  c <- valid c ;;
  MapIndex h c (reflectKey (Key n)).

Definition mapSet (n : Node) (rv val : Value) (h : heap)
  : outcome (option error * heap) :=
  c <- Concrete h rv ;;
  c <- valid c ;;
  h1 <- SetMapIndex c (reflectKey (Key n)) val h ;;
  Ok (None, h1).

Definition getFieldGet (i : nat) (n : Node) (rv : Value) (h : heap) : outcome Value :=
  c <- Concrete h rv ;;
  c <- valid c ;;
  Field h c i.

Definition getFieldSet (i : nat) (n : Node) (rv val : Value) (h : heap)
  : outcome (option error * heap) :=
  c <- Concrete h rv ;;
  c <- valid c ;;
  f <- Field h c i ;;
  f <- valid f ;;
  if negb (CanSet f) then Ok (Some ErrSetNotSupported, h)
  else h1 <- SetV f val h ;; Ok (None, h1).

(** Calling the read or write function a node holds. *)
Definition callGet (g : NodeGet) : Node -> Value -> heap -> outcome Value :=
  match g with
  | GIndex => indexGet
  | GMap => mapGet
  | GField i => getFieldGet i
  end.

Definition callSet (s : NodeSet)
  : Node -> Value -> Value -> heap -> outcome (option error * heap) :=
  match s with
  | SIndex => indexSet
  | SMap => mapSet
  | SField i => getFieldSet i
  end.

Definition Node_IsDynamic (n : Node) : bool :=
  bool_decide (Key n = KNil) && bool_decide (KeyString n = "").

Definition Node_IsReadOnly (n : Node) : bool := bool_decide (Set_ n = None).

Definition Node_IsWriteOnly (n : Node) : bool := bool_decide (Get n = None).

(** A copy of the node for the given key: a dynamic node is bound to the
    key, any other node is returned as it is. *)
Definition Node_ForKey (n : Node) (k : key) : Node :=
  if negb (Node_IsDynamic n) then n
  else mkNode (ToString k) k (KeyType n) (Typ n) (CopyOnly n) (Get n) (Set_ n).

(** The nodes of a type or value, in order and by key string. *)
Record Nodes := mkNodes {
  InOrder : list Node;
  ByKey : gmap string Node
}.

(** [Add] skips a node whose key string is already present. *)
Definition Add (nodes : Nodes) (n : Node) : Nodes :=
  match ByKey nodes !! KeyString n with
  | Some _ => nodes
  | None => mkNodes (InOrder nodes ++ [n]) (<[KeyString n := n]> (ByKey nodes))
  end.

Definition NewNodes (initial : list Node) : Nodes :=
  foldl Add (mkNodes [] ∅) initial.

Definition Nodes_ForKey (nodes : Nodes) (k : key) : option Node :=
  match InOrder nodes with
  | [n0] =>
      if Node_IsDynamic n0 then Some (Node_ForKey n0 k)
      else ByKey nodes !! ToString k
  | _ => ByKey nodes !! ToString k
  end.

Definition Nodes_KeyStrings (nodes : Nodes) : list string :=
  KeyString <$> filter (fun n => negb (Node_IsDynamic n)) (InOrder nodes).

Definition Nodes_Clone (nodes : Nodes) : Nodes := NewNodes (InOrder nodes).

(** The process-wide cache [typeNodes], from types to their nodes. *)
Abbreviation cache := (list (type * Nodes)).

Fixpoint cache_get (c : cache) (t : type) : option Nodes :=
  match c with
  | [] => None
  | (t', ns) :: c' => if type_eqb t' t then Some ns else cache_get c' t
  end.

Definition cache_set (t : type) (ns : Nodes) (c : cache) : cache := (t, ns) :: c.

Definition SetTypeNodes (rt : type) (nodes : list Node) (c : cache) : cache :=
  cache_set rt (NewNodes nodes) c.

(** The nodes of the three kinds of container. *)
Definition mapNode (k e : type) : Node :=
  mkNode "" KNil (Some k) e true (Some GMap) (Some SMap).

Definition sliceNode (e : type) : Node :=
  mkNode "" KNil (Some indexType) e false (Some GIndex) (Some SIndex).

Definition arrayNode (e : type) (i : nat) : Node :=
  mkNode (Itoa (Z.of_nat i)) (KInt (Z.of_nat i)) (Some indexType) e false
         (Some GIndex) (Some SIndex).

Definition fieldNode (name : string) (t : type) (i : nat) : Node :=
  mkNode name (KStr name) (Some fieldType) t false
         (Some (GField i)) (Some (SField i)).

(** The switch of [GetTypeNodes] on the kind of a concrete type, with
    the cache threaded through the calls for embedded fields.  Those
    calls are [GetTypeNodes] itself: look the field type up, strip its
    pointers, look the concrete type up, and build it if it is new.  The
    Go code registers the node set in the cache before filling it, which
    matters for recursive types only; the types of the model are finite
    trees, and the model registers it once built.  The model's types
    have no methods, so the method scans add nothing and a pointer type
    shares the nodes of its base. *)
Fixpoint buildNodes (c : type) (tn : cache) {struct c} : Nodes * cache :=
  match c with
  | TMap k e => (Add (NewNodes []) (mapNode k e), tn)
  | TSlice e => (Add (NewNodes []) (sliceNode e), tn)
  | TArray len e =>
      (foldl Add (NewNodes []) (arrayNode e <$> seq 0 len), tn)
  | TStruct fs =>
      (fix fields (fs : list (string * bool * type)) (i : nat)
           (nodes : Nodes) (tn : cache) {struct fs} : Nodes * cache :=
         match fs with
         | [] => (nodes, tn)
         | (name, anonymous, ft) :: fs' =>
             if anonymous then
               let '(embedded, tn1) :=
                 match cache_get tn ft with
                 | Some ns => (ns, tn)
                 | None =>
                     (fix strip (t : type) : Nodes * cache :=
                        match t with
                        | TPtr e => strip e
                        | _ =>
                            match cache_get tn t with
                            | Some ns => (ns, tn)
                            | None =>
                                let '(ns, tn') := buildNodes t tn in
                                (ns, cache_set t ns tn')
                            end
                        end) ft
                 end in
               fields fs' (S i) (foldl Add nodes (InOrder embedded)) tn1
             else
               fields fs' (S i) (Add nodes (fieldNode name ft i)) tn
         end) fs 0%nat (NewNodes []) tn
  | _ => (NewNodes [], tn)
  end.

(** Inspects a type and returns its nodes, from the cache when it has
    them. *)
Definition GetTypeNodes (rt : type) (tn : cache) : Nodes * cache :=
  match cache_get tn rt with
  | Some nodes => (nodes, tn)
  | None =>
      let c := ConcreteType rt in
      match cache_get tn c with
      | Some nodes => (nodes, tn)
      | None =>
          let '(nodes, tn1) := buildNodes c tn in
          let tn2 := cache_set c nodes tn1 in
          match cache_get tn2 rt with
          | Some exactNodes => (exactNodes, tn2)
          | None => (nodes, tn2)
          end
      end
  end.

(** The node of one entry of a map value. *)
Definition entryNode (kt e : type) (k : key) : Node :=
  mkNode (ToString k) k (Some kt) e true (Some GMap) (Some SMap).

(** Inspects a value for its nodes: the keys of a map, the indices of a
    slice, and otherwise the nodes of its type.  ([MapKeys] returns the
    keys in an unspecified order; the model takes the order of the
    finite map.) *)
Definition GetValueNodes (v : Value) (h : heap) (tn : cache)
  : outcome (Nodes * cache) :=
  c <- Concrete h v ;;
  p <- PointerMaybe h v ;;
  match c with
  | Some cv =>
      match rtyp cv with
      | TMap kt e =>
          mv <- rload h cv ;;
          match mv with
          | VMap None => Ok (NewNodes [], tn)
          | VMap (Some l) =>
              g <- of_opt (map_at h l) ;;
              Ok (foldl Add (NewNodes []) (entryNode kt e <$> (map_to_list g).*1), tn)
          | _ => Panic
          end
      | TSlice e =>
          n <- Len h cv ;;
          Ok (foldl Add (NewNodes []) (arrayNode e <$> seq 0 (Z.to_nat n)), tn)
      | _ =>
          p <- valid p ;;
          Ok (GetTypeNodes (rtyp p) tn)
      end
  | None =>
      p <- valid p ;;
      Ok (GetTypeNodes (rtyp p) tn)
  end.

(* ------------------------------------------------------------------ *)
(** ** Paths *)

Record Path := mkPath {
  root : type;
  nodes : list Node
}.

Definition NewPath (rt : type) : Path := mkPath rt [].

Definition Path_IsEmpty (p : Path) : bool := bool_decide (List.length (nodes p) = 0%nat).

Definition Path_KeyStrings (p : Path) : list string := KeyString <$> nodes p.

Definition Path_Keys (p : Path) : list key := Key <$> nodes p.

Definition Path_End (p : Path) : option Node := last (nodes p).

Definition Path_Type (p : Path) : type :=
  match Path_End p with
  | None => root p
  | Some n => Typ n
  end.

Definition Path_NextNodes (p : Path) (tn : cache) : Nodes * cache :=
  GetTypeNodes (Path_Type p) tn.

(** A new path following the next key, or nil if the key is not valid. *)
Definition Path_Next (p : Path) (k : key) (tn : cache) : option Path * cache :=
  let '(nextNodes, tn') := Path_NextNodes p tn in
  match Nodes_ForKey nextNodes k with
  | None => (None, tn')
  | Some nextNode => (Some (mkPath (root p) ((nodes (NewPath (root p)) ++ nodes p) ++ [nextNode])), tn')
  end.

(** The loop of [Path.Get]. *)
Fixpoint getLoop (ns : list Node) (rv : Value) (h : heap)
  : outcome (Value * option error) :=
  match ns with
  | [] => Ok (rv, None)
  | node :: ns' =>
      match Get node with
      | None => Ok (invalidValue, Some ErrGetNotSupported)
      | Some get =>
          rv' <- callGet get node rv h ;;
          if negb (IsValid rv') then Ok (rv', Some ErrGetInvalid)
          else getLoop ns' rv' h
      end
  end.

Definition Path_Get (p : Path) (r : any) (h : heap) : outcome (Value * option error) :=
  let rv := Reflect r in
  if Path_IsEmpty p then Ok (rv, None)
  else getLoop (nodes p) rv h.

(** The first loop of [Path.Set]: every node needs a write function and
    every node before the last a read function. *)
Fixpoint preCheck (ns : list Node) : option error :=
  match ns with
  | [] => None
  | node :: ns' =>
      if bool_decide (Set_ node = None) then Some ErrSetNotSupported
      else if bool_decide (Get node = None) && negb (bool_decide (ns' = []))
      then Some ErrGetNotSupported
      else preCheck ns'
  end.

(** The result of the forward loop: it returned an error, or it filled
    [values] and [setBackTo]. *)
Inductive forward :=
| Returned (e : error) (h : heap)
| Filled (values : list Value) (setBackTo : option nat) (h : heap).

(** The second loop of [Path.Set], over the nodes before the last, from
    index [i] where [values[i]] is [cur]; [values] is returned from
    index [i] on. *)
Fixpoint forwardLoop (i : nat) (ns : list Node) (cur : Value)
    (setBackTo : option nat) (h : heap) {struct ns} : outcome forward :=
  match ns with
  | [] => Ok (Filled [cur] setBackTo h)
  | node :: ns' =>
      let setBackTo :=
        if CopyOnly node && bool_decide (setBackTo = None) then Some i else setBackTo in
      get <- of_opt (Get node) ;;
      next <- callGet get node cur h ;;
      r <- (if negb (IsValid next) then
              r <- InitType (Typ node) h ;;
              let '(next, h) := r in
              if negb (IsValid next) then Ok (inl (ErrGetInvalid, h))
              else Ok (inr (next, (if bool_decide (setBackTo = None) then Some i else setBackTo), h))
            else Ok (inr (next, setBackTo, h))) ;;
      match r with
      | inl (e, h) => Ok (Returned e h)
      | inr (next, setBackTo, h) =>
          next <- valid next ;;
          r <- (if negb (CanSet next) then
                  let '(ptr, h) := New (rtyp next) h in
                  pe <- Elem h ptr ;;
                  pe <- valid pe ;;
                  h <- SetV pe (Some next) h ;;
                  Ok (pe, h)
                else Ok (next, h)) ;;
          let '(next, h) := r in
          r <- InitValue (Some next) (Typ node) h ;;
          let '(ok, h) := r in
          if negb ok then Ok (Returned ErrGetInvalid h)
          else
            rest <- forwardLoop (S i) ns' (Some next) setBackTo h ;;
            match rest with
            | Returned e h => Ok (Returned e h)
            | Filled values setBackTo h => Ok (Filled (cur :: values) setBackTo h)
            end
      end
  end.

(** The write-back loop, [for k := last; k > setBackTo; k--], with
    [turns] the number of turns left. *)
Fixpoint writeBack (turns k : nat) (ns : list Node) (values : list Value) (h : heap)
  : outcome (option error * heap) :=
  match turns with
  | O => Ok (None, h)
  | S turns' =>
      prev <- of_opt (ns !! (k - 1)%nat) ;;
      set <- of_opt (Set_ prev) ;;
      container <- of_opt (values !! (k - 1)%nat) ;;
      child <- of_opt (values !! k) ;;
      r <- callSet set prev container child h ;;
      let '(err, h) := r in
      match err with
      | Some e => Ok (Some e, h)
      | None => writeBack turns' (k - 1)%nat ns values h
      end
  end.

Definition Path_Set (p : Path) (r : any) (val : any) (h : heap)
  : outcome (option error * heap) :=
  let rv := Reflect r in
  match nodes p with
  | [] =>
      match rv with
      | Some rv' =>
          if CanSet rv' then
            r <- Init (Refl rv) h ;;
            h <- SetV rv' (Reflect val) r.2 ;;
            Ok (None, h)
          else Ok (Some ErrSetNotSupported, h)
      | None => Ok (Some ErrSetNotSupported, h)
      end
  | _ :: _ =>
      let last := (List.length (nodes p) - 1)%nat in
      match preCheck (nodes p) with
      | Some e => Ok (Some e, h)
      | None =>
          f <- forwardLoop 0 (take last (nodes p)) rv None h ;;
          match f with
          | Returned e h => Ok (Some e, h)
          | Filled values setBackTo h =>
              node <- of_opt (nodes p !! last) ;;
              set <- of_opt (Set_ node) ;;
              container <- of_opt (values !! last) ;;
              r <- callSet set node container (Reflect val) h ;;
              let '(err, h) := r in
              match err with
              | Some e => Ok (Some e, h)
              | None =>
                  match setBackTo with
                  | Some sb => writeBack (last - sb) last (nodes p) values h
                  | None => Ok (None, h)
                  end
              end
          end
      end
  end.

(* ------------------------------------------------------------------ *)
(** ** References *)

Record Ref := mkRef {
  ref_root : Value;
  ref_path : Path
}.

(** [NewRef]: [rv.Type()] panics on the zero Value. *)
Definition NewRef (v : any) : outcome Ref :=
  rv <- valid (Reflect v) ;;
  Ok (mkRef (Some rv) (NewPath (rtyp rv))).

Definition Ref_Path (r : Ref) : Path := ref_path r.

Definition Ref_Get (r : Ref) (h : heap) : outcome (Value * option error) :=
  Path_Get (ref_path r) (Refl (ref_root r)) h.

Definition Ref_Set (r : Ref) (value : any) (h : heap) : outcome (option error * heap) :=
  Path_Set (ref_path r) (Refl (ref_root r)) value h.

(** The available nodes based on the value in this reference. *)
Definition Ref_NextNodes (r : Ref) (h : heap) (tn : cache)
  : outcome (option Nodes * cache) :=
  g <- Ref_Get r h ;;
  let '(rv, err) := g in
  match err with
  | None => Ok (None, tn)
  | Some _ =>
      x <- GetValueNodes rv h tn ;;
      Ok (Some x.1, x.2)
  end.

Definition Ref_Next (r : Ref) (k : key) (tn : cache) : option Ref * cache :=
  let '(nextPath, tn') := Path_Next (ref_path r) k tn in
  match nextPath with
  | None => (None, tn')
  | Some np => (Some (mkRef (ref_root r) np), tn')
  end.

(** [Nexts]: with several keys, [r.Next(keys[0]).Nexts(keys[1:])] calls
    a method with a value receiver through the pointer [Next] returned,
    which panics when that pointer is nil. *)
Fixpoint Ref_Nexts (r : Ref) (keys : list key) (tn : cache)
  : outcome (option Ref * cache) :=
  match keys with
  | [] => Ok (Some r, tn)
  | [k] => Ok (Ref_Next r k tn)
  | k :: keys' =>
      let '(next, tn') := Ref_Next r k tn in
      match next with
      | None => Panic
      | Some r' => Ref_Nexts r' keys' tn'
      end
  end.

(* ------------------------------------------------------------------ *)
(** ** The decoder *)

(** [strings.ToLower] on a string of ASCII bytes maps the letters A-Z to
    a-z byte by byte. *)
Definition lowerByte (a : Ascii.ascii) : Ascii.ascii :=
  let n := Ascii.nat_of_ascii a in
  if (Nat.leb 65 n && Nat.leb n 90)%bool then Ascii.ascii_of_nat (n + 32) else a.

Fixpoint lowerASCII (s : string) : string :=
  match s with
  | EmptyString => EmptyString
  | String a s' => String (lowerByte a) (lowerASCII s')
  end.

Fixpoint isASCII (s : string) : bool :=
  match s with
  | EmptyString => true
  | String a s' => Nat.ltb (Ascii.nat_of_ascii a) 128 && isASCII s'
  end.






Section Decoder.

(** What the decoder takes from Go's libraries: the lower-casing of
    strings that are not pure ASCII (package unicode), the parsing of
    integers ([strconv.ParseInt(s, 10, bits)]), and the parsing of
    arrays, slices, maps and structs, whose splitting of the input is
    driven by regular expressions (package regexp). *)
Variable unicodeToLower : string -> string.
Variable strconv_ParseInt : string -> nat -> option Z.

Definition ToLower (s : string) : string :=
  if isASCII s then lowerASCII s else unicodeToLower s.

(** A custom parser for a type: the parsed value with its type, or an
    error. *)
Definition Parser := string -> option (type * val).

Record Decoder := mkDecoder {
  Parsers : list (type * Parser);
  Int_ : string -> nat -> option Z;
  Trues : gset string;
  Falses : gset string
}.

Variable parseComposite :
  Decoder -> string -> rvalue -> Value -> heap -> outcome (Value * option error * heap).

(** The keywords of the default decoder. *)
Definition defaultTrues : list string := ["true"; "t"; "yes"; "ya"; "y"; "si"; "1"; "x"].
Definition defaultFalses : list string := ["false"; "f"; "no"; "n"; "0"; ""].

Definition NewDecoder : Decoder :=
  mkDecoder []
    (fun s bits => strconv_ParseInt s bits)
    (list_to_set defaultTrues)
    (list_to_set defaultFalses).

Definition kindBits (k : reflect.Kind) : nat :=
  match k with
  | reflect.Int => 64%nat
  | _ => 0%nat
  end.

Fixpoint parser_get (ps : list (type * Parser)) (t : type) : option Parser :=
  match ps with
  | [] => None
  | (t', p) :: ps' => if type_eqb t' t then Some p else parser_get ps' t
  end.

(** Parses the string into the given type.  [PointerMaybe(val)] is
    turned into an interface value, which panics on the zero Value, to
    look for an [encoding.TextUnmarshaler]; no type of the model
    implements it. *)
Definition Parse (d : Decoder) (s : string) (rt : type) (h : heap)
  : outcome (Value * option error * heap) :=
  r <- InitType rt h ;;
  let '(val, h) := r in
  c <- Concrete h val ;;
  ptrMaybe <- PointerMaybe h val ;;
  _ <- valid ptrMaybe ;;
  concrete <- valid c ;;
  match parser_get (Parsers d) (rtyp concrete) with
  | Some parser =>
      match parser s with
      | None => Ok (val, Some (ErrCustomParse s), h)
      | Some (t, v) =>
          h <- SetV concrete (Some (RV t (Here v) false)) h ;;
          Ok (val, None, h)
      end
  | None =>
      match rtyp concrete with
      | TBool =>
          let lower := ToLower s in
          if bool_decide (lower ∈ Trues d) then
            h <- SetV concrete (Some (RV TBool (Here (VBool true)) false)) h ;;
            Ok (val, None, h)
          else if bool_decide (lower ∈ Falses d) then
            h <- SetV concrete (Some (RV TBool (Here (VBool false)) false)) h ;;
            Ok (val, None, h)
          else Ok (val, Some (ErrParseBool s), h)
      | TInt =>
          match Int_ d s (kindBits reflect.Int) with
          | None => Ok (val, Some (ErrParseInt s), h)
          | Some parsed =>
              h <- SetV concrete (Some (RV TInt (Here (VInt parsed)) false)) h ;;
              Ok (val, None, h)
          end
      | TString =>
          h <- SetV concrete (Some (RV TString (Here (VStr s)) false)) h ;;
          Ok (val, None, h)
      | TArray _ _ | TSlice _ | TMap _ _ | TStruct _ =>
          parseComposite d s concrete val h
      | TPtr _ => Ok (val, Some (ErrUnsupportedKind (rtyp concrete)), h)
      end
  end.

End Decoder.


(* ------------------------------------------------------------------ *)
(** ** Values of the package's tests *)

(** [type point struct{ X, Y int }], and the types of the example of the
    README. *)
Definition point : type := TStruct [("X", false, TInt); ("Y", false, TInt)].
Definition name : type := TStruct [("First", false, TString); ("Last", false, TString)].
Definition person : type := TStruct [("Name", false, name)].
Definition persons : type := TStruct [("ByName", false, TMap TString person)].

(** A pointer to the cell at a location, as the root of a reference. *)
Definition ptrTo (l : loc) (t : type) : any := Iface (TPtr t) (VPtr (Some l)).
Definition ptr0 (t : type) : any := ptrTo 0%nat t.

(** [&map[string]int{"A": 6}] *)
Definition heapMapA : heap :=
  [OCell (VMap (Some 1%nat)); OMap {[ KStr "A" := VInt 6 ]}].

(** [&point{X: 56}] *)
Definition heapPoint : heap := [OCell (VAgg [VInt 56; VInt 0])].

(** [&[]string{"A"}] *)
Definition heapSliceA : heap :=
  [OCell (VSlice (Some (1%nat, 1%nat))); OCell (VAgg [VStr "A"])].

(** [&[2]string{"A", "B"}] *)
Definition heapArrayAB : heap := [OCell (VAgg [VStr "A"; VStr "B"])].

(** The path of one key from the root type [t], with an empty cache. *)
Definition pathOf (t : type) (keys : list key) : option Path :=
  foldl (fun p k => p ≫= fun p => (Path_Next p k []).1) (Some (NewPath t)) keys.


(** [NewRef(&point{X: 56})] *)
Definition refPoint : Ref := mkRef (Reflect (ptr0 point)) (NewPath (TPtr point)).


(** [NewRef(&map[string]int{"A": 6}).Next("B")] *)
Definition refMapB : Ref :=
  mkRef (Reflect (ptr0 (TMap TString TInt)))
        (mkPath (TPtr (TMap TString TInt)) [entryNode TString TInt (KStr "B")]).


(** ** Reading a slice as a list *)

(** The slice stored at the place [(l, sel)] has the elements [xs]: it
    is nil and [xs] is empty, or its header names a backing array, in a
    cell other than [l], of which [xs] is the first [n] elements. *)
Definition slice_holds (h : heap) (l : loc) (sel : list nat) (xs : list val) : Prop :=
  exists cv hdr,
    cell_at h l = Some cv /\ load_sel cv sel = Some (VSlice hdr) /\
    match hdr with
    | None => xs = []
    | Some (b, n) =>
        exists vs, b <> l /\ cell_at h b = Some (VAgg vs) /\
                   (n <= List.length vs)%nat /\ xs = take n vs
    end.


(** ** Caches filled by [GetTypeNodes] alone *)

(** The nodes [GetTypeNodes] builds for a concrete type when the cache
    is empty, and the caches that hold nothing else: every entry is the
    node set built for the concrete type of its key.  (A cache changed
    through [SetTypeNodes] need not be of this kind.) *)
Definition builtNodes (c : type) : Nodes := (buildNodes c []).1.

Definition cache_ok (tn : cache) : Prop :=
  forall t ns, cache_get tn t = Some ns -> ns = builtNodes (ConcreteType t).


(** ** Paths through nested maps *)




(** The value [v], of map type [T], is (after following pointers) the
    map object [m]. *)
Definition holdsMap (h : heap) (v : Value) (T : type) (m : loc) : Prop :=
  exists s, Concrete h v = Ok (Some (RV T s false)) /\
            rload h (RV T s false) = Ok (VMap (Some m)).



(** ** A recursive reading of [Path.Set] *)




(** Every cell of [h] is still there, with the same content, in [h']. *)
Definition cells_kept (h h' : heap) : Prop :=
  forall l v, cell_at h l = Some v -> cell_at h' l = Some v.






(** The call of [GetTypeNodes] for an embedded field, and the loop over
    the fields of a struct, as they occur inside [buildNodes]. *)
Definition embeddedNodes (ft : type) (tn : cache) : Nodes * cache :=
  match cache_get tn ft with
  | Some ns => (ns, tn)
  | None =>
      let c := ConcreteType ft in
      match cache_get tn c with
      | Some ns => (ns, tn)
      | None => let '(ns, tn') := buildNodes c tn in (ns, cache_set c ns tn')
      end
  end.

Fixpoint fieldNodes (fs : list (string * bool * type)) (i : nat)
    (nodes : Nodes) (tn : cache) : Nodes * cache :=
  match fs with
  | [] => (nodes, tn)
  | (name, anonymous, ft) :: fs' =>
      if anonymous then
        let '(embedded, tn1) := embeddedNodes ft tn in
        fieldNodes fs' (S i) (foldl Add nodes (InOrder embedded)) tn1
      else fieldNodes fs' (S i) (Add nodes (fieldNode name ft i)) tn
  end.


(** What [buildNodes] returns does not depend on the cache, as long as
    the cache holds built node sets only, and such a cache stays so. *)
Definition builds_ok (t : type) : Prop :=
  forall tn, cache_ok tn ->
    (buildNodes (ConcreteType t) tn).1 = builtNodes (ConcreteType t) /\
    cache_ok (buildNodes (ConcreteType t) tn).2.


(** What [Add] maintains: a node is stored under its own key string and
    is in the ordered list. *)
Definition nodes_ok (ns : Nodes) : Prop :=
  forall s n, ByKey ns !! s = Some n -> KeyString n = s /\ n ∈ InOrder ns.


(** ** Paths with their nodes in Go slices *)

(** [Path.nodes] is a Go slice: a header naming a backing array and a
    length.  To state that [Next] writes to no array an existing path
    can see, the arrays are kept in a store of their own.  An array has
    a capacity and the elements written so far. *)
Record narray := mkNArray { na_cap : nat; na_elems : list Node }.

Record nslice := mkNSlice { sl_arr : nat; sl_len : nat }.

Abbreviation nstore := (list narray).

Record PathS := mkPathS { ps_root : type; ps_nodes : nslice }.

(** The nodes a slice shows. *)
Definition sliceNodes (st : nstore) (s : nslice) : list Node :=
  take (sl_len s) (from_option na_elems [] (st !! sl_arr s)).

(** The path a stored path stands for. *)
Definition pathOfS (st : nstore) (p : PathS) : Path :=
  mkPath (ps_root p) (sliceNodes st (ps_nodes p)).

Section NodeSlices.

(** The capacity [append] gives a new backing array, from the old
    capacity and the length needed (Go's growth rule). *)
Variable growcap : nat -> nat -> nat.

(** [make([]Node, 0)] *)
Definition makeNodes (st : nstore) : nslice * nstore :=
  (mkNSlice (List.length st) 0, st ++ [mkNArray 0 []]).

(** [append(s, xs...)]: in place when the capacity allows, and into a
    new array otherwise. *)
Definition appendNodes (s : nslice) (xs : list Node) (st : nstore) : nslice * nstore :=
  let a := default (mkNArray 0 []) (st !! sl_arr s) in
  let n := (sl_len s + List.length xs)%nat in
  if bool_decide (n <= na_cap a)%nat then
    (mkNSlice (sl_arr s) n,
     <[sl_arr s := mkNArray (na_cap a)
                     (take (sl_len s) (na_elems a) ++ xs ++ drop n (na_elems a))]> st)
  else
    (mkNSlice (List.length st) n,
     st ++ [mkNArray (growcap (na_cap a) n) (take (sl_len s) (na_elems a) ++ xs)]).

(** [Path.Next] over the store: [next := NewPath(p.root)], then the two
    appends. *)
Definition Path_NextS (p : PathS) (k : key) (st : nstore) (tn : cache)
  : option PathS * nstore * cache :=
  let '(nextNodes, tn') := GetTypeNodes (Path_Type (pathOfS st p)) tn in
  match Nodes_ForKey nextNodes k with
  | None => (None, st, tn')
  | Some nextNode =>
      let '(s0, st0) := makeNodes st in
      let '(s1, st1) := appendNodes s0 (sliceNodes st0 (ps_nodes p)) st0 in
      let '(s2, st2) := appendNodes s1 [nextNode] st1 in
      (Some (mkPathS (ps_root p) s2), st2, tn')
  end.

End NodeSlices.


(** A store with one empty array, and the empty path on [*point] in it. *)
Definition storeEmpty : nstore := [mkNArray 0 []].
Definition pathSPoint : PathS := mkPathS (TPtr point) (mkNSlice 0 0).

(* ------------------------------------------------------------------ *)
(** ** Node sets kept by [Add] *)

(** The two views of a node set agree: no two nodes in order have the
    same key string, and the map holds exactly the nodes in order, each
    under its key string. *)
Definition nodes_wf (ns : Nodes) : Prop :=
  NoDup (KeyString <$> InOrder ns) /\
  (forall s n, ByKey ns !! s = Some n <-> n ∈ InOrder ns /\ KeyString n = s).

(** ** What the cache keeps *)

(** Every entry of [tn] is still there, unchanged, in [tn']. *)
Definition cache_le (tn tn' : cache) : Prop :=
  forall t ns, cache_get tn t = Some ns -> cache_get tn' t = Some ns.

(** [buildNodes] replaces no entry of the cache. *)
Definition builds_le (t : type) : Prop :=
  forall tn, cache_le tn (buildNodes (ConcreteType t) tn).2.

(** The nodes of the named fields of a struct, from field index [i] on. *)
Definition namedFieldNodes (i : nat) (fs : list (string * bool * type)) : list Node :=
  imap (fun j f => fieldNode f.1.1 f.2 (i + j)) fs.

(** The nodes offered to [Add] for a struct, field by field from field
    index [i] on: the node of a named field, and for an embedded field
    the nodes of its type. *)
Fixpoint structCandidates (i : nat) (fs : list (string * bool * type)) : list Node :=
  match fs with
  | [] => []
  | (name, anonymous, ft) :: fs' =>
      (if anonymous then InOrder (builtNodes (ConcreteType ft)) else [fieldNode name ft i])
      ++ structCandidates (S i) fs'
  end.

(** [struct{ point; Z string }], a struct that embeds [point]. *)
Definition labelled : type := TStruct [("point", true, point); ("Z", false, TString)].

(** The Go type of a key, if it is not the nil interface. *)
Definition keyType (k : key) : option type := rtyp <$> reflectKey k.

(** ** Initialised values *)


(** ** More value utilities of the package *)

Module refstr.

(** The loop of the package's [IsNil]; as in [Concrete], each turn
    strips one pointer of the value's type.  A value that is not of a
    kind that can be nil ends the loop with false, and so does the zero
    Value, whose kind is Invalid. *)
Fixpoint isNilLoop (t : type) (h : heap) (rv : rvalue) : outcome bool :=
  match t with
  | TPtr e =>
      isnil <- IsNil h rv ;;
      if isnil then Ok true
      else
        x <- Elem h rv ;;
        match x with
        | Some rv' => isNilLoop e h rv'
        | None => Ok false
        end
  | TMap _ _ | TSlice _ =>
      isnil <- IsNil h rv ;;
      if isnil then Ok true else Ok false
  | _ => Ok false
  end.

(** Whether the given value is nil. *)
Definition IsNil (v : any) (h : heap) : outcome bool :=
  match Reflect v with
  | Some rv => isNilLoop (rtyp rv) h rv
  | None => Ok false
  end.

End refstr.

Definition ConcreteKind (h : heap) (v : any) : outcome reflect.Kind :=
  c <- Concrete h (Reflect v) ;; Ok (KindV c).

(** [PointerTo]: a pointer to a fresh copy of the value; [rv.Type()]
    panics on the zero Value. *)
Definition PointerTo (rv : Value) (h : heap) : outcome (Value * heap) :=
  v <- valid rv ;;
  let '(ptr, h1) := New (rtyp v) h in
  pe <- Elem h1 ptr ;;
  pe <- valid pe ;;
  h2 <- SetV pe rv h1 ;;
  Ok (Some ptr, h2).

(** ** Decoding into a value, and setting from a string *)

(** What [Decode], [DecodeType] and [SetString] return as an error:
    [ErrDecodeInvalid], or an error of [Parse] or of [Set]. *)
Inductive derror := ErrDecodeInvalid | Err (e : error).

Section Decoding.

Variable unicodeToLower : string -> string.
Variable parseComposite :
  Decoder -> string -> rvalue -> Value -> heap -> outcome (Value * option error * heap).

(** Decodes the string and applies it to the given [v], which must be a
    pointer. *)
Definition Decode (d : Decoder) (v : any) (s : string) (h : heap)
  : outcome (option derror * heap) :=
  r <- Init v h ;;
  let '(val, h) := r in
  match val with
  | Some rv =>
      match rtyp rv with
      | TPtr e =>
          r <- Parse unicodeToLower parseComposite d s e h ;;
          let '(parsed, err, h) := r in
          match err with
          | Some er => Ok (Some (Err er), h)
          | None =>
              el <- Elem h rv ;;
              el <- valid el ;;
              h <- SetV el parsed h ;;
              Ok (None, h)
          end
      | _ => Ok (Some ErrDecodeInvalid, h)
      end
  | None => Ok (Some ErrDecodeInvalid, h)
  end.

(** Decodes a value of the given type from the given string and returns
    it ([v.Elem().Interface()] boxes a copy of the value). *)
Definition DecodeType (d : Decoder) (t : type) (s : string) (h : heap)
  : outcome (any * option derror * heap) :=
  let '(v, h) := New t h in
  r <- Decode d (Refl (Some v)) s h ;;
  let '(err, h) := r in
  match err with
  | Some e => Ok (Nil, Some e, h)
  | None =>
      el <- Elem h v ;;
      el <- valid el ;;
      x <- rload h el ;;
      Ok (Iface t x, None, h)
  end.

(** [Path.SetString] and [Ref.SetString]; the package's [DecodeType]
    uses the default decoder, a package variable. *)
Definition Path_SetString (defaultDecoder : Decoder) (p : Path) (r : any) (s : string)
    (h : heap) : outcome (option derror * heap) :=
  x <- DecodeType defaultDecoder (Path_Type p) s h ;;
  let '(parsed, err, h) := x in
  match err with
  | Some e => Ok (Some e, h)
  | None =>
      y <- Path_Set p r parsed h ;;
      let '(e, h) := y in
      Ok (Err <$> e, h)
  end.

Definition Ref_SetString (defaultDecoder : Decoder) (r : Ref) (value : string) (h : heap)
  : outcome (option derror * heap) :=
  Path_SetString defaultDecoder (ref_path r) (Refl (ref_root r)) value h.

End Decoding.

(** A decoder whose integer parser reads every input as 45, without
    keywords or custom parsers. *)
Definition decoder45 : Decoder := mkDecoder [] (fun _ _ => Some 45) ∅ ∅.


(** ** Multi-valued strings *)

(** [strings.HasPrefix], [HasSuffix], [TrimPrefix] and [TrimSuffix], as
    Go's library defines them by lengths and slices. *)
Definition HasPrefix (s prefix : string) : bool :=
  Nat.leb (String.length prefix) (String.length s) &&
  bool_decide (String.substring 0 (String.length prefix) s = prefix).

Definition HasSuffix (s suffix : string) : bool :=
  Nat.leb (String.length suffix) (String.length s) &&
  bool_decide (String.substring (String.length s - String.length suffix)
                 (String.length suffix) s = suffix).

Definition TrimPrefix (s prefix : string) : string :=
  if HasPrefix s prefix
  then String.substring (String.length prefix) (String.length s - String.length prefix) s
  else s.

Definition TrimSuffix (s suffix : string) : string :=
  if HasSuffix s suffix
  then String.substring 0 (String.length s - String.length suffix) s
  else s.

(** The errors of [Multi.Values] and [Multi.KeyValues]. *)
Inductive multiError :=
| ErrMultiValue (start end_ value : string)
| ErrKeyValue (entry : string).

Section Multi.

(** Compiled regular expressions (package regexp), and what their
    method [Split(s, n)] returns on a receiver that is not nil, for
    [n] other than 0. *)
Variable Regexp : Type.
Variable Split : Regexp -> string -> Z -> list string.

(** [re.Split(s, n)] through a pointer that may be nil.  The method
    returns nil for [n == 0] before it looks at its receiver; for any
    other [n] it reads the receiver's fields, which panics on a nil
    receiver. *)
Definition Regexp_Split (re : option Regexp) (s : string) (n : Z)
  : outcome (list string) :=
  if bool_decide (n = 0) then Ok []
  else match re with
       | Some r => Ok (Split r s n)
       | None => Panic
       end.

(** A type for controlling the parsing of multi-value types.  The
    separators are pointers, nil when the options do not set them. *)
Record Multi := mkMulti {
  Start : string;
  ValueSeparator : option Regexp;
  KeySeparator : option Regexp;
  End_ : string;
  Strict : bool
}.

(** Converts the given string to a slice of strings. *)
Definition Multi_Values (m : Multi) (s : string) (max : Z)
  : outcome (multiError + list string) :=
  if Strict m && (negb (HasPrefix s (Start m)) || negb (HasSuffix s (End_ m)))
  then Ok (inl (ErrMultiValue (Start m) (End_ m) s))
  else
    let inner := TrimSuffix (TrimPrefix s (Start m)) (End_ m) in
    values <- Regexp_Split (ValueSeparator m) inner max ;;
    Ok (inr values).

(** The loop of [KeyValues] over the entries. *)
Fixpoint keyValuesLoop (m : Multi) (entries : list string)
  : outcome (multiError + list (string * string)) :=
  match entries with
  | [] => Ok (inr [])
  | entry :: rest =>
      keyValue <- Regexp_Split (KeySeparator m) entry 2 ;;
      match keyValue with
      | [k; v] =>
          r <- keyValuesLoop m rest ;;
          match r with
          | inr keyValues => Ok (inr ((k, v) :: keyValues))
          | inl e => Ok (inl e)
          end
      | _ => Ok (inl (ErrKeyValue entry))
      end
  end.

(** Converts the given string to a slice of key-value pairs. *)
Definition Multi_KeyValues (m : Multi) (s : string) (max : Z)
  : outcome (multiError + list (string * string)) :=
  r <- Multi_Values m s max ;;
  match r with
  | inl err => Ok (inl err)
  | inr entries => keyValuesLoop m entries
  end.

End Multi.

(* ------------------------------------------------------------------ *)
(** * Properties *)

(** ** Reading through a path *)

Lemma getLoop_app (pre post : list Node) (rv : Value) (h : heap) :
  getLoop (pre ++ post) rv h =
    (r <- getLoop pre rv h ;;
     match r.2 with
     | Some e => Ok r
     | None => getLoop post r.1 h
     end).
Proof.
  revert rv. induction pre as [|n pre IH]; intros rv; simpl; [done|].
  destruct (Get n) as [g|]; simpl; [|done].
  destruct (callGet g n rv h) as [rv'|]; simpl; [|done].
  destruct (IsValid rv'); simpl; [apply IH|done].
Qed.

Lemma Path_Get_nonempty (p : Path) (r : any) (h : heap) :
  nodes p <> [] -> Path_Get p r h = getLoop (nodes p) (Reflect r) h.
Proof.
  intros Hne. unfold Path_Get, Path_IsEmpty.
  destruct (nodes p); [done|]. by rewrite bool_decide_eq_false_2.
Qed.

(** C6: [Path.Get] returns the root itself, without error, for the
    empty path; otherwise it replays the read functions of the nodes in
    order.  Once the nodes before some node have been read (each read
    giving a valid value, the last of them [rv]), a node without a read
    function ends the call with the zero Value and the error
    [ErrGetNotSupported], a read that gives an invalid value ends it
    with that value and [ErrGetInvalid], and a read that gives a valid
    value is followed by the replay of the remaining nodes from it. *)
Theorem Path_Get_replays (p : Path) (r : any) (h : heap) :
  (nodes p = [] -> Path_Get p r h = Ok (Reflect r, None)) /\
  (forall pre node post rv,
      nodes p = pre ++ node :: post ->
      getLoop pre (Reflect r) h = Ok (rv, None) ->
      (Get node = None ->
       Path_Get p r h = Ok (invalidValue, Some ErrGetNotSupported)) /\
      (forall get, Get node = Some get ->
         callGet get node rv h = Ok invalidValue ->
         Path_Get p r h = Ok (invalidValue, Some ErrGetInvalid)) /\
      (forall get rv', Get node = Some get ->
         callGet get node rv h = Ok (Some rv') ->
         Path_Get p r h = getLoop post (Some rv') h)).
Proof.
  split.
  - intros Hn. unfold Path_Get, Path_IsEmpty. by rewrite Hn.
  - intros pre node post rv Hn Hpre.
    assert (Hne : nodes p <> []) by (rewrite Hn; by destruct pre).
    rewrite (Path_Get_nonempty _ _ _ Hne), Hn, getLoop_app, Hpre. simpl.
    repeat split.
    + by intros ->.
    + by intros get -> ->.
    + by intros get rv' -> ->.
Qed.

Lemma Path_Get_replays_witness :
  Path_Get (mkPath (TPtr (TMap TString TInt)) [entryNode TString TInt (KStr "B")])
           (ptr0 (TMap TString TInt)) heapMapA
  = Ok (invalidValue, Some ErrGetInvalid).
Proof.
  pose proof (Path_Get_replays
    (mkPath (TPtr (TMap TString TInt)) [entryNode TString TInt (KStr "B")])
    (ptr0 (TMap TString TInt)) heapMapA) as [_ H].
  destruct (H [] (entryNode TString TInt (KStr "B")) []
              (Reflect (ptr0 (TMap TString TInt))) eq_refl eq_refl) as (_ & H2 & _).
  apply (H2 GMap); [reflexivity | vm_compute; reflexivity].
Defined.

(** ** The pre-check of [Path.Set] *)

Lemma preCheck_first (pre post : list Node) (n : Node) :
  Forall (fun m => Set_ m <> None /\ Get m <> None) pre ->
  (Set_ n = None -> preCheck (pre ++ n :: post) = Some ErrSetNotSupported) /\
  (Set_ n <> None -> Get n = None -> post <> [] ->
   preCheck (pre ++ n :: post) = Some ErrGetNotSupported).
Proof.
  induction 1 as [|m pre [Hs Hg] _ IH]; simpl.
  - split.
    + intros ->. done.
    + intros Hs -> Hp. rewrite bool_decide_eq_false_2 by done.
      rewrite bool_decide_eq_true_2 by done.
      by rewrite bool_decide_eq_false_2.
  - rewrite bool_decide_eq_false_2 by done.
    rewrite (bool_decide_eq_false_2 (Get m = None)) by done. simpl. exact IH.
Qed.

Lemma preCheck_None (ns : list Node) :
  preCheck ns = None <->
  Forall (fun n => Set_ n <> None) ns /\
  Forall (fun n => Get n <> None) (removelast ns).
Proof.
  induction ns as [|n ns IH]; simpl.
  - split; [by split|done].
  - case_bool_decide as Hs; simpl.
    { split; [done|]. intros [H1 _]. by inversion H1. }
    destruct ns as [|n' ns].
    { rewrite andb_false_r. simpl. split; [|done]. intros _.
      split; by repeat constructor. }
    rewrite (bool_decide_eq_false_2 (n' :: ns = [])) by done. rewrite andb_true_r.
    case_bool_decide as Hg.
    { split; [done|]. intros [_ H2]. simpl in H2. by inversion H2. }
    rewrite IH. change (removelast (n :: n' :: ns)) with (n :: removelast (n' :: ns)).
    split.
    + intros [H1 H2]. split; by constructor.
    + intros [H1 H2]. inversion H1; subst. inversion H2; subst. done.
Qed.

Lemma preCheck_Some (ns : list Node) (e : error) :
  preCheck ns = Some e -> e = ErrSetNotSupported \/ e = ErrGetNotSupported.
Proof.
  induction ns as [|n ns IH]; simpl; [done|].
  repeat case_bool_decide; simpl; try (intros [= <-]; auto); auto.
Qed.

Lemma Path_Set_preCheck (p : Path) (r v : any) (h : heap) (e : error) :
  nodes p <> [] -> preCheck (nodes p) = Some e ->
  Path_Set p r v h = Ok (Some e, h).
Proof.
  intros Hne He. unfold Path_Set. destruct (nodes p); [done|]. by rewrite He.
Qed.

(** C2: for a non-empty path, [Path.Set] first checks every node for a
    write function and every node before the last for a read function.
    The first node that fails the check decides the error
    ([ErrSetNotSupported] for a missing write function,
    [ErrGetNotSupported] for a missing read function), and whenever some
    node fails the check the call returns one of the two errors with the
    heap exactly as it was: nothing has been written. *)
Theorem Path_Set_fails_fast (p : Path) (r v : any) (h : heap) :
  nodes p <> [] ->
  (forall pre n post,
      nodes p = pre ++ n :: post ->
      Forall (fun m => Set_ m <> None /\ Get m <> None) pre ->
      (Set_ n = None ->
       Path_Set p r v h = Ok (Some ErrSetNotSupported, h)) /\
      (Set_ n <> None -> Get n = None -> post <> [] ->
       Path_Set p r v h = Ok (Some ErrGetNotSupported, h))) /\
  (Exists (fun n => Set_ n = None) (nodes p) \/
   Exists (fun n => Get n = None) (removelast (nodes p)) ->
   exists e, (e = ErrSetNotSupported \/ e = ErrGetNotSupported) /\
             Path_Set p r v h = Ok (Some e, h)).
Proof.
  intros Hne. split.
  - intros pre n post Hn Hpre.
    destruct (preCheck_first pre post n Hpre) as [H1 H2].
    split.
    + intros Hs. apply Path_Set_preCheck; [done|]. rewrite Hn. auto.
    + intros Hs Hg Hp. apply Path_Set_preCheck; [done|]. rewrite Hn. auto.
  - intros Hex.
    destruct (preCheck (nodes p)) as [e|] eqn:He.
    + exists e. split; [by eapply preCheck_Some|by apply Path_Set_preCheck].
    + apply preCheck_None in He as [H1 H2]. exfalso.
      destruct Hex as [Hex|Hex]; apply Exists_exists in Hex as (n & Hin & Hn).
      * rewrite Forall_forall in H1. by apply (H1 n).
      * rewrite Forall_forall in H2. by apply (H2 n).
Qed.

Lemma Path_Set_fails_fast_witness :
  Path_Set (mkPath (TPtr point)
              [mkNode "X" (KStr "X") (Some fieldType) TInt false (Some (GField 0)) None])
           (ptr0 point) (Iface TInt (VInt 6)) heapPoint
  = Ok (Some ErrSetNotSupported, heapPoint).
Proof.
  pose proof (Path_Set_fails_fast
    (mkPath (TPtr point)
       [mkNode "X" (KStr "X") (Some fieldType) TInt false (Some (GField 0)) None])
    (ptr0 point) (Iface TInt (VInt 6)) heapPoint) as H.
  destruct H as [H _]; [discriminate|].
  destruct (H [] (mkNode "X" (KStr "X") (Some fieldType) TInt false (Some (GField 0)) None)
              [] eq_refl (Forall_nil_2 _)) as [H1 _].
  apply H1. reflexivity.
Defined.

(** ** Extending paths and references *)

Lemma Ref_Nexts_nil (r : Ref) (tn : cache) : Ref_Nexts r [] tn = Ok (Some r, tn).
Proof. reflexivity. Qed.

Lemma Ref_Nexts_one (r : Ref) (k : key) (tn : cache) :
  Ref_Nexts r [k] tn = Ok (Ref_Next r k tn).
Proof. reflexivity. Qed.

Lemma Ref_Nexts_resolved (r r' : Ref) (k : key) (keys : list key) (tn tn' : cache) :
  keys <> [] -> Ref_Next r k tn = (Some r', tn') ->
  Ref_Nexts r (k :: keys) tn = Ref_Nexts r' keys tn'.
Proof. intros Hk Hn. destruct keys; [done|]. simpl. by rewrite Hn. Qed.

Lemma Ref_Nexts_unresolved (r : Ref) (k : key) (keys : list key) (tn : cache) :
  keys <> [] -> (Ref_Next r k tn).1 = None ->
  Ref_Nexts r (k :: keys) tn = Panic.
Proof.
  intros Hk Hn. destruct keys; [done|]. simpl.
  destruct (Ref_Next r k tn) as [[r'|] tn']; [done|done].
Qed.

(** C3: on [NewRef(&point{})], [Nexts] with the one key "Nope", which
    names no node of [point], returns nil; with the two keys "Nope" and
    "X" the call panics: [r.Next(keys[0])] is nil and [Nexts] is called
    through it.  With no key the reference itself is returned. *)
Theorem Ref_Nexts_unresolved_first_key :
  Ref_Nexts refPoint [] [] = Ok (Some refPoint, []) /\
  (exists tn, Ref_Nexts refPoint [KStr "Nope"] [] = Ok (None, tn)) /\
  Ref_Nexts refPoint [KStr "Nope"; KStr "X"] [] = Panic.
Proof.
  split; [reflexivity|]. split.
  - eexists. vm_compute. reflexivity.
  - vm_compute. reflexivity.
Qed.

(** [Path.Next] returns nil when the key names no node of the type at
    the end of the path, and otherwise a path with the same root type
    whose nodes are the nodes of [p] followed by the node the key
    resolved to. *)
Lemma Path_Next_appends (p : Path) (k : key) (tn : cache) :
  match (Path_Next p k tn).1 with
  | None => Nodes_ForKey (Path_NextNodes p tn).1 k = None
  | Some p' =>
      root p' = root p /\
      exists n, Nodes_ForKey (Path_NextNodes p tn).1 k = Some n /\
                nodes p' = nodes p ++ [n]
  end.
Proof.
  unfold Path_Next. destruct (Path_NextNodes p tn) as [ns tn']. simpl.
  destruct (Nodes_ForKey ns k) as [n|]; simpl; [|done].
  split; [done|]. by exists n.
Qed.

(** ** The nodes of a referenced value *)

(** Whenever [Path.Get] returns an error, the value it returns is the
    zero Value. *)
Lemma getLoop_error_invalid (ns : list Node) (rv rv' : Value) (h : heap) (e : error) :
  getLoop ns rv h = Ok (rv', Some e) -> rv' = None.
Proof.
  revert rv. induction ns as [|n ns IH]; intros rv; simpl; [done|].
  destruct (Get n) as [g|]; [|by intros [= <- _]].
  destruct (callGet g n rv h) as [[x|]|]; simpl; [by apply IH|by intros [= <- _]|done].
Qed.

(** C10: when [r.Get()] returns no error, [r.NextNodes()] returns nil
    (and leaves the cache alone); when [r.Get()] returns an error,
    [r.NextNodes()] is [GetValueNodes] of the value [Get] returned.  So
    the node set of the referenced value is computed only in the runs in
    which [Get] fails. *)
Theorem Ref_NextNodes_nil_on_success (r : Ref) (h : heap) (tn : cache) :
  (forall rv, Ref_Get r h = Ok (rv, None) -> Ref_NextNodes r h tn = Ok (None, tn)) /\
  (forall rv e, Ref_Get r h = Ok (rv, Some e) ->
     Ref_NextNodes r h tn = (x <- GetValueNodes rv h tn ;; Ok (Some x.1, x.2))).
Proof.
  unfold Ref_NextNodes. split.
  - intros rv ->. reflexivity.
  - intros rv e ->. reflexivity.
Qed.

Lemma Ref_NextNodes_nil_on_success_witness :
  Ref_NextNodes refPoint heapPoint [] = Ok (None, []) /\
  Ref_NextNodes refMapB heapMapA [] =
    (x <- GetValueNodes None heapMapA [] ;; Ok (Some x.1, x.2)).
Proof.
  split.
  - apply (proj1 (Ref_NextNodes_nil_on_success refPoint heapPoint [])
             (Reflect (ptr0 point))).
    reflexivity.
  - apply (proj2 (Ref_NextNodes_nil_on_success refMapB heapMapA [])
             None ErrGetInvalid).
    vm_compute. reflexivity.
Defined.

(** In the runs in which [Get] fails the value passed on is the zero
    Value, on which [GetValueNodes] panics: [r.NextNodes()] never
    returns a node set. *)
Lemma Ref_NextNodes_never_nodes (r : Ref) (h : heap) (tn : cache) :
  Ref_NextNodes r h tn = Panic \/ Ref_NextNodes r h tn = Ok (None, tn).
Proof.
  unfold Ref_NextNodes.
  destruct (Ref_Get r h) as [[rv [e|]]|] eqn:Hg; simpl; auto.
  left. unfold Ref_Get, Path_Get in Hg.
  destruct (Path_IsEmpty (ref_path r)); [done|].
  apply getLoop_error_invalid in Hg as ->. reflexivity.
Qed.

(** ** Node sets *)

Lemma nodes_ok_empty : nodes_ok (mkNodes [] ∅).
Proof. intros s n H. simpl in H. by rewrite lookup_empty in H. Qed.

Lemma nodes_ok_Add (ns : Nodes) (n : Node) : nodes_ok ns -> nodes_ok (Add ns n).
Proof.
  intros Hok. unfold Add. destruct (ByKey ns !! KeyString n) eqn:Hl; [done|].
  intros s m. simpl. destruct (decide (KeyString n = s)) as [<-|Hne].
  - rewrite lookup_insert_eq. intros [= <-]. split; [done|]. set_solver.
  - rewrite lookup_insert_ne by done. intros H. apply Hok in H as [H1 H2].
    split; [done|]. set_solver.
Qed.

Lemma nodes_ok_foldl (l : list Node) (ns : Nodes) :
  nodes_ok ns -> nodes_ok (foldl Add ns l).
Proof.
  revert ns. induction l as [|n l IH]; intros ns Hok; simpl; [done|].
  apply IH. by apply nodes_ok_Add.
Qed.

Lemma nodes_ok_NewNodes (l : list Node) : nodes_ok (NewNodes l).
Proof. apply nodes_ok_foldl, nodes_ok_empty. Qed.

Lemma Node_IsDynamic_KeyString (n : Node) :
  Node_IsDynamic n = true -> KeyString n = "".
Proof.
  unfold Node_IsDynamic. intros H. apply andb_true_iff in H as [_ H].
  by apply bool_decide_eq_true in H.
Qed.

(** C7 (as amended): on a node set built by [NewNodes], [ForKey(k)]
    returns nil, or else exactly one of two things.  When the set
    consists of one node and that node is dynamic, it returns that node
    bound to [k]: its key is [k] and its key string the string form of
    [k].  In every other case it returns the node stored under the
    string form of [k]: a node of the set whose key string is that
    string, and which is concrete whenever that string is not empty. *)
Theorem Nodes_ForKey_cases (l : list Node) (k : key) (n : Node) :
  Nodes_ForKey (NewNodes l) k = Some n ->
  (exists d, InOrder (NewNodes l) = [d] /\ Node_IsDynamic d = true /\
             n = mkNode (ToString k) k (KeyType d) (Typ d) (CopyOnly d) (Get d) (Set_ d))
  \/
  (~ (exists d, InOrder (NewNodes l) = [d] /\ Node_IsDynamic d = true) /\
   ByKey (NewNodes l) !! ToString k = Some n /\
   n ∈ InOrder (NewNodes l) /\
   KeyString n = ToString k /\
   (ToString k <> "" -> Node_IsDynamic n = false)).
Proof.
  pose proof (nodes_ok_NewNodes l) as Hok. revert Hok.
  generalize (NewNodes l). intros ns Hok. unfold Nodes_ForKey.
  assert (Hby : ByKey ns !! ToString k = Some n ->
                KeyString n = ToString k /\ n ∈ InOrder ns /\
                (ToString k <> "" -> Node_IsDynamic n = false)).
  { intros H. apply Hok in H as [H1 H2]. repeat split; try done.
    intros Hne. destruct (Node_IsDynamic n) eqn:Hd; [|done].
    apply Node_IsDynamic_KeyString in Hd. congruence. }
  destruct (InOrder ns) as [|d [|d' rest]] eqn:Hin.
  - intros H. right. destruct (Hby H) as (?&?&?).
    repeat split; try done. by intros (d & [=] & _).
  - destruct (Node_IsDynamic d) eqn:Hd.
    + intros [= <-]. left. exists d. repeat split; try done.
      unfold Node_ForKey. by rewrite Hd.
    + intros H. right. destruct (Hby H) as (?&?&?).
      repeat split; try done. intros (d0 & [= <-] & Hd0). congruence.
  - intros H. right. destruct (Hby H) as (?&?&?).
    repeat split; try done. by intros (d0 & [=] & _).
Qed.

Lemma Nodes_ForKey_cases_witness :
  exists d,
    InOrder (NewNodes [mapNode TString TInt]) = [d] /\ Node_IsDynamic d = true /\
    entryNode TString TInt (KStr "A")
      = mkNode (ToString (KStr "A")) (KStr "A") (KeyType d) (Typ d) (CopyOnly d) (Get d) (Set_ d).
Proof.
  destruct (Nodes_ForKey_cases [mapNode TString TInt] (KStr "A")
              (entryNode TString TInt (KStr "A")) eq_refl) as [H|[H _]].
  - exact H.
  - exfalso. apply H. exists (mapNode TString TInt). split; reflexivity.
Defined.

(** C7 as stated fails on a set that holds a dynamic node next to
    another node: the dynamic node is stored under the empty key string,
    and [ForKey("")] returns it unbound: a dynamic node, whose key is
    still nil. *)
Lemma Nodes_ForKey_unbound_dynamic :
  let ns := NewNodes [mapNode TString TInt; fieldNode "Len" TInt 0] in
  Nodes_ForKey ns (KStr "") = Some (mapNode TString TInt) /\
  Node_IsDynamic (mapNode TString TInt) = true /\
  Key (mapNode TString TInt) <> KStr "".
Proof. split; [|split]; [vm_compute; reflexivity|reflexivity|discriminate]. Qed.

(** ** Decoding booleans *)

Section DecoderFacts.

Variable unicodeToLower : string -> string.
Variable strconv_ParseInt : string -> nat -> option Z.
Variable parseComposite :
  Decoder -> string -> rvalue -> Value -> heap -> outcome (Value * option error * heap).

Local Abbreviation parse := (Parse unicodeToLower parseComposite).
Local Abbreviation lower := (ToLower unicodeToLower).

(** [Parse] into [bool], for any decoder without a custom parser for
    [bool]: the value is a fresh cell, set to true when the lower-cased
    input is in [Trues], to false when it is in [Falses], and left at
    its zero value with an error otherwise. *)
Lemma Parse_bool (d : Decoder) (s : string) (h : heap) :
  parser_get (Parsers d) TBool = None ->
  parse d s TBool h =
    let rv := Some (RV TBool (At (List.length h) []) false) in
    if bool_decide (lower s ∈ Trues d) then Ok (rv, None, h ++ [OCell (VBool true)])
    else if bool_decide (lower s ∈ Falses d) then Ok (rv, None, h ++ [OCell (VBool false)])
    else Ok (rv, Some (ErrParseBool s), h ++ [OCell (VBool false)]).
Proof.
  intros Hp. unfold Parse, InitType, New, alloc, Elem, rload, SetV, rstore, cell_at. simpl.
  rewrite Hp. simpl.
  assert (Hl : (h ++ [OCell (VBool false)]) !! List.length h = Some (OCell (VBool false))).
  { rewrite lookup_app_r by lia. by rewrite Nat.sub_diag. }
  assert (Hi : forall b, <[List.length h := OCell (VBool b)]> (h ++ [OCell (VBool false)])
                         = h ++ [OCell (VBool b)]).
  { intros b. rewrite insert_app_r_alt by lia. by rewrite Nat.sub_diag. }
  repeat case_bool_decide; simpl; rewrite ?Hl; simpl; rewrite ?Hi, ?Hl; simpl; done.
Qed.







(** The lower-casing makes the keywords case-insensitive: for instance
    "YES" and "Si" decode to true, "NO" to false, and "maybe" is an
    error. *)
Lemma Parse_bool_examples :
  parse (NewDecoder strconv_ParseInt) "YES" TBool []
    = Ok (Some (RV TBool (At 0%nat []) false), None, [OCell (VBool true)]) /\
  parse (NewDecoder strconv_ParseInt) "Si" TBool []
    = Ok (Some (RV TBool (At 0%nat []) false), None, [OCell (VBool true)]) /\
  parse (NewDecoder strconv_ParseInt) "NO" TBool []
    = Ok (Some (RV TBool (At 0%nat []) false), None, [OCell (VBool false)]) /\
  parse (NewDecoder strconv_ParseInt) "maybe" TBool []
    = Ok (Some (RV TBool (At 0%nat []) false), Some (ErrParseBool "maybe"), [OCell (VBool false)]).
Proof. repeat split; rewrite Parse_bool by reflexivity; vm_compute; reflexivity. Qed.

End DecoderFacts.

(** ** The heap *)

Lemma cell_at_app_l (h h' : heap) (l : loc) :
  (l < List.length h)%nat -> cell_at (h ++ h') l = cell_at h l.
Proof. intros Hl. unfold cell_at. by rewrite lookup_app_l. Qed.

Lemma cell_at_alloc (h : heap) (v : val) :
  cell_at (h ++ [OCell v]) (List.length h) = Some v.
Proof. unfold cell_at. rewrite lookup_app_r by lia. by rewrite Nat.sub_diag. Qed.

Lemma cell_at_lt (h : heap) (l : loc) (v : val) :
  cell_at h l = Some v -> (l < List.length h)%nat.
Proof.
  unfold cell_at. destruct (h !! l) eqn:H; [|done]. intros _.
  by apply lookup_lt_Some in H.
Qed.

Lemma cell_at_insert_eq (h : heap) (l : loc) (v : val) :
  (l < List.length h)%nat -> cell_at (<[l := OCell v]> h) l = Some v.
Proof. intros Hl. unfold cell_at. by rewrite list_lookup_insert_eq. Qed.

Lemma cell_at_insert_ne (h : heap) (l l' : loc) (o : obj) :
  l <> l' -> cell_at (<[l := o]> h) l' = cell_at h l'.
Proof. intros Hl. unfold cell_at. by rewrite list_lookup_insert_ne. Qed.






Lemma load_store_sel (v x y : val) (sel : list nat) :
  load_sel v sel = Some y ->
  exists v', store_sel v sel x = Some v' /\ load_sel v' sel = Some x.
Proof.
  revert v. induction sel as [|i sel IH]; intros v; simpl.
  - intros _. by exists x.
  - destruct v as [| | | | | |vs]; try done.
    destruct (vs !! i) as [w|] eqn:Hw; [|done]. intros Hl.
    destruct (IH w Hl) as (w' & -> & Hw'). eexists. split; [done|]. simpl.
    rewrite list_lookup_insert_eq by (by apply lookup_lt_Some in Hw). done.
Qed.

(** ** Type identity *)

(** Induction on types that also covers the types of struct fields. *)
Lemma type_ind_fields (P : type -> Prop) :
  P TBool -> P TInt -> P TString ->
  (forall e, P e -> P (TPtr e)) ->
  (forall k e, P k -> P e -> P (TMap k e)) ->
  (forall e, P e -> P (TSlice e)) ->
  (forall n e, P e -> P (TArray n e)) ->
  (forall fs, Forall (fun f => P f.2) fs -> P (TStruct fs)) ->
  forall t, P t.
Proof.
  intros Hb Hi Hs Hp Hm Hsl Ha Hst.
  fix IH 1. intros [| | |e|k e|e|n e|fs].
  - exact Hb.
  - exact Hi.
  - exact Hs.
  - apply Hp, IH.
  - apply Hm; apply IH.
  - apply Hsl, IH.
  - apply Ha, IH.
  - apply Hst. induction fs as [|[[nm an] t] fs IHfs]; constructor.
    + apply IH.
    + exact IHfs.
Qed.

Lemma type_eqb_eq (a b : type) : type_eqb a b = true <-> a = b.
Proof.
  revert b. induction a as [| | |e IH|k e IHk IHe|e IH|n e IH|fs IH] using type_ind_fields;
    intros b; destruct b as [| | |e'|k' e'|e'|n' e'|gs]; simpl; try (split; done).
  - rewrite IH. split; congruence.
  - rewrite andb_true_iff, IHk, IHe. split; [intros [-> ->]; done|intros [= -> ->]; done].
  - rewrite IH. split; congruence.
  - rewrite andb_true_iff, Nat.eqb_eq, IH.
    split; [intros [-> ->]; done|intros [= -> ->]; done].
  - revert gs. induction IH as [|[[nm an] t] fs Ht _ IHfs]; intros gs.
    + destruct gs; split; done.
    + destruct gs as [|[[nm' an'] t'] gs]; [split; done|].
      simpl in Ht. rewrite !andb_true_iff, !bool_decide_eq_true, Ht.
      specialize (IHfs gs). rewrite IHfs.
      split; [intros [[[-> ->] ->] [= ->]]; done|intros [= -> -> -> ->]; done].
Qed.

Lemma type_eqb_refl (a : type) : type_eqb a a = true.
Proof. by apply type_eqb_eq. Qed.

(** ** Writing into a slice *)

Lemma slice_holds_length (h : heap) (l : loc) (sel : list nat) (xs : list val) (e : type) :
  slice_holds h l sel xs ->
  Len h (RV (TSlice e) (At l sel) false) = Ok (Z.of_nat (List.length xs)).
Proof.
  intros (cv & hdr & Hc & Hl & Hh). unfold Len, rload. simpl. rewrite Hc. simpl.
  rewrite Hl. simpl. destruct hdr as [[b n]|].
  - destruct Hh as (vs & _ & _ & Hn & ->). by rewrite length_take_le.
  - by rewrite Hh.
Qed.

(** Storing at a place that can be read. *)
Lemma rstore_place (h : heap) (l : loc) (sel : list nat) (cv x y : val) :
  cell_at h l = Some cv -> load_sel cv sel = Some y ->
  exists cv', rstore h l sel x = Ok (<[l := OCell cv']> h) /\
              load_sel cv' sel = Some x.
Proof.
  intros Hc Hl. destruct (load_store_sel cv x y sel Hl) as (cv' & Hs & Hl').
  exists cv'. split; [|done]. unfold rstore. rewrite Hc. simpl. by rewrite Hs.
Qed.

Lemma slice_holds_stored (h : heap) (l b : loc) (sel : list nat) (cv' : val)
    (n : nat) (vs : list val) :
  (l < List.length h)%nat -> b <> l ->
  load_sel cv' sel = Some (VSlice (Some (b, n))) ->
  cell_at h b = Some (VAgg vs) -> (n <= List.length vs)%nat ->
  slice_holds (<[l := OCell cv']> h) l sel (take n vs).
Proof.
  intros Hlt Hb Hl Hbc Hn. exists cv', (Some (b, n)).
  split; [by apply cell_at_insert_eq|]. split; [done|].
  exists vs. split; [done|]. split; [|done].
  by rewrite cell_at_insert_ne.
Qed.

(** One turn of the loop of [indexSet] makes the slice one zero value
    longer. *)
Lemma grow_turn {A} (k : heap -> outcome A)
    (h : heap) (l : loc) (sel : list nat) (xs : list val) (e : type) :
  slice_holds h l sel xs ->
  let c := RV (TSlice e) (At l sel) false in
  exists h',
    (let '(p, h1) := New e h in
     z <- Elem h1 p ;;
     r <- Append c z h1 ;;
     let '(s, h2) := r in
     h3 <- SetV c (Some s) h2 ;; k h3) = k h' /\
    slice_holds h' l sel (xs ++ [zero e]).
Proof.
  intros (cv & hdr & Hc & Hl & Hh) c.
  pose proof (cell_at_lt _ _ _ Hc) as Hlt.
  unfold New, alloc, Elem, Append, SetV, rload. simpl.
  rewrite !type_eqb_refl. simpl.
  rewrite cell_at_app_l, Hc by done. simpl. rewrite Hl. simpl.
  rewrite cell_at_alloc. simpl.
  destruct hdr as [[b n]|].
  - destruct Hh as (vs & Hb & Hbc & Hn & ->).
    pose proof (cell_at_lt _ _ _ Hbc) as Hblt.
    rewrite cell_at_app_l, Hbc by done. simpl.
    case_bool_decide as Hroom; simpl; rewrite type_eqb_refl.
    + set (h2 := <[b := _]> (h ++ _)).
      assert (Hc2 : cell_at h2 l = Some cv).
      { unfold h2. rewrite cell_at_insert_ne by done. by rewrite cell_at_app_l. }
      destruct (rstore_place h2 l sel cv (VSlice (Some (b, S n))) _ Hc2 Hl)
        as (cv' & -> & Hl').
      eexists. split; [done|].
      assert (Hlen2 : List.length h2 = S (List.length h)).
      { unfold h2. rewrite length_insert, length_app. simpl. lia. }
      replace (take n vs ++ [zero e]) with (take (S n) (<[n := zero e]> vs)).
      * apply (slice_holds_stored _ _ b); [lia|done|done| |by rewrite length_insert; lia].
        unfold h2. apply cell_at_insert_eq. rewrite length_app. simpl. lia.
      * rewrite (take_S_r _ _ (zero e)) by (by apply list_lookup_insert_eq).
        by rewrite take_insert_ge by lia.
    + set (h2 := (h ++ _) ++ _).
      assert (Hc2 : cell_at h2 l = Some cv).
      { unfold h2. rewrite cell_at_app_l by (rewrite length_app; simpl; lia).
        by rewrite cell_at_app_l. }
      destruct (rstore_place h2 l sel cv
                  (VSlice (Some (List.length (h ++ [OCell (zero e)]), S n))) _ Hc2 Hl)
        as (cv' & -> & Hl').
      eexists. split; [done|].
      assert (Hlen2 : List.length h2 = S (S (List.length h))).
      { unfold h2. rewrite !length_app. simpl. lia. }
      assert (Htk : List.length (take n vs) = n) by (by rewrite length_take_le).
      replace (take n vs ++ [zero e]) with (take (S n) (take n vs ++ [zero e]))
        by (apply take_ge; rewrite length_app; simpl; lia).
      apply (slice_holds_stored _ _ (List.length (h ++ [OCell (zero e)]))); [| |done| |].
      * lia.
      * rewrite length_app. simpl. lia.
      * unfold h2. apply cell_at_alloc.
      * rewrite length_app. simpl. lia.
  - subst xs. simpl. rewrite type_eqb_refl.
    set (h2 := (h ++ _) ++ _).
    assert (Hc2 : cell_at h2 l = Some cv).
    { unfold h2. rewrite cell_at_app_l by (rewrite length_app; simpl; lia).
      by rewrite cell_at_app_l. }
    destruct (rstore_place h2 l sel cv
                (VSlice (Some (List.length (h ++ [OCell (zero e)]), 1%nat))) _ Hc2 Hl)
      as (cv' & -> & Hl').
    eexists. split; [done|].
    assert (Hlen2 : List.length h2 = S (S (List.length h))).
    { unfold h2. rewrite !length_app. simpl. lia. }
    change [zero e] with (take 1 [zero e]).
    apply (slice_holds_stored _ _ (List.length (h ++ [OCell (zero e)]))); [| |done| |].
    + lia.
    + rewrite length_app. simpl. lia.
    + unfold h2. apply cell_at_alloc.
    + simpl. lia.
Qed.

Lemma growLoop_enough (turns : nat) (i : Z) (h : heap) (l : loc) (sel : list nat)
    (xs : list val) (e : type) :
  slice_holds h l sel xs -> i < Z.of_nat (List.length xs) ->
  growLoop turns i (RV (TSlice e) (At l sel) false) h = Ok h.
Proof.
  intros Hs Hi. destruct turns; simpl; rewrite (slice_holds_length _ _ _ _ _ Hs); simpl;
    by rewrite bool_decide_eq_false_2 by lia.
Qed.

Lemma growLoop_grows (k turns : nat) (i : Z) (h : heap) (l : loc) (sel : list nat)
    (xs : list val) (e : type) :
  slice_holds h l sel xs -> 0 <= i ->
  (List.length xs + k = S (Z.to_nat i))%nat -> (k <= turns)%nat ->
  exists h', growLoop turns i (RV (TSlice e) (At l sel) false) h = Ok h' /\
             slice_holds h' l sel (xs ++ replicate k (zero e)).
Proof.
  revert turns h xs. induction k as [|k IH]; intros turns h xs Hs Hi Hlen Hk.
  - exists h. rewrite app_nil_r. split; [|done].
    eapply growLoop_enough; [done|lia].
  - destruct turns as [|turns]; [lia|].
    change (growLoop (S turns) i ?c h) with
      (len <- Len h c ;;
       if bool_decide (i >= len) && CanSet c then
         e <- typeElem (rtyp c) ;;
         let '(p, h1) := New e h in
         z <- Elem h1 p ;;
         r <- Append c z h1 ;;
         let '(s, h2) := r in
         h3 <- SetV c (Some s) h2 ;;
         growLoop turns i c h3
       else Ok h).
    rewrite (slice_holds_length _ _ _ _ _ Hs).
    cbn [obind typeElem rtyp CanSet CanAddr rsrc rro rembed negb andb].
    rewrite bool_decide_eq_true_2 by lia.
    cbn [obind typeElem rtyp CanSet CanAddr rsrc rro rembed negb andb].
    destruct (grow_turn (growLoop turns i (RV (TSlice e) (At l sel) false))
                h l sel xs e Hs) as (h1 & -> & Hs1).
    destruct (IH turns h1 (xs ++ [zero e]) Hs1 Hi) as (h' & -> & Hs').
    + rewrite length_app. simpl. lia.
    + lia.
    + exists h'. split; [done|]. by rewrite <- app_assoc in Hs'.
Qed.

(** Writing an element of a slice that is long enough. *)
Lemma slice_store (h : heap) (l : loc) (sel : list nat) (ys : list val) (e : type)
    (i : Z) (v : val) :
  slice_holds h l sel ys -> 0 <= i < Z.of_nat (List.length ys) ->
  exists h',
    (el <- Index h (RV (TSlice e) (At l sel) false) i ;;
     el <- valid el ;;
     if negb (CanSet el) then Ok (Some ErrSetNotSupported, h)
     else h2 <- SetV el (Some (RV e (Here v) false)) h ;; Ok (None, h2))
    = Ok (None, h') /\
    slice_holds h' l sel (<[Z.to_nat i := v]> ys).
Proof.
  intros (cv & hdr & Hc & Hl & Hh) Hi.
  destruct hdr as [[b n]|]; [|subst ys; simpl in Hi; lia].
  destruct Hh as (vs & Hb & Hbc & Hn & ->).
  rewrite length_take_le in Hi by done.
  unfold Index, rload. simpl. rewrite Hc. simpl. rewrite Hl. simpl.
  rewrite bool_decide_eq_true_2 by lia. simpl.
  unfold SetV, rstore. simpl. rewrite type_eqb_refl. simpl. rewrite Hbc. simpl.
  destruct (lookup_lt_is_Some_2 vs (Z.to_nat i)) as [w Hw]; [lia|].
  rewrite Hw. simpl.
  pose proof (cell_at_lt _ _ _ Hbc) as Hblt.
  eexists. split; [done|].
  exists cv, (Some (b, n)). split; [by rewrite cell_at_insert_ne|]. split; [done|].
  exists (<[Z.to_nat i := v]> vs). split; [done|].
  split; [by apply cell_at_insert_eq|]. split; [by rewrite length_insert|].
  by rewrite take_insert_lt by lia.
Qed.

(** The write function of a slice node on a settable slice. *)
Lemma indexSet_slice (n : Node) (rv : Value) (h : heap) (l : loc) (sel : list nat)
    (e : type) (xs : list val) (i : Z) :
  Key n = KInt i ->
  Concrete h rv = Ok (Some (RV (TSlice e) (At l sel) false)) ->
  slice_holds h l sel xs ->
  (i < 0 -> forall val, indexSet n rv val h = Ok (Some ErrSetNotSupported, h)) /\
  (Z.of_nat (List.length xs) <= i -> forall v,
     exists h', indexSet n rv (Some (RV e (Here v) false)) h = Ok (None, h') /\
       slice_holds h' l sel
         (xs ++ replicate (Z.to_nat i - List.length xs) (zero e) ++ [v]) /\
       List.length (xs ++ replicate (Z.to_nat i - List.length xs) (zero e) ++ [v])
         = S (Z.to_nat i)).
Proof.
  intros Hk Hc Hs. unfold indexSet. rewrite Hk, Hc. simpl. split.
  - intros Hi val. by rewrite bool_decide_eq_true_2.
  - intros Hi v. rewrite bool_decide_eq_false_2 by lia.
    destruct (growLoop_grows (S (Z.to_nat i) - List.length xs) (Z.to_nat (i + 1))
                i h l sel xs e Hs) as (h1 & -> & Hs1); [lia|lia|lia|].
    cbn [obind].
    destruct (slice_store h1 l sel _ e i v Hs1) as (h2 & -> & Hs2).
    { rewrite length_app, length_replicate. lia. }
    exists h2. split; [done|].
    assert (Heq : <[Z.to_nat i := v]>
                    (xs ++ replicate (S (Z.to_nat i) - List.length xs) (zero e))
                  = xs ++ replicate (Z.to_nat i - List.length xs) (zero e) ++ [v]).
    { rewrite insert_app_r_alt by lia. f_equal.
      replace (S (Z.to_nat i) - List.length xs)%nat
        with (S (Z.to_nat i - List.length xs)) by lia.
      rewrite replicate_S_end.
      rewrite insert_app_r_alt by (rewrite length_replicate; lia).
      rewrite length_replicate, Nat.sub_diag. done. }
    rewrite Heq in Hs2. split; [done|].
    rewrite !length_app, length_replicate. simpl. lia.
Qed.

(** C4 (as amended): the write function of a slice node, on a settable
    slice with elements [xs].  A negative index is rejected with
    [ErrSetNotSupported] and the heap is unchanged.  An index at or
    beyond the length makes the slice grow by zero values until the
    index exists and then writes the value there: the elements become
    [xs], then zero values up to the index, then the value, so the new
    length is the index plus one. *)
Theorem indexSet_grows (n : Node) (rv : Value) (h : heap) (l : loc) (sel : list nat)
    (e : type) (xs : list val) (i : Z) :
  Key n = KInt i ->
  Concrete h rv = Ok (Some (RV (TSlice e) (At l sel) false)) ->
  slice_holds h l sel xs ->
  (i < 0 -> forall val, indexSet n rv val h = Ok (Some ErrSetNotSupported, h)) /\
  (Z.of_nat (List.length xs) <= i -> forall v,
     exists h', indexSet n rv (Some (RV e (Here v) false)) h = Ok (None, h') /\
       slice_holds h' l sel
         (xs ++ replicate (Z.to_nat i - List.length xs) (zero e) ++ [v]) /\
       List.length (xs ++ replicate (Z.to_nat i - List.length xs) (zero e) ++ [v])
         = S (Z.to_nat i)).
Proof. exact (indexSet_slice n rv h l sel e xs i). Qed.

Lemma indexSet_grows_witness :
  exists h',
    indexSet (Node_ForKey (sliceNode TString) (KInt 3))
             (Reflect (ptr0 (TSlice TString)))
             (Some (RV TString (Here (VStr "B")) false)) heapSliceA = Ok (None, h') /\
    slice_holds h' 0%nat [] [VStr "A"; VStr ""; VStr ""; VStr "B"] /\
    List.length [VStr "A"; VStr ""; VStr ""; VStr "B"] = 4%nat.
Proof.
  refine (proj2 (indexSet_grows (Node_ForKey (sliceNode TString) (KInt 3))
            (Reflect (ptr0 (TSlice TString))) heapSliceA 0%nat [] TString
            [VStr "A"] 3 _ _ _) _ (VStr "B")).
  - reflexivity.
  - reflexivity.
  - exists (VSlice (Some (1%nat, 1%nat))), (Some (1%nat, 1%nat)).
    split; [reflexivity|]. split; [reflexivity|].
    exists [VStr "A"]. split; [lia|]. split; [reflexivity|]. split; [simpl; lia|reflexivity].
  - simpl. lia.
Defined.

(** C4 as stated fails on a slice that is not settable, such as the
    root of [NewRef([]string{"A"})]: the loop does not run and indexing
    the slice at 1 panics. *)
Lemma indexSet_unsettable_panics :
  indexSet (Node_ForKey (sliceNode TString) (KInt 1))
           (Reflect (Iface (TSlice TString) (VSlice (Some (1%nat, 1%nat)))))
           (Reflect (Iface TString (VStr "B"))) heapSliceA
  = Panic.
Proof. vm_compute. reflexivity. Qed.

(** ** The nodes of arrays and slices *)

Lemma foldl_Add_fresh (l : list Node) (ns : Nodes) :
  NoDup (KeyString <$> l) ->
  (forall n, n ∈ l -> ByKey ns !! KeyString n = None) ->
  InOrder (foldl Add ns l) = InOrder ns ++ l /\
  (forall n, n ∈ l -> ByKey (foldl Add ns l) !! KeyString n = Some n) /\
  (forall s, (forall n, n ∈ l -> KeyString n <> s) ->
             ByKey (foldl Add ns l) !! s = ByKey ns !! s).
Proof.
  revert ns. induction l as [|m l IH]; intros ns Hnd Hfr; simpl.
  - rewrite app_nil_r. split; [done|]. split; [|done]. intros n Hn. by apply elem_of_nil in Hn.
  - rewrite fmap_cons in Hnd. apply NoDup_cons in Hnd as [Hm Hnd].
    assert (Hadd : Add ns m = mkNodes (InOrder ns ++ [m]) (<[KeyString m := m]> (ByKey ns))).
    { unfold Add. rewrite Hfr; [done|]. by left. }
    destruct (IH (Add ns m) Hnd) as (H1 & H2 & H3).
    { intros n Hn. rewrite Hadd. simpl. rewrite lookup_insert_ne.
      - apply Hfr. by right.
      - intros Heq. apply Hm. rewrite Heq. apply list_elem_of_fmap. by exists n. }
    split; [|split].
    + rewrite H1, Hadd. simpl. by rewrite <- app_assoc.
    + intros n Hn. apply elem_of_cons in Hn as [->|Hn]; [|by apply H2].
      rewrite H3.
      * rewrite Hadd. simpl. by rewrite lookup_insert_eq.
      * intros n Hn Heq. apply Hm. rewrite <- Heq. apply list_elem_of_fmap. by exists n.
    + intros s Hs. rewrite H3.
      * rewrite Hadd. simpl. rewrite lookup_insert_ne; [done|]. apply Hs. by left.
      * intros n Hn. apply Hs. by right.
Qed.

Lemma Itoa_of_nat_inj (i j : nat) : Itoa (Z.of_nat i) = Itoa (Z.of_nat j) -> i = j.
Proof. unfold Itoa. intros H. apply (inj pretty) in H. lia. Qed.

Lemma arrayNodes_NoDup (e : type) (len : nat) :
  NoDup (KeyString <$> (arrayNode e <$> seq 0 len)).
Proof.
  rewrite <- list_fmap_compose. apply NoDup_fmap_2.
  - intros i j H. simpl in H. by apply Itoa_of_nat_inj.
  - apply NoDup_seq.
Qed.

(** The node set of an array type: its nodes in order, and what is
    stored under each key string. *)
Lemma arrayNodes_spec (e : type) (len : nat) :
  let ns := foldl Add (NewNodes []) (arrayNode e <$> seq 0 len) in
  InOrder ns = arrayNode e <$> seq 0 len /\
  (forall i, (i < len)%nat -> ByKey ns !! Itoa (Z.of_nat i) = Some (arrayNode e i)) /\
  (forall s, (forall i, (i < len)%nat -> s <> Itoa (Z.of_nat i)) -> ByKey ns !! s = None).
Proof.
  destruct (foldl_Add_fresh (arrayNode e <$> seq 0 len) (NewNodes []))
    as (H1 & H2 & H3); [apply arrayNodes_NoDup|done|].
  split; [done|]. split.
  - intros i Hi. apply (H2 (arrayNode e i)). apply list_elem_of_fmap.
    exists i. split; [done|]. apply elem_of_seq. lia.
  - intros s Hs. rewrite H3; [done|]. intros n Hn.
    apply list_elem_of_fmap in Hn as (i & -> & Hi). apply elem_of_seq in Hi.
    simpl. intros Heq. apply (Hs i); [lia|done].
Qed.

Lemma ConcreteType_idem (rt : type) : ConcreteType (ConcreteType rt) = ConcreteType rt.
Proof. induction rt; simpl; auto. Qed.

(** On a type whose concrete type is built without consulting the
    cache, [GetTypeNodes] returns the nodes built for the concrete
    type. *)
Lemma GetTypeNodes_leaf (rt : type) (tn : cache) :
  cache_ok tn ->
  (forall tn', buildNodes (ConcreteType rt) tn' = (builtNodes (ConcreteType rt), tn')) ->
  (GetTypeNodes rt tn).1 = builtNodes (ConcreteType rt).
Proof.
  intros Hok Hb. unfold GetTypeNodes.
  destruct (cache_get tn rt) as [ns|] eqn:H1; [apply Hok in H1; by subst|].
  destruct (cache_get tn (ConcreteType rt)) as [ns|] eqn:H2.
  { apply Hok in H2. simpl. by rewrite H2, ConcreteType_idem. }
  rewrite Hb. unfold cache_set. simpl.
  destruct (type_eqb (ConcreteType rt) rt); simpl; [done|]. by rewrite H1.
Qed.

Lemma GetTypeNodes_array (rt : type) (len : nat) (e : type) (tn : cache) :
  cache_ok tn -> ConcreteType rt = TArray len e ->
  (GetTypeNodes rt tn).1 = foldl Add (NewNodes []) (arrayNode e <$> seq 0 len).
Proof. intros Hok Hc. rewrite GetTypeNodes_leaf; rewrite ?Hc; done. Qed.


Lemma GetTypeNodes_map (rt : type) (k e : type) (tn : cache) :
  cache_ok tn -> ConcreteType rt = TMap k e ->
  (GetTypeNodes rt tn).1 = Add (NewNodes []) (mapNode k e).
Proof. intros Hok Hc. rewrite GetTypeNodes_leaf; rewrite ?Hc; done. Qed.

Lemma cache_ok_nil : cache_ok [].
Proof. intros t ns H. done. Qed.

Lemma Path_Next_resolved (p : Path) (k : key) (tn : cache) (ns : Nodes) (n : Node) :
  (GetTypeNodes (Path_Type p) tn).1 = ns -> Nodes_ForKey ns k = Some n ->
  (Path_Next p k tn).1 = Some (mkPath (root p) (nodes p ++ [n])).
Proof.
  intros Hg Hf. unfold Path_Next, Path_NextNodes.
  destruct (GetTypeNodes (Path_Type p) tn) as [ns' tn']. simpl in Hg. subst ns'.
  by rewrite Hf.
Qed.

Lemma Path_Next_unresolved (p : Path) (k : key) (tn : cache) (ns : Nodes) :
  (GetTypeNodes (Path_Type p) tn).1 = ns -> Nodes_ForKey ns k = None ->
  (Path_Next p k tn).1 = None.
Proof.
  intros Hg Hf. unfold Path_Next, Path_NextNodes.
  destruct (GetTypeNodes (Path_Type p) tn) as [ns' tn']. simpl in Hg. subst ns'.
  by rewrite Hf.
Qed.

(** Looking a key up in the node set of an array type. *)
Lemma arrayNodes_ForKey (e : type) (len : nat) (k : key) :
  Nodes_ForKey (foldl Add (NewNodes []) (arrayNode e <$> seq 0 len)) k
  = ByKey (foldl Add (NewNodes []) (arrayNode e <$> seq 0 len)) !! ToString k.
Proof.
  unfold Nodes_ForKey. destruct (arrayNodes_spec e len) as (-> & _ & _).
  destruct len as [|[|len]]; simpl; done.
Qed.

(** A path, and the writing and reading through one node. *)
Lemma Path_Set_one (rt : type) (n : Node) (s : NodeSet) (r v : any) (h : heap) :
  Set_ n = Some s ->
  Path_Set (mkPath rt [n]) r v h =
    (x <- callSet s n (Reflect r) (Reflect v) h ;; Ok x).
Proof.
  intros Hs. unfold Path_Set. simpl. rewrite Hs. simpl.
  rewrite andb_false_r.
  destruct (callSet s n (Reflect r) (Reflect v) h) as [[[e|] h']|]; done.
Qed.

Lemma Path_Get_one (rt : type) (n : Node) (g : NodeGet) (r : any) (h : heap) :
  Get n = Some g ->
  Path_Get (mkPath rt [n]) r h =
    (rv <- callGet g n (Reflect r) h ;;
     if negb (IsValid rv) then Ok (rv, Some ErrGetInvalid) else Ok (rv, None)).
Proof. intros Hg. unfold Path_Get. simpl. by rewrite Hg. Qed.


Lemma ConcreteType_not_ptr (t e : type) : ConcreteType t <> TPtr e.
Proof. induction t; simpl; done. Qed.

Lemma Concrete_ptrTo (h : heap) (l : loc) (t : type) :
  ConcreteType t = t ->
  Concrete h (Reflect (ptrTo l t)) = Ok (Some (RV t (At l []) false)).
Proof.
  intros Ht. simpl. unfold Elem. simpl. destruct t; try done.
  by apply ConcreteType_not_ptr in Ht.
Qed.





(** ** Writing and reading through nested maps *)










(** ** [Path.Set] with every level written back *)








(** ** Nested maps: setting through missing levels *)

Lemma cells_kept_app (h ext : heap) : cells_kept h (h ++ ext).
Proof.
  intros l v H. rewrite cell_at_app_l; [done|]. by eapply cell_at_lt.
Qed.

Lemma rload_kept (h h' : heap) (rv : rvalue) (v : val) :
  cells_kept h h' -> rload h rv = Ok v -> rload h' rv = Ok v.
Proof.
  intros Hk. unfold rload. destruct (rsrc rv) as [x|l sel]; [done|].
  destruct (cell_at h l) as [cv|] eqn:Hc; [|done].
  by rewrite (Hk _ _ Hc).
Qed.







Lemma holdsMap_ptrTo (h : heap) (l m : loc) (k e : type) :
  cell_at h l = Some (VMap (Some m)) ->
  holdsMap h (Reflect (ptrTo l (TMap k e))) (TMap k e) m.
Proof.
  intros Hc. exists (At l []). split; [by apply Concrete_ptrTo|].
  unfold rload. simpl. by rewrite Hc.
Qed.












(** The path [Next] builds for string keys through nested maps. *)
Lemma Path_Next_map (p : Path) (k : string) (E : type) (tn : cache) :
  cache_ok tn -> ConcreteType (Path_Type p) = TMap TString E ->
  (Path_Next p (KStr k) tn).1
  = Some (mkPath (root p) (nodes p ++ [Node_ForKey (mapNode TString E) (KStr k)])).
Proof.
  intros Hok Ht. eapply Path_Next_resolved; [by apply GetTypeNodes_map|]. done.
Qed.



(** ** A field of a record held in a map *)




Lemma getFieldSet_cell (i : nat) (n : Node) (h : heap) (c : loc)
    (fs : list (string * bool * type)) (name : string) (an : bool) (ft : type)
    (xs : list val) (v : val) :
  cell_at h c = Some (VAgg xs) -> fs !! i = Some (name, an, ft) ->
  is_exported name = true -> (i < List.length xs)%nat ->
  getFieldSet i n (Some (RV (TStruct fs) (At c []) false))
              (Some (RV ft (Here v) false)) h
  = Ok (None, <[c := OCell (VAgg (<[i := v]> xs))]> h).
Proof.
  intros Hc Hf He Hi. unfold getFieldSet, Field, component, SetV, rload, rstore.
  cbn [Concrete concreteLoop rtyp rsrc rro rembed obind valid of_opt].
  rewrite Hf, He. cbn [negb orb andb obind valid of_opt CanSet CanAddr rsrc rro rembed rtyp app].
  rewrite type_eqb_refl. cbn [obind]. rewrite Hc.
  cbn [mbind option_bind load_sel store_sel].
  destruct (lookup_lt_is_Some_2 xs i Hi) as [y Hy]. rewrite Hy. done.
Qed.






(** ** The cache stays a cache of built node sets *)

Lemma buildNodes_struct (fs : list (string * bool * type)) (tn : cache) :
  buildNodes (TStruct fs) tn = fieldNodes fs 0 (NewNodes []) tn.
Proof.
  simpl. generalize 0%nat (NewNodes []) tn.
  induction fs as [|[[name an] ft] fs IH]; intros i nodes tn0; [done|].
  simpl. destruct an; [|apply IH].
  unfold embeddedNodes.
  destruct (cache_get tn0 ft) as [ns|]; [apply IH|].
  assert (Hs : forall t,
    (fix strip (t : type) : Nodes * cache :=
       match t with
       | TPtr e => strip e
       | _ =>
           match cache_get tn0 t with
           | Some ns => (ns, tn0)
           | None => let '(ns, tn') := buildNodes t tn0 in (ns, cache_set t ns tn')
           end
       end) t
    = match cache_get tn0 (ConcreteType t) with
      | Some ns => (ns, tn0)
      | None =>
          let '(ns, tn') := buildNodes (ConcreteType t) tn0 in
          (ns, cache_set (ConcreteType t) ns tn')
      end).
  { induction t; try reflexivity. exact IHt. }
  rewrite Hs.
  destruct (cache_get tn0 (ConcreteType ft)) as [ns|]; [apply IH|].
  destruct (buildNodes (ConcreteType ft) tn0) as [ns tn']. apply IH.
Qed.

Lemma cache_ok_set (c : type) (ns : Nodes) (tn : cache) :
  cache_ok tn -> ns = builtNodes (ConcreteType c) -> cache_ok (cache_set c ns tn).
Proof.
  intros Hok Hns t ns'. unfold cache_set. simpl.
  destruct (type_eqb c t) eqn:Ht.
  - apply type_eqb_eq in Ht as <-. by intros [= <-].
  - apply Hok.
Qed.

Lemma embeddedNodes_ok (ft : type) (tn : cache) :
  builds_ok ft -> cache_ok tn ->
  (embeddedNodes ft tn).1 = builtNodes (ConcreteType ft) /\
  cache_ok (embeddedNodes ft tn).2.
Proof.
  intros Hb Hok. unfold embeddedNodes.
  destruct (cache_get tn ft) as [ns|] eqn:H1.
  { apply Hok in H1. by subst. }
  destruct (cache_get tn (ConcreteType ft)) as [ns|] eqn:H2.
  { apply Hok in H2. rewrite ConcreteType_idem in H2. by subst. }
  destruct (Hb tn Hok) as [Hn Hc].
  destruct (buildNodes (ConcreteType ft) tn) as [ns tn']. simpl in *.
  split; [done|]. apply cache_ok_set; [done|]. by rewrite ConcreteType_idem.
Qed.

Lemma fieldNodes_ok (fs : list (string * bool * type)) :
  Forall (fun f => builds_ok f.2) fs ->
  forall i nodes tn tn',
    cache_ok tn -> cache_ok tn' ->
    (fieldNodes fs i nodes tn).1 = (fieldNodes fs i nodes tn').1 /\
    cache_ok (fieldNodes fs i nodes tn).2.
Proof.
  induction 1 as [|[[name an] ft] fs Hft _ IH]; intros i nodes tn tn' Hok Hok'; [done|].
  simpl in Hft. simpl. destruct an; [|by apply IH].
  destruct (embeddedNodes_ok ft tn Hft Hok) as [H1 H2].
  destruct (embeddedNodes_ok ft tn' Hft Hok') as [H1' H2'].
  destruct (embeddedNodes ft tn) as [e1 t1], (embeddedNodes ft tn') as [e1' t1'].
  simpl in *. subst. by apply IH.
Qed.

Lemma buildNodes_ok (t : type) : builds_ok t.
Proof.
  induction t as [| | |e IH|k e _ _|e _|n e _|fs IH] using type_ind_fields;
    try (intros tn Hok; by split).
  - exact IH.
  - intros tn Hok. change (ConcreteType (TStruct fs)) with (TStruct fs).
    unfold builtNodes. rewrite !buildNodes_struct.
    apply (fieldNodes_ok fs IH); [done|apply cache_ok_nil].
Qed.

(** [GetTypeNodes] on a cache of built node sets returns the node set
    built for the concrete type, and leaves such a cache. *)
Lemma GetTypeNodes_cache_ok (rt : type) (tn : cache) :
  cache_ok tn ->
  (GetTypeNodes rt tn).1 = builtNodes (ConcreteType rt) /\
  cache_ok (GetTypeNodes rt tn).2.
Proof.
  intros Hok. unfold GetTypeNodes.
  destruct (cache_get tn rt) as [ns|] eqn:H1.
  { apply Hok in H1. by subst. }
  destruct (cache_get tn (ConcreteType rt)) as [ns|] eqn:H2.
  { apply Hok in H2. rewrite ConcreteType_idem in H2. by subst. }
  destruct (buildNodes_ok rt tn Hok) as [Hn Hc].
  destruct (buildNodes (ConcreteType rt) tn) as [ns tn1]. simpl in Hn, Hc. subst ns.
  assert (Hok2 : cache_ok (cache_set (ConcreteType rt) (builtNodes (ConcreteType rt)) tn1)).
  { apply cache_ok_set; [done|]. by rewrite ConcreteType_idem. }
  destruct (cache_get (cache_set (ConcreteType rt) (builtNodes (ConcreteType rt)) tn1) rt)
    as [ns|] eqn:H3; simpl.
  - apply Hok2 in H3. subst. by split.
  - by split.
Qed.

Lemma Path_Next_cache_ok (p : Path) (k : key) (tn : cache) :
  cache_ok tn -> cache_ok (Path_Next p k tn).2.
Proof.
  intros Hok. unfold Path_Next, Path_NextNodes.
  destruct (GetTypeNodes_cache_ok (Path_Type p) tn Hok) as [_ Hc].
  destruct (GetTypeNodes (Path_Type p) tn) as [ns tn'].
  by destruct (Nodes_ForKey ns k).
Qed.

(** ** [Next] leaves existing paths alone *)

Lemma sliceNodes_app_l (st ext : nstore) (s : nslice) :
  (sl_arr s < List.length st)%nat -> sliceNodes (st ++ ext) s = sliceNodes st s.
Proof. intros H. unfold sliceNodes. by rewrite lookup_app_l. Qed.

(** The nodes of the path are read the same after [make]. *)
Lemma sliceNodes_makeNodes (st : nstore) (s : nslice) :
  sliceNodes (makeNodes st).2 s = sliceNodes st s.
Proof.
  unfold makeNodes, sliceNodes. simpl.
  destruct (decide (sl_arr s < List.length st)%nat) as [Hlt|Hge].
  - by rewrite lookup_app_l.
  - rewrite (lookup_ge_None_2 st) by lia. simpl.
    destruct (decide (sl_arr s = List.length st)) as [->|Hne].
    + rewrite lookup_app_r by lia. rewrite Nat.sub_diag. simpl. by rewrite take_nil.
    + rewrite lookup_ge_None_2; [done|]. rewrite length_app. simpl. lia.
Qed.

(** [append] shows the old nodes followed by the new ones, and writes
    to no array other than the one of its slice. *)
Lemma appendNodes_spec (growcap : nat -> nat -> nat) (s : nslice) (xs : list Node)
    (st : nstore) (c : nat) (es : list Node) :
  st !! sl_arr s = Some (mkNArray c es) -> (sl_len s <= List.length es)%nat ->
  let '(s', st') := appendNodes growcap s xs st in
  sliceNodes st' s' = sliceNodes st s ++ xs /\
  (sl_arr s <= sl_arr s')%nat /\
  (forall a, a <> sl_arr s -> (a < List.length st)%nat -> st' !! a = st !! a) /\
  (List.length st <= List.length st')%nat /\
  (exists c' es', st' !! sl_arr s' = Some (mkNArray c' es') /\
                  (sl_len s' <= List.length es')%nat).
Proof.
  intros Ha Hlen. unfold appendNodes. rewrite Ha. simpl.
  pose proof (lookup_lt_Some _ _ _ Ha) as Hlt.
  assert (Hold : sliceNodes st s = take (sl_len s) es).
  { unfold sliceNodes. by rewrite Ha. }
  assert (Htk : List.length (take (sl_len s) es) = sl_len s) by (by rewrite length_take_le).
  case_bool_decide as Hfit.
  - split; [|split; [|split; [|split]]].
    + rewrite Hold. unfold sliceNodes. simpl. rewrite list_lookup_insert_eq by done. simpl.
      rewrite app_assoc. rewrite take_app_le by (rewrite length_app; lia).
      apply take_ge. rewrite length_app. lia.
    + simpl. lia.
    + intros a Hne _. by rewrite list_lookup_insert_ne.
    + by rewrite length_insert.
    + simpl. eexists _, _. rewrite list_lookup_insert_eq by done. split; [done|].
      simpl. rewrite !length_app. lia.
  - split; [|split; [|split; [|split]]].
    + rewrite Hold. unfold sliceNodes. simpl.
      rewrite lookup_app_r by lia. rewrite Nat.sub_diag. simpl.
      apply take_ge. rewrite length_app. lia.
    + simpl. lia.
    + intros a _ Hlta. by rewrite lookup_app_l.
    + rewrite length_app. lia.
    + simpl. eexists _, _. rewrite lookup_app_r by lia. rewrite Nat.sub_diag.
      split; [done|]. simpl. rewrite length_app. lia.
Qed.

(** What [Path.Next] does to the store of node arrays. *)
Lemma Path_NextS_spec (growcap : nat -> nat -> nat) (p : PathS) (k : key)
    (st : nstore) (tn : cache) :
  let r := Path_NextS growcap p k st tn in
  let nextNodes := (Path_NextNodes (pathOfS st p) tn).1 in
  (forall a, (a < List.length st)%nat -> r.1.2 !! a = st !! a) /\
  (forall q, (sl_arr (ps_nodes q) < List.length st)%nat ->
             pathOfS r.1.2 q = pathOfS st q) /\
  match r.1.1 with
  | None => Nodes_ForKey nextNodes k = None /\ r.1.2 = st
  | Some p' =>
      ps_root p' = ps_root p /\
      exists n, Nodes_ForKey nextNodes k = Some n /\
                sliceNodes r.1.2 (ps_nodes p') = sliceNodes st (ps_nodes p) ++ [n]
  end.
Proof.
  intros r nextNodes.
  assert (Hframe : (forall a, (a < List.length st)%nat -> r.1.2 !! a = st !! a) ->
                   forall q, (sl_arr (ps_nodes q) < List.length st)%nat ->
                             pathOfS r.1.2 q = pathOfS st q).
  { intros Hf q Hq. unfold pathOfS, sliceNodes. by rewrite Hf. }
  unfold r, nextNodes, Path_NextS, Path_NextNodes in *. clear r nextNodes.
  destruct (GetTypeNodes (Path_Type (pathOfS st p)) tn) as [ns tn']. simpl.
  destruct (Nodes_ForKey ns k) as [n|]; simpl in *; [|by auto].
  assert (H0 : (st ++ [mkNArray 0 []]) !! List.length st = Some (mkNArray 0 [])).
  { rewrite lookup_app_r by lia. by rewrite Nat.sub_diag. }
  pose proof (appendNodes_spec growcap (mkNSlice (List.length st) 0)
                (sliceNodes (st ++ [mkNArray 0 []]) (ps_nodes p))
                (st ++ [mkNArray 0 []]) 0 [] H0 (Nat.le_refl 0)) as H1.
  destruct (appendNodes growcap (mkNSlice (List.length st) 0)
              (sliceNodes (st ++ [mkNArray 0 []]) (ps_nodes p)) (st ++ [mkNArray 0 []]))
    as [s1 st1].
  destruct H1 as (Hn1 & Ha1 & Hf1 & Hl1 & c1 & es1 & Hw1 & Hw1').
  pose proof (appendNodes_spec growcap s1 [n] st1 c1 es1 Hw1 Hw1') as H2.
  destruct (appendNodes growcap s1 [n] st1) as [s2 st2].
  destruct H2 as (Hn2 & Ha2 & Hf2 & Hl2 & _). simpl in *.
  rewrite length_app in Hl1. simpl in Hl1.
  assert (Hf : forall a, (a < List.length st)%nat -> st2 !! a = st !! a).
  { intros a Ha. rewrite Hf2 by lia. rewrite Hf1 by (rewrite ?length_app; simpl; lia).
    by rewrite lookup_app_l. }
  split; [done|]. split; [by apply Hframe|]. split; [done|].
  exists n. split; [done|]. rewrite Hn2, Hn1.
  pose proof (sliceNodes_makeNodes st (ps_nodes p)) as Hm. simpl in Hm. rewrite Hm.
  reflexivity.
Qed.

(** C8: [Path.Next], with the nodes of paths held in Go slices.  The
    call writes to no backing array that existed before it, so the path
    [p], and every other path, shows the same root type and nodes after
    the call as before.  It returns nil, leaving the store as it was,
    when the key names no node of the type at the end of [p]; otherwise
    it returns a path with the root type of [p] whose slice shows the
    nodes of [p] followed by the node the key resolved to. *)
Theorem Path_Next_immutable (growcap : nat -> nat -> nat) (p : PathS) (k : key)
    (st : nstore) (tn : cache) :
  let r := Path_NextS growcap p k st tn in
  let nextNodes := (Path_NextNodes (pathOfS st p) tn).1 in
  (forall a, (a < List.length st)%nat -> r.1.2 !! a = st !! a) /\
  (forall q, (sl_arr (ps_nodes q) < List.length st)%nat ->
             pathOfS r.1.2 q = pathOfS st q) /\
  match r.1.1 with
  | None => Nodes_ForKey nextNodes k = None /\ r.1.2 = st
  | Some p' =>
      ps_root p' = ps_root p /\
      exists n, Nodes_ForKey nextNodes k = Some n /\
                sliceNodes r.1.2 (ps_nodes p') = sliceNodes st (ps_nodes p) ++ [n]
  end.
Proof. exact (Path_NextS_spec growcap p k st tn). Qed.

Lemma Path_Next_immutable_witness :
  pathOfS (Path_NextS (fun _ n => n) pathSPoint (KStr "X") storeEmpty []).1.2 pathSPoint
  = pathOfS storeEmpty pathSPoint.
Proof.
  apply (proj1 (proj2 (Path_Next_immutable (fun _ n => n) pathSPoint (KStr "X")
                         storeEmpty []))).
  simpl. lia.
Defined.

(** [Path.Next] over the store does what [Path_Next] does on the paths
    the store shows. *)
Lemma Path_NextS_refines (growcap : nat -> nat -> nat) (p : PathS) (k : key)
    (st : nstore) (tn : cache) :
  let r := Path_NextS growcap p k st tn in
  pathOfS r.1.2 <$> r.1.1 = (Path_Next (pathOfS st p) k tn).1 /\
  r.2 = (Path_Next (pathOfS st p) k tn).2.
Proof.
  intros r. destruct (Path_NextS_spec growcap p k st tn) as (_ & _ & H).
  fold r in H. unfold Path_Next. unfold Path_NextNodes in *.
  assert (Hr2 : r.2 = (GetTypeNodes (Path_Type (pathOfS st p)) tn).2).
  { unfold r, Path_NextS.
    destruct (GetTypeNodes (Path_Type (pathOfS st p)) tn) as [ns tn'].
    destruct (Nodes_ForKey ns k); [|done].
    destruct (makeNodes st) as [s0 st0].
    destruct (appendNodes growcap s0 _ st0) as [s1 st1].
    by destruct (appendNodes growcap s1 _ st1). }
  destruct (GetTypeNodes (Path_Type (pathOfS st p)) tn) as [ns tn']. simpl in *.
  destruct (r.1.1) as [p'|].
  - destruct H as (Hroot & n & -> & Hn). split; [|done]. simpl.
    unfold pathOfS at 1. by rewrite Hroot, Hn.
  - destruct H as [-> _]. by split.
Qed.

(* ------------------------------------------------------------------ *)
(** * Further properties *)

(* ------------------------------------------------------------------ *)
(** ** Node sets *)

Lemma nodes_wf_empty : nodes_wf (mkNodes [] ∅).
Proof.
  split; [constructor|]. intros s n. simpl. rewrite lookup_empty. split; [done|].
  intros [H _]. by apply elem_of_nil in H.
Qed.

Lemma nodes_wf_Add (ns : Nodes) (n : Node) : nodes_wf ns -> nodes_wf (Add ns n).
Proof.
  intros [Hnd Hby]. unfold Add. destruct (ByKey ns !! KeyString n) eqn:Hl; [done|].
  split; simpl.
  - rewrite fmap_app. simpl. apply NoDup_app. split; [done|]. split.
    + intros s Hs Hs'. apply list_elem_of_singleton in Hs'. subst s.
      apply list_elem_of_fmap in Hs as (m & Heq & Hm).
      assert (ByKey ns !! KeyString n = Some m) as Hc by (apply Hby; done).
      congruence.
    + apply NoDup_singleton.
  - intros s m. destruct (decide (KeyString n = s)) as [<-|Hne].
    + rewrite lookup_insert_eq. split.
      * intros [= <-]. split; [|done]. apply elem_of_app. right. by left.
      * intros [Hm Heq]. apply elem_of_app in Hm as [Hm|Hm].
        -- assert (ByKey ns !! KeyString n = Some m) as Hc by (apply Hby; done).
           congruence.
        -- apply list_elem_of_singleton in Hm. by subst.
    + rewrite lookup_insert_ne by done. rewrite Hby. split.
      * intros [Hm Heq]. split; [|done]. apply elem_of_app. by left.
      * intros [Hm Heq]. split; [|done]. apply elem_of_app in Hm as [Hm|Hm]; [done|].
        apply list_elem_of_singleton in Hm. subst m. done.
Qed.

Lemma nodes_wf_foldl (l : list Node) (ns : Nodes) :
  nodes_wf ns -> nodes_wf (foldl Add ns l).
Proof.
  revert ns. induction l as [|n l IH]; intros ns Hok; simpl; [done|].
  apply IH. by apply nodes_wf_Add.
Qed.

Lemma nodes_wf_NewNodes (l : list Node) : nodes_wf (NewNodes l).
Proof. apply nodes_wf_foldl, nodes_wf_empty. Qed.

Lemma foldl_Add_lookup (l : list Node) (ns : Nodes) (s : string) :
  ByKey (foldl Add ns l) !! s =
    match ByKey ns !! s with
    | Some n => Some n
    | None => head (filter (fun n => KeyString n = s) l)
    end.
Proof.
  revert ns. induction l as [|m l IH]; intros ns; simpl.
  - by destruct (ByKey ns !! s).
  - rewrite IH. unfold Add at 1. destruct (ByKey ns !! KeyString m) eqn:Hm.
    + destruct (ByKey ns !! s) eqn:Hs; [done|].
      rewrite filter_cons. destruct (decide (KeyString m = s)) as [Heq|Hne]; [|done].
      congruence.
    + simpl. rewrite filter_cons. destruct (decide (KeyString m = s)) as [Heq|Hne].
      * subst s. rewrite lookup_insert_eq, Hm. done.
      * by rewrite lookup_insert_ne.
Qed.

Lemma foldl_Add_sublist (l : list Node) (ns : Nodes) :
  exists l', InOrder (foldl Add ns l) = InOrder ns ++ l' /\ sublist l' l.
Proof.
  revert ns. induction l as [|m l IH]; intros ns; simpl.
  - exists []. by rewrite app_nil_r.
  - destruct (IH (Add ns m)) as (l' & H1 & H2). rewrite H1. unfold Add.
    destruct (ByKey ns !! KeyString m).
    + exists l'. split; [done|]. by apply sublist_cons.
    + simpl. exists (m :: l'). rewrite <- app_assoc. split; [done|].
      by apply sublist_skip.
Qed.

(** X1: [NewNodes] keeps, for each key string, the first node of the
    initial list that has it, and its two views agree.  Looking a key
    string up in the map gives the first node of the list with that key
    string, and nothing when the list has none.  The ordered list keeps
    nodes of the initial list in their order, no two of them with the
    same key string, and a node is in the ordered list exactly when the
    map holds it under its key string. *)
Theorem NewNodes_first_wins (l : list Node) :
  (forall s, ByKey (NewNodes l) !! s = head (filter (fun n => KeyString n = s) l)) /\
  sublist (InOrder (NewNodes l)) l /\
  NoDup (KeyString <$> InOrder (NewNodes l)) /\
  (forall n, n ∈ InOrder (NewNodes l) <-> ByKey (NewNodes l) !! KeyString n = Some n).
Proof.
  destruct (nodes_wf_NewNodes l) as [Hnd Hby].
  split; [|split; [|split; [done|]]].
  - intros s. unfold NewNodes. rewrite foldl_Add_lookup. simpl. by rewrite lookup_empty.
  - destruct (foldl_Add_sublist l (mkNodes [] ∅)) as (l' & H1 & H2).
    unfold NewNodes. rewrite H1. done.
  - intros n. split.
    + intros Hn. by apply Hby.
    + intros Hn. by apply Hby in Hn as [Hn _].
Qed.

Lemma NewNodes_InOrder_id (ns : Nodes) : nodes_wf ns -> NewNodes (InOrder ns) = ns.
Proof.
  intros [Hnd Hby].
  destruct (foldl_Add_fresh (InOrder ns) (mkNodes [] ∅) Hnd) as (H1 & H2 & H3); [done|].
  unfold NewNodes. destruct ns as [io bk]. simpl in *.
  destruct (foldl Add (mkNodes [] ∅) io) as [io' bk'] eqn:Hf. simpl in *. subst io'.
  f_equal. apply map_eq. intros s.
  destruct (bk !! s) as [n|] eqn:Hs.
  - apply Hby in Hs as [Hn <-]. by apply H2.
  - rewrite H3; [done|]. intros n Hn Heq.
    assert (bk !! s = Some n) as Hc by (apply Hby; done). congruence.
Qed.

(** X2: cloning a node set built by [NewNodes] gives an equal node set:
    the same nodes in the same order and the same map. *)
Theorem Nodes_Clone_equal (l : list Node) : Nodes_Clone (NewNodes l) = NewNodes l.
Proof. apply NewNodes_InOrder_id, nodes_wf_NewNodes. Qed.

(** X3: every key string that [KeyStrings] lists for a node set built by
    [NewNodes] resolves: [ForKey] on that string returns a node of the
    set that has this key string and is not dynamic.  [KeyStrings]
    lists no string twice. *)
Theorem Nodes_KeyStrings_resolve (l : list Node) :
  NoDup (Nodes_KeyStrings (NewNodes l)) /\
  forall s, s ∈ Nodes_KeyStrings (NewNodes l) ->
    exists n, Nodes_ForKey (NewNodes l) (KStr s) = Some n /\
              n ∈ InOrder (NewNodes l) /\ KeyString n = s /\ Node_IsDynamic n = false.
Proof.
  destruct (nodes_wf_NewNodes l) as [Hnd Hby]. split.
  - unfold Nodes_KeyStrings.
    apply (sublist_NoDup _ (KeyString <$> InOrder (NewNodes l))); [exact Hnd|].
    apply fmap_sublist, sublist_filter.
  - intros s Hs. unfold Nodes_KeyStrings in Hs.
    apply list_elem_of_fmap in Hs as (n & -> & Hn).
    apply list_elem_of_filter in Hn as [Hdyn Hn].
    apply Is_true_true, negb_true_iff in Hdyn.
    exists n. split; [|done].
    assert (Hl : ByKey (NewNodes l) !! KeyString n = Some n) by (apply Hby; done).
    unfold Nodes_ForKey. simpl.
    destruct (InOrder (NewNodes l)) as [|n0 [|n1 rest]] eqn:Hio; [done| |done].
    apply list_elem_of_singleton in Hn. subst n0. by rewrite Hdyn.
Qed.

(* ------------------------------------------------------------------ *)
(** ** The cache of [GetTypeNodes] *)

Lemma cache_le_refl (tn : cache) : cache_le tn tn.
Proof. by intros t ns. Qed.

Lemma cache_le_trans (a b c : cache) : cache_le a b -> cache_le b c -> cache_le a c.
Proof. intros H1 H2 t ns H. by apply H2, H1. Qed.

Lemma cache_le_set (t : type) (ns : Nodes) (tn tn' : cache) :
  cache_get tn t = None -> cache_le tn tn' -> cache_le tn (cache_set t ns tn').
Proof.
  intros Hn Hle t' ns' H. unfold cache_set. simpl.
  destruct (type_eqb t t') eqn:Ht.
  - apply type_eqb_eq in Ht as <-. congruence.
  - by apply Hle.
Qed.

Lemma embeddedNodes_le (ft : type) (tn : cache) :
  builds_le ft -> cache_le tn (embeddedNodes ft tn).2.
Proof.
  intros Hb. unfold embeddedNodes.
  destruct (cache_get tn ft) as [ns|] eqn:H1; [apply cache_le_refl|].
  destruct (cache_get tn (ConcreteType ft)) as [ns|] eqn:H2; [apply cache_le_refl|].
  specialize (Hb tn). destruct (buildNodes (ConcreteType ft) tn) as [ns tn']. simpl in *.
  by apply cache_le_set.
Qed.

Lemma fieldNodes_le (fs : list (string * bool * type)) :
  Forall (fun f => builds_le f.2) fs ->
  forall i nodes tn, cache_le tn (fieldNodes fs i nodes tn).2.
Proof.
  induction 1 as [|[[name an] ft] fs Hft _ IH]; intros i nodes tn; [apply cache_le_refl|].
  simpl in Hft. simpl. destruct an; [|by apply IH].
  pose proof (embeddedNodes_le ft tn Hft) as Hle.
  destruct (embeddedNodes ft tn) as [e1 t1]. simpl in Hle.
  eapply cache_le_trans; [exact Hle|apply IH].
Qed.

Lemma buildNodes_le (t : type) : builds_le t.
Proof.
  induction t as [| | |e IH|k e _ _|e _|n e _|fs IH] using type_ind_fields;
    try (intros tn; apply cache_le_refl).
  - exact IH.
  - intros tn. change (ConcreteType (TStruct fs)) with (TStruct fs).
    rewrite buildNodes_struct. by apply fieldNodes_le.
Qed.

Lemma GetTypeNodes_le (rt : type) (tn : cache) : cache_le tn (GetTypeNodes rt tn).2.
Proof.
  unfold GetTypeNodes.
  destruct (cache_get tn rt) as [ns|] eqn:H1; [apply cache_le_refl|].
  destruct (cache_get tn (ConcreteType rt)) as [ns|] eqn:H2; [apply cache_le_refl|].
  pose proof (buildNodes_le rt tn) as Hle.
  destruct (buildNodes (ConcreteType rt) tn) as [ns tn1]. simpl in Hle.
  assert (cache_le tn (cache_set (ConcreteType rt) ns tn1)) by by apply cache_le_set.
  by destruct (cache_get (cache_set (ConcreteType rt) ns tn1) rt).
Qed.

Lemma GetTypeNodes_hit (rt : type) (tn : cache) (ns : Nodes) :
  cache_get tn rt = Some ns -> GetTypeNodes rt tn = (ns, tn).
Proof. intros H. unfold GetTypeNodes. by rewrite H. Qed.

Lemma GetTypeNodes_again (rt : type) (tn : cache) :
  GetTypeNodes rt (GetTypeNodes rt tn).2 = GetTypeNodes rt tn.
Proof.
  unfold GetTypeNodes at 2 3.
  destruct (cache_get tn rt) as [ns|] eqn:H1; cbn [snd].
  { by apply GetTypeNodes_hit. }
  destruct (cache_get tn (ConcreteType rt)) as [ns|] eqn:H2; cbn [snd].
  { unfold GetTypeNodes. by rewrite H1, H2. }
  destruct (buildNodes (ConcreteType rt) tn) as [ns tn1].
  destruct (cache_get (cache_set (ConcreteType rt) ns tn1) rt) as [ex|] eqn:H3; cbn [snd].
  { by apply GetTypeNodes_hit. }
  unfold GetTypeNodes. rewrite H3.
  assert (H4 : cache_get (cache_set (ConcreteType rt) ns tn1) (ConcreteType rt) = Some ns).
  { unfold cache_set. simpl. by rewrite type_eqb_refl. }
  by rewrite H4.
Qed.

(** X4: [GetTypeNodes] adds to the cache and replaces nothing in it.
    Calling it again for the same type, on the cache the first call
    left, returns the same node set and leaves that cache as it is.
    The node set registered for a type with [SetTypeNodes] is the one
    [GetTypeNodes] returns for that type, also after any number of
    calls of [GetTypeNodes] for any types.  (The types of the model
    have no methods; for a type with methods the package also stores a
    node set for the pointer type.) *)
Theorem GetTypeNodes_cache (rt : type) (tn : cache) :
  GetTypeNodes rt (GetTypeNodes rt tn).2 = GetTypeNodes rt tn /\
  (forall t ns, cache_get tn t = Some ns ->
     cache_get (GetTypeNodes rt tn).2 t = Some ns) /\
  forall (nodes : list Node) (others : list type),
    let tn' := foldl (fun c t => (GetTypeNodes t c).2) (SetTypeNodes rt nodes tn) others in
    GetTypeNodes rt tn' = (NewNodes nodes, tn').
Proof.
  split; [apply GetTypeNodes_again|]. split; [apply GetTypeNodes_le|].
  intros nodes others tn'. apply GetTypeNodes_hit.
  assert (Hle : cache_le (SetTypeNodes rt nodes tn) tn').
  { subst tn'. generalize (SetTypeNodes rt nodes tn). intros c.
    induction others as [|t others IH] in c |- *; simpl; [apply cache_le_refl|].
    eapply cache_le_trans; [apply GetTypeNodes_le|apply IH]. }
  apply Hle. unfold SetTypeNodes, cache_set. simpl. by rewrite type_eqb_refl.
Qed.

(** X5: on a cache that [GetTypeNodes] alone has filled, the node set
    of a type depends on its concrete type only: two types with the same
    concrete type (a type and the pointers to it) get the same node set,
    whatever the cache holds, and the cache stays of that kind. *)
Theorem GetTypeNodes_by_concrete_type (rt rt' : type) (tn tn' : cache) :
  cache_ok tn -> cache_ok tn' -> ConcreteType rt = ConcreteType rt' ->
  (GetTypeNodes rt tn).1 = (GetTypeNodes rt' tn').1 /\
  cache_ok (GetTypeNodes rt tn).2.
Proof.
  intros Hok Hok' Hc.
  destruct (GetTypeNodes_cache_ok rt tn Hok) as [H1 H2].
  destruct (GetTypeNodes_cache_ok rt' tn' Hok') as [H1' _].
  split; [|done]. by rewrite H1, H1', Hc.
Qed.

Lemma GetTypeNodes_by_concrete_type_witness :
  (GetTypeNodes (TPtr (TPtr point)) []).1
    = (GetTypeNodes point (GetTypeNodes (TMap TString point) []).2).1 /\
  cache_ok (GetTypeNodes (TPtr (TPtr point)) []).2.
Proof.
  apply (GetTypeNodes_by_concrete_type (TPtr (TPtr point)) point
           [] (GetTypeNodes (TMap TString point) []).2).
  - apply cache_ok_nil.
  - apply GetTypeNodes_cache_ok, cache_ok_nil.
  - reflexivity.
Defined.

(* ------------------------------------------------------------------ *)
(** ** The nodes of a struct *)

Lemma fieldNodes_named (fs : list (string * bool * type)) :
  Forall (fun f => f.1.2 = false) fs ->
  forall i nodes tn,
    fieldNodes fs i nodes tn = (foldl Add nodes (namedFieldNodes i fs), tn).
Proof.
  induction 1 as [|[[name an] ft] fs Han _ IH]; intros i nodes tn; [done|].
  simpl in Han. subst an. simpl. rewrite IH. unfold namedFieldNodes. simpl.
  rewrite Nat.add_0_r. do 2 f_equal. apply imap_ext. intros j f _. simpl.
  f_equal. lia.
Qed.

Lemma namedFieldNodes_KeyString (i : nat) (fs : list (string * bool * type)) :
  KeyString <$> namedFieldNodes i fs = (fun f => f.1.1) <$> fs.
Proof.
  unfold namedFieldNodes. apply list_eq. intros j.
  rewrite !list_lookup_fmap, list_lookup_imap. by destruct (fs !! j).
Qed.

Lemma namedFieldNodes_lookup (i j : nat) (fs : list (string * bool * type))
    (name : string) (an : bool) (t : type) :
  fs !! j = Some (name, an, t) ->
  namedFieldNodes i fs !! j = Some (fieldNode name t (i + j)).
Proof. intros H. unfold namedFieldNodes. rewrite list_lookup_imap, H. done. Qed.

(** The node set of a struct with named fields only, of distinct names. *)
Lemma builtNodes_named (fs : list (string * bool * type)) :
  Forall (fun f => f.1.2 = false) fs -> NoDup ((fun f => f.1.1) <$> fs) ->
  InOrder (builtNodes (TStruct fs)) = namedFieldNodes 0 fs /\
  (forall j name an t, fs !! j = Some (name, an, t) ->
     ByKey (builtNodes (TStruct fs)) !! name = Some (fieldNode name t j)) /\
  (forall s, s ∉ (fun f => f.1.1) <$> fs -> ByKey (builtNodes (TStruct fs)) !! s = None).
Proof.
  intros Han Hnd. unfold builtNodes. rewrite buildNodes_struct, fieldNodes_named by done.
  cbn [fst].
  destruct (foldl_Add_fresh (namedFieldNodes 0 fs) (NewNodes [])) as (H1 & H2 & H3).
  { by rewrite namedFieldNodes_KeyString. }
  { done. }
  split; [done|]. split.
  - intros j name an t Hj.
    apply (H2 (fieldNode name t j)). apply list_elem_of_lookup. exists j.
    by rewrite (namedFieldNodes_lookup 0 j fs name an t).
  - intros s Hs. rewrite H3; [done|]. intros n Hn Heq. apply Hs.
    rewrite <- namedFieldNodes_KeyString with (i := 0%nat).
    apply list_elem_of_fmap. by exists n.
Qed.

Lemma Nodes_ForKey_by_key (ns : Nodes) (k : key) :
  Forall (fun n => Node_IsDynamic n = false) (InOrder ns) ->
  Nodes_ForKey ns k = ByKey ns !! ToString k.
Proof.
  intros H. unfold Nodes_ForKey. destruct (InOrder ns) as [|n0 [|n1 rest]]; [done| |done].
  apply Forall_cons in H as [-> _]. done.
Qed.

Lemma namedFieldNodes_not_dynamic (i : nat) (fs : list (string * bool * type)) :
  Forall (fun n => Node_IsDynamic n = false) (namedFieldNodes i fs).
Proof.
  apply Forall_forall. intros n Hn. unfold namedFieldNodes in Hn.
  apply list_elem_of_lookup in Hn as (j & Hj). rewrite list_lookup_imap in Hj.
  destruct (fs !! j) as [f|]; [|done]. simpl in Hj. by injection Hj as <-.
Qed.

(** X6: for types without methods, and a path that ends at a struct
    (or a pointer to one) whose fields are all named, with distinct
    names, [Next] on a field name adds the node of that field: its key
    and key string are the name, its type the field's type, and it
    reads and writes the field at the field's index.  [Next] on a key
    whose string form is no field name returns nil.  The nodes of the
    struct are those of its fields in the order of declaration.  (A
    struct type with methods gets a node for each method as well, and
    [Next] resolves their names.) *)
Theorem Path_Next_struct_field (p : Path) (fs : list (string * bool * type)) (tn : cache) :
  cache_ok tn -> ConcreteType (Path_Type p) = TStruct fs ->
  Forall (fun f => f.1.2 = false) fs -> NoDup ((fun f => f.1.1) <$> fs) ->
  InOrder (Path_NextNodes p tn).1 = namedFieldNodes 0 fs /\
  (forall i name t k, fs !! i = Some (name, false, t) -> ToString k = name ->
     (Path_Next p k tn).1
     = Some (mkPath (root p)
               (nodes p ++ [mkNode name (KStr name) (Some fieldType) t false
                              (Some (GField i)) (Some (SField i))]))) /\
  (forall k, ToString k ∉ (fun f => f.1.1) <$> fs -> (Path_Next p k tn).1 = None).
Proof.
  intros Hok Hc Han Hnd.
  destruct (GetTypeNodes_cache_ok (Path_Type p) tn Hok) as [Hn _]. rewrite Hc in Hn.
  destruct (builtNodes_named fs Han Hnd) as (H1 & H2 & H3).
  assert (Hfk : forall k, Nodes_ForKey (builtNodes (TStruct fs)) k
                          = ByKey (builtNodes (TStruct fs)) !! ToString k).
  { intros k. apply Nodes_ForKey_by_key. rewrite H1. apply namedFieldNodes_not_dynamic. }
  split; [|split].
  - unfold Path_NextNodes. by rewrite Hn.
  - intros i name t k Hi Hk. apply (Path_Next_resolved _ _ _ _ _ Hn).
    rewrite Hfk, Hk. by apply (H2 i name false t).
  - intros k Hk. apply (Path_Next_unresolved _ _ _ _ Hn). rewrite Hfk. by apply H3.
Qed.

Lemma Path_Next_struct_field_witness :
  (Path_Next (NewPath (TPtr point)) (KStr "Y") []).1
    = Some (mkPath (TPtr point)
              [mkNode "Y" (KStr "Y") (Some fieldType) TInt false
                 (Some (GField 1)) (Some (SField 1))]) /\
  (Path_Next (NewPath (TPtr point)) (KStr "Z") []).1 = None.
Proof.
  destruct (Path_Next_struct_field (NewPath (TPtr point))
              [("X", false, TInt); ("Y", false, TInt)] [])
    as (_ & H2 & H3).
  - apply cache_ok_nil.
  - reflexivity.
  - repeat constructor.
  - apply (bool_decide_unpack _). vm_compute. exact I.
  - split.
    + exact (H2 1%nat "Y" TInt (KStr "Y") eq_refl eq_refl).
    + apply (H3 (KStr "Z")). apply (bool_decide_unpack _). vm_compute. exact I.
Defined.

Lemma fieldNodes_candidates (fs : list (string * bool * type)) :
  forall i nodes tn, cache_ok tn ->
    (fieldNodes fs i nodes tn).1 = foldl Add nodes (structCandidates i fs).
Proof.
  induction fs as [|[[name an] ft] fs IH]; intros i nodes tn Hok; [done|].
  simpl. destruct an.
  - destruct (embeddedNodes_ok ft tn (buildNodes_ok ft) Hok) as [H1 H2].
    destruct (embeddedNodes ft tn) as [e1 t1]. simpl in H1, H2. subst e1.
    rewrite foldl_app. by apply IH.
  - simpl. by apply IH.
Qed.

Lemma GetTypeNodes_candidates (rt : type) (fs : list (string * bool * type)) (tn : cache) :
  cache_ok tn -> ConcreteType rt = TStruct fs ->
  (GetTypeNodes rt tn).1 = NewNodes (structCandidates 0 fs).
Proof.
  intros Hok Hc. destruct (GetTypeNodes_cache_ok rt tn Hok) as [-> _].
  rewrite Hc. unfold builtNodes. rewrite buildNodes_struct.
  apply fieldNodes_candidates, cache_ok_nil.
Qed.

(** X7: for types without methods, the node set of a struct type
    (reached directly or through pointers), on a cache that
    [GetTypeNodes] alone has filled, is [NewNodes] of the nodes its
    fields offer in the order of declaration: a named field offers its
    own node, with the field's index, and an embedded field offers all
    the nodes of its type, unchanged.  So of two candidates with the
    same key string the earlier one is kept.  (For a struct type with
    methods the nodes of its methods come after these.) *)
Theorem GetTypeNodes_struct (rt : type) (fs : list (string * bool * type)) (tn : cache) :
  cache_ok tn -> ConcreteType rt = TStruct fs ->
  (GetTypeNodes rt tn).1 = NewNodes (structCandidates 0 fs).
Proof. exact (GetTypeNodes_candidates rt fs tn). Qed.

Lemma GetTypeNodes_struct_witness :
  (GetTypeNodes (TPtr person) []).1 = NewNodes [fieldNode "Name" name 0].
Proof.
  exact (GetTypeNodes_struct (TPtr person) [("Name", false, name)] [] cache_ok_nil eq_refl).
Defined.

Lemma foldl_Add_InOrder_head (l : list Node) (ns : Nodes) (n : Node) :
  head (InOrder ns) = Some n -> head (InOrder (foldl Add ns l)) = Some n.
Proof.
  intros H. destruct (foldl_Add_sublist l ns) as (l' & -> & _).
  destruct (InOrder ns); [done|]. done.
Qed.

Lemma builtNodes_struct_wf (gs : list (string * bool * type)) :
  nodes_wf (builtNodes (TStruct gs)).
Proof.
  unfold builtNodes. rewrite buildNodes_struct.
  rewrite (fieldNodes_candidates gs 0 (NewNodes []) [] cache_ok_nil).
  apply nodes_wf_NewNodes.
Qed.

(** X8: a node that a struct takes over from an embedded struct keeps
    the field index it has inside the embedded struct, and is applied to
    the value of the outer struct.  For a struct whose first field
    embeds a struct with named fields, [Next] on the name of the [i]-th
    field of the embedded struct resolves to that field's node, of the
    field's type; [Get] through it on a value of the outer struct
    returns the [i]-th field of the outer struct, with the type of that
    field. *)
Theorem inherited_node_reads_outer_field
    (nm : string) (ft : type) (rest gs : list (string * bool * type))
    (i : nat) (fname : string) (t : type) (tn : cache) :
  cache_ok tn -> ConcreteType ft = TStruct gs ->
  Forall (fun f => f.1.2 = false) gs -> NoDup ((fun f => f.1.1) <$> gs) ->
  gs !! i = Some (fname, false, t) ->
  let fs := (nm, true, ft) :: rest in
  let p := mkPath (TStruct fs) [fieldNode fname t i] in
  (Path_Next (NewPath (TStruct fs)) (KStr fname) tn).1 = Some p /\
  forall h xs v oname an otype,
    fs !! i = Some (oname, an, otype) -> xs !! i = Some v ->
    exists ro em,
      Path_Get p (Iface (TStruct fs) (VAgg xs)) h
      = Ok (Some (mkRV otype (Here v) ro em), None) /\
      (is_exported oname = true -> ro = false /\ em = false) /\
      (asciiStart oname = true -> is_exported oname = false -> ro = true /\ em = an).
Proof.
  intros Hok Hc Han Hnd Hi fs p. split.
  - apply (Path_Next_resolved (NewPath (TStruct fs)) (KStr fname) tn _ _
             (GetTypeNodes_candidates (TStruct fs) fs tn Hok eq_refl)).
    destruct (builtNodes_named gs Han Hnd) as (H1 & H2 & _).
    assert (Hcand : NewNodes (structCandidates 0 fs)
                    = foldl Add (builtNodes (TStruct gs)) (structCandidates 1 rest)).
    { unfold NewNodes. simpl. rewrite Hc, foldl_app. f_equal.
      apply (NewNodes_InOrder_id _ (builtNodes_struct_wf gs)). }
    rewrite Hcand.
    assert (Hl : ByKey (foldl Add (builtNodes (TStruct gs)) (structCandidates 1 rest))
                   !! fname = Some (fieldNode fname t i)).
    { rewrite foldl_Add_lookup. by rewrite (H2 i fname false t Hi). }
    assert (Hh : head (InOrder (foldl Add (builtNodes (TStruct gs)) (structCandidates 1 rest)))
                 = head (namedFieldNodes 0 gs)).
    { destruct gs as [|g gs']; [done|].
      apply foldl_Add_InOrder_head. by rewrite H1. }
    unfold Nodes_ForKey.
    destruct (InOrder (foldl Add (builtNodes (TStruct gs)) (structCandidates 1 rest)))
      as [|n0 [|n1 l']] eqn:Hio; [done| |done].
    destruct gs as [|[[g1 g2] g3] gs']; [done|]. simpl in Hh. injection Hh as ->. done.
  - intros h xs v oname an otype Ho Hv. subst p.
    rewrite (Path_Get_one _ _ (GField i)) by done.
    cbn [callGet Reflect]. unfold getFieldGet. cbn [Concrete concreteLoop rtyp obind valid of_opt].
    unfold Field. cbn [rtyp]. rewrite Ho. unfold component. cbn [rsrc rro rembed].
    rewrite Hv. cbn [of_opt obind andb orb negb].
    eexists _, _. split; [reflexivity|].
    split; intros H; [|intros H']; [rewrite H|rewrite H']; done.
Qed.

Lemma inherited_node_reads_outer_field_witness :
  (Path_Next (NewPath labelled) (KStr "Y") []).1
    = Some (mkPath labelled [fieldNode "Y" TInt 1]) /\
  exists ro em,
    Path_Get (mkPath labelled [fieldNode "Y" TInt 1])
             (Iface labelled (VAgg [VAgg [VInt 1; VInt 2]; VStr "z"])) []
    = Ok (Some (mkRV TString (Here (VStr "z")) ro em), None) /\
    (is_exported "Z" = true -> ro = false /\ em = false) /\
    (asciiStart "Z" = true -> is_exported "Z" = false -> ro = true /\ em = false).
Proof.
  destruct (inherited_node_reads_outer_field "point" point [("Z", false, TString)]
              [("X", false, TInt); ("Y", false, TInt)] 1 "Y" TInt [])
    as [H1 H2].
  - apply cache_ok_nil.
  - reflexivity.
  - repeat constructor.
  - apply (bool_decide_unpack _). vm_compute. exact I.
  - reflexivity.
  - split; [exact H1|].
    exact (H2 [] [VAgg [VInt 1; VInt 2]; VStr "z"] (VStr "z") "Z" false TString
              eq_refl eq_refl).
Defined.

(* ------------------------------------------------------------------ *)
(** ** The nodes of values *)

Lemma filter_all {A} (P : A -> Prop) `{!forall x, Decision (P x)} (l : list A) :
  Forall P l -> filter P l = l.
Proof.
  induction 1 as [|x l Hx _ IH]; [done|]. rewrite filter_cons_True by done. by f_equal.
Qed.

Lemma PointerMaybe_Concrete (h : heap) (v c : Value) :
  Concrete h v = Ok c -> exists p, PointerMaybe h v = Ok p.
Proof.
  destruct v as [rv|]; [|by exists None]. unfold Concrete, PointerMaybe, IsPointing.
  destruct rv as [t s ro em]. cbn [KindV rtyp]. destruct t; cbn [kindOf]; try by eexists.
  cbn [concreteLoop]. destruct (Elem h (mkRV (TPtr t) s ro em)) as [e|]; [|done].
  intros _. cbn [obind]. destruct (match KindV e with reflect.Pointer => true | _ => false end);
    by eexists.
Qed.

(** X9: the nodes of a slice value are its indices.  For a value that
    is a slice of [n] elements, passed directly or reached through
    pointers, [GetValueNodes] returns one node for each index below
    [n], under the decimal form of the index, in order, and leaves the
    cache alone; [ForKey] on an index below [n] returns that index's
    node and on the index [n] it returns nil.  A nil slice has no
    element. *)
Theorem GetValueNodes_slice (v : Value) (h : heap) (tn : cache)
    (c : rvalue) (e : type) (hdr : option (loc * nat)) :
  Concrete h v = Ok (Some c) -> rtyp c = TSlice e -> rload h c = Ok (VSlice hdr) ->
  let n := match hdr with Some (_, n) => n | None => 0%nat end in
  exists ns,
    GetValueNodes v h tn = Ok (ns, tn) /\
    Nodes_KeyStrings ns = (fun i => Itoa (Z.of_nat i)) <$> seq 0 n /\
    (forall i, (i < n)%nat ->
       Nodes_ForKey ns (KInt (Z.of_nat i))
       = Some (mkNode (Itoa (Z.of_nat i)) (KInt (Z.of_nat i)) (Some indexType) e false
                 (Some GIndex) (Some SIndex))) /\
    Nodes_ForKey ns (KInt (Z.of_nat n)) = None.
Proof.
  intros Hc Ht Hl n. destruct (PointerMaybe_Concrete h v _ Hc) as [p Hp].
  exists (foldl Add (NewNodes []) (arrayNode e <$> seq 0 n)).
  destruct (arrayNodes_spec e n) as (H1 & H2 & H3).
  split; [|split; [|split]].
  - unfold GetValueNodes. rewrite Hc, Hp. cbn [obind]. rewrite Ht.
    unfold Len. rewrite Ht, Hl. cbn [obind].
    destruct hdr as [[b n0]|]; cbn [obind]; subst n; by rewrite ?Nat2Z.id.
  - unfold Nodes_KeyStrings. rewrite H1.
    rewrite filter_all.
    + by rewrite <- list_fmap_compose.
    + apply Forall_fmap, Forall_forall. by intros i _.
  - intros i Hi. rewrite arrayNodes_ForKey. by apply H2.
  - rewrite arrayNodes_ForKey. apply H3. intros i Hi Heq. simpl in Heq.
    apply Itoa_of_nat_inj in Heq. lia.
Qed.

(** [GetValueNodes([]int{3})], the slice passed directly. *)
Lemma GetValueNodes_slice_witness :
  exists ns,
    GetValueNodes (Reflect (Iface (TSlice TInt) (VSlice (Some (0%nat, 1%nat)))))
                  [OCell (VAgg [VInt 3])] [] = Ok (ns, []) /\
    Nodes_KeyStrings ns = ["0"].
Proof.
  destruct (GetValueNodes_slice
              (Reflect (Iface (TSlice TInt) (VSlice (Some (0%nat, 1%nat)))))
              [OCell (VAgg [VInt 3])] []
              (RV (TSlice TInt) (Here (VSlice (Some (0%nat, 1%nat)))) false)
              TInt (Some (0%nat, 1%nat)) eq_refl eq_refl eq_refl)
    as (ns & H1 & H2 & _).
  exists ns. split; [exact H1|exact H2].
Defined.

Lemma ToString_inj_typed (k k' : key) (t : type) :
  keyType k = Some t -> keyType k' = Some t -> ToString k = ToString k' -> k = k'.
Proof.
  unfold keyType. intros H1 H2 H.
  destruct k as [|b|z|s], k' as [|b'|z'|s']; simpl in H1, H2; try congruence.
  - destruct b, b'; done.
  - unfold ToString, Itoa in H. by apply (inj pretty) in H as ->.
  - simpl in H. by subst.
Qed.

(** X10: the nodes of a map value are its keys.  For a value that is a
    map, directly or through pointers, [GetValueNodes] returns one node
    for each key the map holds and leaves the cache alone; [ForKey] on a
    key of the map's key type returns the node of that key (of the
    element type, with the map's read and write functions, and to be
    written back) when the map holds the key, and nil when it does
    not. *)
Theorem GetValueNodes_map (v : Value) (h : heap) (tn : cache)
    (kt e : type) (m : loc) (g : gmap key val) :
  holdsMap h v (TMap kt e) m -> map_at h m = Some g ->
  (forall k x, g !! k = Some x -> keyType k = Some kt) ->
  exists ns,
    GetValueNodes v h tn = Ok (ns, tn) /\
    List.length (InOrder ns) = size g /\
    forall k, keyType k = Some kt ->
      Nodes_ForKey ns k =
        match g !! k with
        | Some _ => Some (mkNode (ToString k) k (Some kt) e true (Some GMap) (Some SMap))
        | None => None
        end.
Proof.
  intros (s & Hc & Hl) Hm Hty. destruct (PointerMaybe_Concrete h v _ Hc) as [p Hp].
  set (ks := (map_to_list g).*1).
  assert (Hks : forall k, k ∈ ks <-> is_Some (g !! k)).
  { intros k. unfold ks. rewrite list_elem_of_fmap. split.
    - intros ([k' x] & -> & Hx). apply elem_of_map_to_list in Hx. by exists x.
    - intros [x Hx]. exists (k, x). split; [done|]. by apply elem_of_map_to_list. }
  assert (Hkty : forall k, k ∈ ks -> keyType k = Some kt).
  { intros k Hk. apply Hks in Hk as [x Hx]. by apply (Hty k x). }
  assert (Hnd : NoDup (KeyString <$> (entryNode kt e <$> ks))).
  { rewrite <- list_fmap_compose. apply NoDup_fmap_2_strong; [|apply NoDup_fst_map_to_list].
    intros k k' Hk Hk' Heq. simpl in Heq.
    apply (ToString_inj_typed k k' kt); auto. }
  destruct (foldl_Add_fresh (entryNode kt e <$> ks) (NewNodes []) Hnd) as (H1 & H2 & H3);
    [done|].
  exists (foldl Add (NewNodes []) (entryNode kt e <$> ks)).
  split; [|split].
  - unfold GetValueNodes. rewrite Hc, Hp. cbn [obind rtyp]. rewrite Hl. cbn [obind].
    rewrite Hm. done.
  - rewrite H1. simpl. rewrite length_fmap. unfold ks. rewrite length_fmap.
    apply length_map_to_list.
  - intros k Hk.
    assert (Hfk : Nodes_ForKey (foldl Add (NewNodes []) (entryNode kt e <$> ks)) k
                  = ByKey (foldl Add (NewNodes []) (entryNode kt e <$> ks)) !! ToString k).
    { apply Nodes_ForKey_by_key. rewrite H1. simpl. apply Forall_fmap, Forall_forall.
      intros k' Hk'. apply Hkty in Hk'. simpl. by destruct k'. }
    rewrite Hfk. destruct (g !! k) as [x|] eqn:Hg.
    + apply (H2 (entryNode kt e k)). apply list_elem_of_fmap. exists k.
      split; [done|]. apply Hks. by exists x.
    + rewrite H3; [done|]. intros n Hn Heq.
      apply list_elem_of_fmap in Hn as (k' & -> & Hk'). simpl in Heq.
      apply (ToString_inj_typed k' k kt) in Heq; [|by apply Hkty|done]. subst k'.
      apply Hks in Hk' as [x Hx]. congruence.
Qed.

Lemma GetValueNodes_map_witness :
  exists ns,
    GetValueNodes (Reflect (ptr0 (TMap TString TInt))) heapMapA [] = Ok (ns, []) /\
    Nodes_ForKey ns (KStr "A") = Some (entryNode TString TInt (KStr "A")) /\
    Nodes_ForKey ns (KStr "B") = None.
Proof.
  destruct (GetValueNodes_map (Reflect (ptr0 (TMap TString TInt))) heapMapA []
              TString TInt 1%nat {[ KStr "A" := VInt 6 ]})
    as (ns & H1 & _ & H3).
  - apply holdsMap_ptrTo. reflexivity.
  - reflexivity.
  - intros k x Hk. apply lookup_singleton_Some in Hk as [<- _]. reflexivity.
  - exists ns. split; [exact H1|]. split.
    + exact (H3 (KStr "A") eq_refl).
    + exact (H3 (KStr "B") eq_refl).
Defined.

(* ------------------------------------------------------------------ *)
(** ** The value utilities *)





Lemma rload_cell (h : heap) (t : type) (l : loc) (ro : bool) (v : val) :
  cell_at h l = Some v -> rload h (RV t (At l []) ro) = Ok v.
Proof. intros H. unfold rload. cbn [rsrc]. rewrite H. done. Qed.

Lemma rstore_cell (h : heap) (l : loc) (v x : val) :
  cell_at h l = Some v -> rstore h l [] x = Ok (<[l := OCell x]> h).
Proof. intros H. unfold rstore. rewrite H. done. Qed.


Lemma map_at_agree (h h' : heap) (l : loc) : h' !! l = h !! l -> map_at h' l = map_at h l.
Proof. unfold map_at. by intros ->. Qed.








Lemma insert_alloc (h : heap) (a b : obj) :
  <[List.length h := b]> (h ++ [a]) = h ++ [b].
Proof.
  rewrite insert_app_r_alt by lia. by rewrite Nat.sub_diag.
Qed.

(** X14: [PointerTo] copies.  For a valid value that was not reached
    through an unexported field, it returns a non-nil pointer to a new
    cell that holds what the value holds, and changes nothing else: the
    heap it leaves is the old heap with that cell at the end, and the
    pointer's element is settable.  On the zero Value it panics. *)
Theorem PointerTo_copies (rv : rvalue) (h : heap) (x : val) :
  rload h rv = Ok x -> rro rv = false ->
  let ptr := RV (TPtr (rtyp rv)) (Here (VPtr (Some (List.length h)))) false in
  let el := RV (rtyp rv) (At (List.length h) []) false in
  PointerTo (Some rv) h = Ok (Some ptr, h ++ [OCell x]) /\
  Elem (h ++ [OCell x]) ptr = Ok (Some el) /\
  CanSet el = true /\ rload (h ++ [OCell x]) el = Ok x /\
  PointerTo None h = Panic.
Proof.
  intros Hx Hro ptr el. split; [|split; [|split; [|split]]]; try done.
  - unfold PointerTo. cbn [valid of_opt obind]. unfold New, alloc. unfold Elem.
    cbn [rtyp rload rsrc obind rro rembed valid of_opt]. unfold SetV. cbn [rsrc rro rembed rtyp negb andb].
    rewrite Hro, type_eqb_refl. cbn [negb andb].
    rewrite (rload_kept h (h ++ [OCell (zero (rtyp rv))]) rv x (cells_kept_app _ _) Hx).
    cbn [obind]. rewrite (rstore_cell _ _ (zero (rtyp rv))) by apply cell_at_alloc.
    by rewrite insert_alloc.
  - apply rload_cell, cell_at_alloc.
Qed.

Lemma PointerTo_copies_witness :
  PointerTo (Some (RV TInt (Here (VInt 5)) false)) []
  = Ok (Some (RV (TPtr TInt) (Here (VPtr (Some 0%nat))) false), [OCell (VInt 5)]).
Proof.
  exact (proj1 (PointerTo_copies (RV TInt (Here (VInt 5)) false) [] (VInt 5)
                  eq_refl eq_refl)).
Defined.

(* ------------------------------------------------------------------ *)
(** ** Fields of structs *)

Lemma getFieldGet_concrete (i : nat) (n : Node) (rv : Value) (h : heap) (c : rvalue) :
  Concrete h rv = Ok (Some c) -> getFieldGet i n rv h = Field h c i.
Proof. intros Hc. unfold getFieldGet. by rewrite Hc. Qed.

Lemma getFieldSet_concrete (i : nat) (n : Node) (rv val : Value) (h : heap) (c : rvalue) :
  Concrete h rv = Ok (Some c) ->
  getFieldSet i n rv val h =
    (f <- Field h c i ;;
     f <- valid f ;;
     if negb (CanSet f) then Ok (Some ErrSetNotSupported, h)
     else h1 <- SetV f val h ;; Ok (None, h1)).
Proof. intros Hc. unfold getFieldSet. by rewrite Hc. Qed.

Lemma Field_cell (h : heap) (c : loc) (fs : list (string * bool * type)) (i : nat)
    (name : string) (an : bool) (ft : type) :
  fs !! i = Some (name, an, ft) ->
  Field h (RV (TStruct fs) (At c []) false) i
  = Ok (Some (mkRV ft (At c [i]) (negb (is_exported name))
                (negb (is_exported name) && an))).
Proof. intros Hf. unfold Field, component. cbn [rtyp rsrc rro rembed]. by rewrite Hf. Qed.

Lemma Field_value (h : heap) (fs : list (string * bool * type)) (i : nat)
    (name : string) (an : bool) (ft : type) (xs : list val) (x : val) :
  fs !! i = Some (name, an, ft) -> xs !! i = Some x ->
  Field h (RV (TStruct fs) (Here (VAgg xs)) false) i
  = Ok (Some (mkRV ft (Here x) (negb (is_exported name))
                (negb (is_exported name) && an))).
Proof. intros Hf Hx. unfold Field, component. cbn [rtyp rsrc rro rembed]. by rewrite Hf, Hx. Qed.

(** X15: writing a field through a pointer to a struct, and reading it
    back.  For the node of an exported field and a root that points to
    a struct value, [Set] succeeds and replaces that field of the struct
    in place, leaving the other fields and every other object as they
    were; [Get] on the same path then returns the field as a settable
    value that holds what was written. *)
Theorem field_Set_Get (rt : type) (fs : list (string * bool * type)) (i : nat)
    (fname : string) (an : bool) (ft : type) (h : heap) (l : loc) (xs : list val) (v : val) :
  fs !! i = Some (fname, an, ft) -> is_exported fname = true ->
  cell_at h l = Some (VAgg xs) -> (i < List.length xs)%nat ->
  let p := mkPath rt [fieldNode fname ft i] in
  let r := ptrTo l (TStruct fs) in
  let h' := <[l := OCell (VAgg (<[i := v]> xs))]> h in
  Path_Set p r (Iface ft v) h = Ok (None, h') /\
  Path_Get p r h' = Ok (Some (RV ft (At l [i]) false), None) /\
  rload h' (RV ft (At l [i]) false) = Ok v /\
  CanSet (RV ft (At l [i]) false) = true.
Proof.
  intros Hf He Hc Hi p r h'.
  assert (Hcon : forall h0, Concrete h0 (Reflect r)
                            = Ok (Some (RV (TStruct fs) (At l []) false))).
  { intros h0. by apply Concrete_ptrTo. }
  split; [|split; [|split]]; [| | |done].
  - unfold p. rewrite (Path_Set_one _ _ (SField i)) by done.
    cbn [callSet]. rewrite (getFieldSet_concrete _ _ _ _ _ _ (Hcon h)).
    pose proof (getFieldSet_cell i (fieldNode fname ft i) h l fs fname an ft xs v Hc Hf He Hi)
      as Hs.
    rewrite (getFieldSet_concrete _ _ _ _ _ (RV (TStruct fs) (At l []) false)) in Hs by done.
    change (Reflect (Iface ft v)) with (Some (RV ft (Here v) false)).
    by rewrite Hs.
  - unfold p. rewrite (Path_Get_one _ _ (GField i)) by done.
    cbn [callGet]. rewrite (getFieldGet_concrete _ _ _ _ _ (Hcon h')).
    rewrite (Field_cell h' l fs i fname an ft Hf), He. done.
  - unfold rload. cbn [rsrc]. unfold h'. rewrite cell_at_insert_eq by by apply cell_at_lt in Hc.
    cbn [mbind option_bind load_sel]. rewrite list_lookup_insert_eq by done. done.
Qed.

Lemma field_Set_Get_witness :
  Path_Set (mkPath (TPtr point) [fieldNode "X" TInt 0]) (ptr0 point) (Iface TInt (VInt 6))
           heapPoint
    = Ok (None, [OCell (VAgg [VInt 6; VInt 0])]) /\
  Path_Get (mkPath (TPtr point) [fieldNode "X" TInt 0]) (ptr0 point)
           [OCell (VAgg [VInt 6; VInt 0])]
    = Ok (Some (RV TInt (At 0%nat [0%nat]) false), None).
Proof.
  destruct (field_Set_Get (TPtr point) [("X", false, TInt); ("Y", false, TInt)] 0 "X"
              false TInt heapPoint 0%nat [VInt 56; VInt 0] (VInt 6)
              eq_refl eq_refl eq_refl) as (H1 & H2 & _).
  - simpl. lia.
  - split; [exact H1|exact H2].
Defined.

(** X16: where [Set] through a field is refused.  When the field is
    unexported (its name starts with an ASCII byte that is no upper-case
    letter), or when the struct was passed by value and not through a
    pointer, [Set] returns [ErrSetNotSupported] and changes nothing;
    [Get] on the same path still returns the field, marked read-only
    when the field is unexported and not when its name starts with an
    upper-case ASCII letter. *)
Theorem field_Set_refused (rt : type) (fs : list (string * bool * type)) (i : nat)
    (fname : string) (an : bool) (ft : type) (h : heap) (val : any) :
  fs !! i = Some (fname, an, ft) ->
  let p := mkPath rt [fieldNode fname ft i] in
  (forall l, asciiStart fname = true -> is_exported fname = false ->
     Path_Set p (ptrTo l (TStruct fs)) val h = Ok (Some ErrSetNotSupported, h) /\
     Path_Get p (ptrTo l (TStruct fs)) h = Ok (Some (mkRV ft (At l [i]) true an), None)) /\
  (forall xs x, xs !! i = Some x ->
     Path_Set p (Iface (TStruct fs) (VAgg xs)) val h = Ok (Some ErrSetNotSupported, h) /\
     exists ro em,
       Path_Get p (Iface (TStruct fs) (VAgg xs)) h
       = Ok (Some (mkRV ft (Here x) ro em), None) /\
       (is_exported fname = true -> ro = false /\ em = false) /\
       (asciiStart fname = true -> is_exported fname = false -> ro = true /\ em = an)).
Proof.
  intros Hf p. split.
  - intros l _ He.
    assert (Hcon : Concrete h (Reflect (ptrTo l (TStruct fs)))
                   = Ok (Some (RV (TStruct fs) (At l []) false))).
    { by apply Concrete_ptrTo. }
    split.
    + unfold p. rewrite (Path_Set_one _ _ (SField i)) by done.
      cbn [callSet]. rewrite (getFieldSet_concrete _ _ _ _ _ _ Hcon).
      rewrite (Field_cell h l fs i fname an ft Hf), He. done.
    + unfold p. rewrite (Path_Get_one _ _ (GField i)) by done.
      cbn [callGet]. rewrite (getFieldGet_concrete _ _ _ _ _ Hcon).
      rewrite (Field_cell h l fs i fname an ft Hf), He. done.
  - intros xs x Hx.
    assert (Hcon : Concrete h (Reflect (Iface (TStruct fs) (VAgg xs)))
                   = Ok (Some (RV (TStruct fs) (Here (VAgg xs)) false))) by done.
    split.
    + unfold p. rewrite (Path_Set_one _ _ (SField i)) by done.
      cbn [callSet]. rewrite (getFieldSet_concrete _ _ _ _ _ _ Hcon).
      rewrite (Field_value h fs i fname an ft xs x Hf Hx). done.
    + unfold p. rewrite (Path_Get_one _ _ (GField i)) by done.
      cbn [callGet]. rewrite (getFieldGet_concrete _ _ _ _ _ Hcon).
      rewrite (Field_value h fs i fname an ft xs x Hf Hx).
      eexists _, _. split; [reflexivity|].
      split; intros H; [|intros H']; [rewrite H|rewrite H']; done.
Qed.

Lemma field_Set_refused_witness :
  let hidden := TStruct [("x", false, TInt)] in
  let p := mkPath (TPtr hidden) [fieldNode "x" TInt 0] in
  let h := [OCell (VAgg [VInt 5])] in
  (Path_Set p (ptr0 hidden) (Iface TInt (VInt 6)) h = Ok (Some ErrSetNotSupported, h) /\
   Path_Get p (ptr0 hidden) h = Ok (Some (RV TInt (At 0%nat [0%nat]) true), None)) /\
  Path_Set p (Iface hidden (VAgg [VInt 5])) (Iface TInt (VInt 6)) h
    = Ok (Some ErrSetNotSupported, h).
Proof.
  pose proof (field_Set_refused (TPtr (TStruct [("x", false, TInt)])) [("x", false, TInt)]
                0 "x" false TInt [OCell (VAgg [VInt 5])] (Iface TInt (VInt 6)) eq_refl)
    as [H1 H2].
  split.
  - exact (H1 0%nat eq_refl eq_refl).
  - exact (proj1 (H2 [VInt 5] (VInt 5) eq_refl)).
Defined.

(* ------------------------------------------------------------------ *)
(** ** Nil on the way *)

Lemma callGet_nil (g : NodeGet) (n : Node) (rv : Value) (h : heap) :
  Concrete h rv = Ok None -> callGet g n rv h = Panic.
Proof.
  intros Hc. destruct g; cbn [callGet]; unfold indexGet, mapGet, getFieldGet;
    by rewrite Hc.
Qed.

(** X17: [Get] panics on a nil pointer.  When the value reached so far
    is a nil pointer, or a pointer that leads to one, or the root given
    is the nil interface, and the path has a further node that can be
    read, [Get] does not return [ErrGetInvalid]: the node's read
    function calls a method on the zero Value, which panics. *)
Theorem Path_Get_nil_panics (p : Path) (r : any) (h : heap)
    (pre post : list Node) (node : Node) (g : NodeGet) (rv : Value) :
  nodes p = pre ++ node :: post ->
  getLoop pre (Reflect r) h = Ok (rv, None) ->
  Get node = Some g -> Concrete h rv = Ok None ->
  Path_Get p r h = Panic.
Proof.
  intros Hn Hpre Hg Hc. rewrite Path_Get_nonempty by (rewrite Hn; by destruct pre).
  rewrite Hn, getLoop_app, Hpre. cbn [obind snd fst getLoop]. rewrite Hg.
  by rewrite (callGet_nil g node rv h Hc).
Qed.

Lemma Path_Get_nil_panics_witness :
  Path_Get (mkPath (TPtr point) [fieldNode "X" TInt 0]) (Iface (TPtr point) (VPtr None)) []
  = Panic.
Proof.
  exact (Path_Get_nil_panics (mkPath (TPtr point) [fieldNode "X" TInt 0])
           (Iface (TPtr point) (VPtr None)) [] [] [] (fieldNode "X" TInt 0) (GField 0)
           (Some (RV (TPtr point) (Here (VPtr None)) false))
           eq_refl eq_refl eq_refl eq_refl).
Defined.

(* ------------------------------------------------------------------ *)
(** ** Entries of maps *)

Lemma reflectKey_typed (k : key) (kt : type) :
  keyType k = Some kt ->
  exists x, reflectKey k = Some (RV kt (Here x) false) /\ val_key x = Some k.
Proof.
  unfold keyType. destruct k as [|b|z|s]; simpl; [done|..]; intros [= <-]; by eexists.
Qed.

Lemma MapIndex_typed (h : heap) (c : rvalue) (kt e : type) (k : key) (mv : val) :
  rtyp c = TMap kt e -> rro c = false -> keyType k = Some kt ->
  rload h c = Ok mv ->
  MapIndex h c (reflectKey k) =
    match mv with
    | VMap None => Ok None
    | VMap (Some l) =>
        g <- of_opt (map_at h l) ;;
        match g !! k with
        | Some x => Ok (Some (RV e (Here x) false))
        | None => Ok None
        end
    | _ => Panic
    end.
Proof.
  intros Ht Hro Hk Hl. destruct (reflectKey_typed k kt Hk) as (x & -> & Hx).
  unfold MapIndex. rewrite Ht. cbn [rtyp]. rewrite type_eqb_refl.
  cbn [rload rsrc obind]. rewrite Hx. cbn [of_opt obind]. rewrite Hl. cbn [obind].
  rewrite Hro. done.
Qed.

Lemma SetMapIndex_typed (h : heap) (c : rvalue) (kt e : type) (k : key) (mv : val)
    (x : Value) :
  rtyp c = TMap kt e -> rro c = false -> keyType k = Some kt ->
  rload h c = Ok mv ->
  SetMapIndex c (reflectKey k) x h =
    match x with
    | None =>
        match mv with
        | VMap None => Ok h
        | VMap (Some l) =>
            g <- of_opt (map_at h l) ;; Ok (<[l := OMap (delete k g)]> h)
        | _ => Panic
        end
    | Some xv =>
        if negb (rro xv) && type_eqb (rtyp xv) e then
          v <- rload h xv ;;
          match mv with
          | VMap (Some l) =>
              g <- of_opt (map_at h l) ;; Ok (<[l := OMap (<[k := v]> g)]> h)
          | _ => Panic
          end
        else Panic
    end.
Proof.
  intros Ht Hro Hk Hl. destruct (reflectKey_typed k kt Hk) as (kx & -> & Hx).
  unfold SetMapIndex. rewrite Ht, Hro. cbn [rtyp rro rembed negb andb]. rewrite type_eqb_refl.
  cbn [rload rsrc obind]. rewrite Hx. cbn [of_opt obind]. rewrite Hl. cbn [obind]. done.
Qed.

(** X18: reading an entry of a map through a path.  For a root that is
    a map, directly or through pointers, and the node of a key of the
    map's key type, [Get] returns a copy of the entry, which is not
    settable, when the map holds the key, and the zero Value with
    [ErrGetInvalid] when it does not; on a nil map it returns
    [ErrGetInvalid] for every key. *)
Theorem map_Get (rt kt e : type) (k : key) (r : any) (h : heap) (c : rvalue) :
  keyType k = Some kt ->
  Concrete h (Reflect r) = Ok (Some c) -> rtyp c = TMap kt e -> rro c = false ->
  let p := mkPath rt [mkNode (ToString k) k (Some kt) e true (Some GMap) (Some SMap)] in
  (forall m g, rload h c = Ok (VMap (Some m)) -> map_at h m = Some g ->
     Path_Get p r h =
       match g !! k with
       | Some x => Ok (Some (RV e (Here x) false), None)
       | None => Ok (invalidValue, Some ErrGetInvalid)
       end) /\
  (rload h c = Ok (VMap None) -> Path_Get p r h = Ok (invalidValue, Some ErrGetInvalid)).
Proof.
  intros Hk Hc Ht Hro p.
  assert (Hget : forall mv, rload h c = Ok mv ->
            Path_Get p r h =
              (rv <- match mv with
                     | VMap None => Ok None
                     | VMap (Some l) =>
                         g <- of_opt (map_at h l) ;;
                         match g !! k with
                         | Some x => Ok (Some (RV e (Here x) false))
                         | None => Ok None
                         end
                     | _ => Panic
                     end ;;
               if negb (IsValid rv) then Ok (rv, Some ErrGetInvalid) else Ok (rv, None))).
  { intros mv Hl. unfold p. rewrite (Path_Get_one _ _ GMap) by done.
    cbn [callGet]. unfold mapGet. rewrite Hc. cbn [obind valid of_opt Key].
    by rewrite (MapIndex_typed h c kt e k mv Ht Hro Hk Hl). }
  split.
  - intros m g Hl Hm. rewrite (Hget _ Hl), Hm. cbn [of_opt obind].
    by destruct (g !! k).
  - intros Hl. by rewrite (Hget _ Hl).
Qed.

Lemma map_Get_witness :
  Path_Get (mkPath (TPtr (TMap TString TInt)) [entryNode TString TInt (KStr "A")])
           (ptr0 (TMap TString TInt)) heapMapA
  = Ok (Some (RV TInt (Here (VInt 6)) false), None).
Proof.
  destruct (map_Get (TPtr (TMap TString TInt)) TString TInt (KStr "A")
              (ptr0 (TMap TString TInt)) heapMapA
              (RV (TMap TString TInt) (At 0%nat []) false)
              eq_refl eq_refl eq_refl eq_refl) as [H _].
  exact (H 1%nat {[ KStr "A" := VInt 6 ]} eq_refl eq_refl).
Defined.

(** X19: writing an entry of a map through a path of one key.  For a
    root that is a map, directly or through pointers, and the node of a
    key of the map's key type: [Set] with a value of the element type
    stores it under the key, replacing what was there and leaving the
    other entries and objects alone; [Set] with nil deletes the key;
    and on a nil map [Set] with a value panics, since the root is not
    initialised, while [Set] with nil does nothing. *)
Theorem map_Set (rt kt e : type) (k : key) (r : any) (h : heap) (c : rvalue) :
  keyType k = Some kt ->
  Concrete h (Reflect r) = Ok (Some c) -> rtyp c = TMap kt e -> rro c = false ->
  let p := mkPath rt [mkNode (ToString k) k (Some kt) e true (Some GMap) (Some SMap)] in
  (forall m g, rload h c = Ok (VMap (Some m)) -> map_at h m = Some g ->
     (forall x, Path_Set p r (Iface e x) h = Ok (None, <[m := OMap (<[k := x]> g)]> h)) /\
     Path_Set p r Nil h = Ok (None, <[m := OMap (delete k g)]> h)) /\
  (rload h c = Ok (VMap None) ->
     (forall x, Path_Set p r (Iface e x) h = Panic) /\
     Path_Set p r Nil h = Ok (None, h)).
Proof.
  intros Hk Hc Ht Hro p.
  assert (Hset : forall mv val, rload h c = Ok mv ->
            Path_Set p r val h =
              (h1 <- match Reflect val with
                     | None =>
                         match mv with
                         | VMap None => Ok h
                         | VMap (Some l) =>
                             g <- of_opt (map_at h l) ;; Ok (<[l := OMap (delete k g)]> h)
                         | _ => Panic
                         end
                     | Some xv =>
                         if negb (rro xv) && type_eqb (rtyp xv) e then
                           v <- rload h xv ;;
                           match mv with
                           | VMap (Some l) =>
                               g <- of_opt (map_at h l) ;;
                               Ok (<[l := OMap (<[k := v]> g)]> h)
                           | _ => Panic
                           end
                         else Panic
                     end ;;
               Ok (None, h1))).
  { intros mv val Hl. unfold p. rewrite (Path_Set_one _ _ SMap) by done.
    cbn [callSet]. unfold mapSet. rewrite Hc. cbn [obind valid of_opt Key].
    rewrite (SetMapIndex_typed h c kt e k mv _ Ht Hro Hk Hl).
    by destruct (match Reflect val with Some _ => _ | None => _ end). }
  split.
  - intros m g Hl Hm. split.
    + intros x. rewrite (Hset _ _ Hl). cbn [Reflect rro rembed rtyp negb andb].
      rewrite type_eqb_refl. cbn [rload rsrc obind]. by rewrite Hm.
    + rewrite (Hset _ _ Hl). cbn [Reflect]. by rewrite Hm.
  - intros Hl. split.
    + intros x. rewrite (Hset _ _ Hl). cbn [Reflect rro rembed rtyp negb andb].
      by rewrite type_eqb_refl.
    + by rewrite (Hset _ _ Hl).
Qed.

Lemma map_Set_witness :
  Path_Set (mkPath (TPtr (TMap TString TInt)) [entryNode TString TInt (KStr "A")])
           (ptr0 (TMap TString TInt)) (Iface TInt (VInt 7)) heapMapA
  = Ok (None, [OCell (VMap (Some 1%nat)); OMap (<[KStr "A" := VInt 7]> {[ KStr "A" := VInt 6 ]})]).
Proof.
  destruct (map_Set (TPtr (TMap TString TInt)) TString TInt (KStr "A")
              (ptr0 (TMap TString TInt)) heapMapA
              (RV (TMap TString TInt) (At 0%nat []) false)
              eq_refl eq_refl eq_refl eq_refl) as [H _].
  exact (proj1 (H 1%nat {[ KStr "A" := VInt 6 ]} eq_refl eq_refl) (VInt 7)).
Defined.

(* ------------------------------------------------------------------ *)
(** ** Keys of the wrong type *)

(** X20: [Next] on a slice or a map takes any key, but a key of the
    wrong type makes [Get] and [Set] panic.  The node of a slice bound
    to a key that is not an int panics on every read and write (the
    read and write functions assert that the key is an int); the node
    of a map bound to a key that is not of the map's key type, or to
    nil, panics on every read and write of a map value. *)
Theorem wrong_key_type_panics (e : type) (k : key) (rv val : Value) (h : heap) :
  ((forall z, k <> KInt z) ->
     Nodes_ForKey (Add (NewNodes []) (sliceNode e)) k = Some (Node_ForKey (sliceNode e) k) /\
     indexGet (Node_ForKey (sliceNode e) k) rv h = Panic /\
     indexSet (Node_ForKey (sliceNode e) k) rv val h = Panic) /\
  (forall kt c, Concrete h rv = Ok (Some c) -> rtyp c = TMap kt e ->
     keyType k <> Some kt ->
     Nodes_ForKey (Add (NewNodes []) (mapNode kt e)) k = Some (Node_ForKey (mapNode kt e) k) /\
     mapGet (Node_ForKey (mapNode kt e) k) rv h = Panic /\
     mapSet (Node_ForKey (mapNode kt e) k) rv val h = Panic).
Proof.
  split.
  - intros Hk. split; [done|]. split.
    + unfold indexGet. cbn [Node_ForKey Node_IsDynamic sliceNode Key KeyString].
      destruct (Concrete h rv) as [[c|]|]; cbn; try done. by destruct k; try done; destruct (Hk z).
    + unfold indexSet. cbn. destruct k; try done. by destruct (Hk z).
  - intros kt c Hc Ht Hk. split; [done|].
    assert (Hty : match reflectKey k with
                  | Some kv => type_eqb (rtyp kv) kt = false
                  | None => True
                  end).
    { unfold keyType in Hk. destruct (reflectKey k) as [kv|]; [|done]. simpl in Hk.
      destruct (type_eqb (rtyp kv) kt) eqn:He; [|done].
      apply type_eqb_eq in He. congruence. }
    split.
    + unfold mapGet. rewrite Hc. cbn [obind valid of_opt]. unfold MapIndex. rewrite Ht.
      change (Key (Node_ForKey (mapNode kt e) k)) with k.
      destruct (reflectKey k) as [kv|]; [|done]. by rewrite Hty.
    + unfold mapSet. rewrite Hc. cbn [obind valid of_opt]. unfold SetMapIndex. rewrite Ht.
      change (Key (Node_ForKey (mapNode kt e) k)) with k.
      destruct (reflectKey k) as [kv|]; [|done]. rewrite Hty.
      by rewrite !andb_false_r.
Qed.

Lemma wrong_key_type_panics_witness :
  Nodes_ForKey (Add (NewNodes []) (sliceNode TString)) (KStr "0")
    = Some (Node_ForKey (sliceNode TString) (KStr "0")) /\
  indexGet (Node_ForKey (sliceNode TString) (KStr "0"))
           (Reflect (ptr0 (TSlice TString))) heapSliceA = Panic /\
  indexSet (Node_ForKey (sliceNode TString) (KStr "0"))
           (Reflect (ptr0 (TSlice TString))) (Reflect (Iface TString (VStr "B"))) heapSliceA
    = Panic.
Proof.
  apply (proj1 (wrong_key_type_panics TString (KStr "0") (Reflect (ptr0 (TSlice TString)))
                  (Reflect (Iface TString (VStr "B"))) heapSliceA)).
  intros z. discriminate.
Defined.

(* ------------------------------------------------------------------ *)
(** ** Elements of arrays and slices *)

Lemma growLoop_within (turns : nat) (index len : Z) (c : rvalue) (h : heap) :
  Len h c = Ok len -> index < len -> growLoop turns index c h = Ok h.
Proof.
  intros Hl Hi. destruct turns; cbn [growLoop]; rewrite Hl; cbn [obind];
    rewrite bool_decide_eq_false_2 by lia; done.
Qed.

Lemma indexSet_within (n : Node) (rv val : Value) (h : heap) (c : rvalue) (i : nat) (len : Z) :
  Key n = KInt (Z.of_nat i) -> Concrete h rv = Ok (Some c) ->
  Len h c = Ok len -> Z.of_nat i < len ->
  indexSet n rv val h =
    (el <- Index h c (Z.of_nat i) ;;
     el <- valid el ;;
     if negb (CanSet el) then Ok (Some ErrSetNotSupported, h)
     else h2 <- SetV el val h ;; Ok (None, h2)).
Proof.
  intros Hk Hc Hl Hi. unfold indexSet. rewrite Hk, Hc. cbn [keyInt obind valid of_opt].
  rewrite bool_decide_eq_false_2 by lia.
  by rewrite (growLoop_within _ _ len c h Hl Hi).
Qed.

Lemma indexGet_concrete (n : Node) (rv : Value) (h : heap) (c : rvalue) (i : Z) :
  Key n = KInt i -> Concrete h rv = Ok (Some c) -> indexGet n rv h = Index h c i.
Proof. intros Hk Hc. unfold indexGet. by rewrite Hc, Hk. Qed.

(** X21: the elements of an array.  For a path that ends at an array,
    [Next] on any key whose string form is the decimal form of an index
    below the length, the index itself or the string of it, adds the
    node of that index, whose key is the int.  Through a pointer to an
    array [Set] on that node replaces the element in place, leaving the
    others alone, and [Get] then returns the element, settable, holding
    what was written; on an array passed by value [Set] returns
    [ErrSetNotSupported] and changes nothing. *)
Theorem array_element (p : Path) (len : nat) (e : type) (tn : cache) (i : nat) (k : key) :
  cache_ok tn -> ConcreteType (Path_Type p) = TArray len e ->
  (i < len)%nat -> ToString k = Itoa (Z.of_nat i) ->
  let n := mkNode (Itoa (Z.of_nat i)) (KInt (Z.of_nat i)) (Some indexType) e false
             (Some GIndex) (Some SIndex) in
  (Path_Next p k tn).1 = Some (mkPath (root p) (nodes p ++ [n])) /\
  (forall rt h l xs v,
     cell_at h l = Some (VAgg xs) -> List.length xs = len ->
     let h' := <[l := OCell (VAgg (<[i := v]> xs))]> h in
     Path_Set (mkPath rt [n]) (ptrTo l (TArray len e)) (Iface e v) h = Ok (None, h') /\
     Path_Get (mkPath rt [n]) (ptrTo l (TArray len e)) h'
       = Ok (Some (RV e (At l [i]) false), None) /\
     rload h' (RV e (At l [i]) false) = Ok v) /\
  (forall rt h xs val,
     List.length xs = len ->
     Path_Set (mkPath rt [n]) (Iface (TArray len e) (VAgg xs)) val h
     = Ok (Some ErrSetNotSupported, h)).
Proof.
  intros Hok Hc Hi Hk n.
  assert (Hin : bool_decide (0 <= Z.of_nat i < Z.of_nat len) = true)
    by (apply bool_decide_eq_true_2; lia).
  split; [|split].
  - apply (Path_Next_resolved p k tn _ _ (GetTypeNodes_array _ len e tn Hok Hc)).
    rewrite arrayNodes_ForKey, Hk.
    by apply (proj1 (proj2 (arrayNodes_spec e len))).
  - intros rt h l xs v Hcell Hlen h'.
    assert (Hcon : forall h0, Concrete h0 (Reflect (ptrTo l (TArray len e)))
                              = Ok (Some (RV (TArray len e) (At l []) false))).
    { intros h0. by apply Concrete_ptrTo. }
    assert (Hix : forall h0, Index h0 (RV (TArray len e) (At l []) false) (Z.of_nat i)
                             = Ok (Some (RV e (At l [i]) false))).
    { intros h0. unfold Index. cbn [rtyp]. rewrite Hin. unfold component. cbn [rsrc rro rembed app].
      by rewrite Nat2Z.id. }
    destruct (lookup_lt_is_Some_2 xs i) as [y Hy]; [lia|].
    split; [|split].
    + rewrite (Path_Set_one _ _ SIndex) by done. cbn [callSet].
      rewrite (indexSet_within n _ _ h _ i (Z.of_nat len) eq_refl (Hcon h)); [|done|lia].
      rewrite Hix. cbn [obind valid of_opt CanSet CanAddr rsrc rro rembed negb andb].
      unfold SetV. cbn [rsrc Reflect rro rembed rtyp negb andb]. rewrite type_eqb_refl.
      cbn [rload rsrc obind]. unfold rstore. rewrite Hcell.
      cbn [mbind option_bind store_sel]. rewrite Hy. done.
    + rewrite (Path_Get_one _ _ GIndex) by done. cbn [callGet].
      rewrite (indexGet_concrete n _ h' _ (Z.of_nat i) eq_refl (Hcon h')), Hix. done.
    + unfold rload. cbn [rsrc]. unfold h'.
      rewrite cell_at_insert_eq by by apply cell_at_lt in Hcell.
      cbn [mbind option_bind load_sel]. rewrite list_lookup_insert_eq by lia. done.
  - intros rt h xs val Hlen.
    destruct (lookup_lt_is_Some_2 xs i) as [y Hy]; [lia|].
    rewrite (Path_Set_one _ _ SIndex) by done. cbn [callSet].
    rewrite (indexSet_within n _ _ h (RV (TArray len e) (Here (VAgg xs)) false) i
               (Z.of_nat len) eq_refl); [|done|done|lia].
    unfold Index. cbn [rtyp]. rewrite Hin. unfold component. cbn [rsrc rro rembed].
    rewrite Nat2Z.id, Hy. done.
Qed.

Lemma array_element_witness :
  (Path_Next (NewPath (TPtr (TArray 2 TString))) (KStr "1") []).1
    = Some (mkPath (TPtr (TArray 2 TString)) [arrayNode TString 1]) /\
  Path_Set (mkPath (TPtr (TArray 2 TString)) [arrayNode TString 1])
           (ptr0 (TArray 2 TString)) (Iface TString (VStr "C")) heapArrayAB
    = Ok (None, [OCell (VAgg [VStr "A"; VStr "C"])]).
Proof.
  destruct (array_element (NewPath (TPtr (TArray 2 TString))) 2 TString [] 1 (KStr "1")
              cache_ok_nil eq_refl) as (H1 & H2 & _).
  - lia.
  - reflexivity.
  - split; [exact H1|].
    exact (proj1 (H2 (TPtr (TArray 2 TString)) heapArrayAB 0%nat [VStr "A"; VStr "B"]
                     (VStr "C") eq_refl eq_refl)).
Defined.

(** X22: a slice passed by value can be written within its length.
    The elements of a slice are addressable whether or not the slice
    is, so for a root that is a slice value (no pointer) and an index
    below its length, [Set] succeeds and replaces that element in the
    backing array, where every slice that shares the array sees it;
    [Get] then returns the element holding what was written. *)
Theorem slice_value_Set (rt e : type) (h : heap) (b : loc) (n i : nat)
    (vs : list val) (v : val) :
  cell_at h b = Some (VAgg vs) -> (n <= List.length vs)%nat -> (i < n)%nat ->
  let node := mkNode (Itoa (Z.of_nat i)) (KInt (Z.of_nat i)) (Some indexType) e false
                (Some GIndex) (Some SIndex) in
  let r := Iface (TSlice e) (VSlice (Some (b, n))) in
  let h' := <[b := OCell (VAgg (<[i := v]> vs))]> h in
  Node_ForKey (sliceNode e) (KInt (Z.of_nat i)) = node /\
  Path_Set (mkPath rt [node]) r (Iface e v) h = Ok (None, h') /\
  Path_Get (mkPath rt [node]) r h' = Ok (Some (RV e (At b [i]) false), None) /\
  rload h' (RV e (At b [i]) false) = Ok v.
Proof.
  intros Hcell Hn Hi node r h'.
  assert (Hin : bool_decide (0 <= Z.of_nat i < Z.of_nat n) = true)
    by (apply bool_decide_eq_true_2; lia).
  assert (Hix : forall h0, Index h0 (RV (TSlice e) (Here (VSlice (Some (b, n)))) false)
                             (Z.of_nat i)
                           = Ok (Some (RV e (At b [i]) false))).
  { intros h0. unfold Index. cbn [rtyp rload rsrc obind]. rewrite Hin.
    by rewrite Nat2Z.id. }
  destruct (lookup_lt_is_Some_2 vs i) as [y Hy]; [lia|].
  split; [done|]. split; [|split].
  - rewrite (Path_Set_one _ _ SIndex) by done. cbn [callSet].
    rewrite (indexSet_within node _ _ h (RV (TSlice e) (Here (VSlice (Some (b, n)))) false) i
               (Z.of_nat n) eq_refl); [|done|done|lia].
    rewrite Hix. cbn [obind valid of_opt CanSet CanAddr rsrc rro rembed negb andb].
    unfold SetV. cbn [rsrc Reflect rro rembed rtyp negb andb]. rewrite type_eqb_refl.
    cbn [rload rsrc obind]. unfold rstore. rewrite Hcell.
    cbn [mbind option_bind store_sel]. rewrite Hy. done.
  - rewrite (Path_Get_one _ _ GIndex) by done. cbn [callGet].
    rewrite (indexGet_concrete node _ h' (RV (TSlice e) (Here (VSlice (Some (b, n)))) false)
               (Z.of_nat i) eq_refl); [|done].
    rewrite Hix. done.
  - unfold rload. cbn [rsrc]. unfold h'.
    rewrite cell_at_insert_eq by by apply cell_at_lt in Hcell.
    cbn [mbind option_bind load_sel]. rewrite list_lookup_insert_eq by lia. done.
Qed.

Lemma slice_value_Set_witness :
  Path_Set (mkPath (TSlice TString) [Node_ForKey (sliceNode TString) (KInt 0)])
           (Iface (TSlice TString) (VSlice (Some (1%nat, 1%nat))))
           (Iface TString (VStr "B")) heapSliceA
  = Ok (None, [OCell (VSlice (Some (1%nat, 1%nat))); OCell (VAgg [VStr "B"])]).
Proof.
  destruct (slice_value_Set (TSlice TString) TString heapSliceA 1%nat 1 0 [VStr "A"]
              (VStr "B") eq_refl) as (_ & H & _).
  - simpl. lia.
  - lia.
  - exact H.
Defined.

(* ------------------------------------------------------------------ *)
(** ** Following several keys *)

Lemma builtNodes_wf (c : type) : nodes_wf (builtNodes c).
Proof.
  destruct c; try apply (nodes_wf_NewNodes []).
  - apply (nodes_wf_NewNodes [mapNode c1 c2]).
  - apply (nodes_wf_NewNodes [sliceNode c]).
  - apply (nodes_wf_NewNodes (arrayNode c <$> seq 0 n)).
  - apply builtNodes_struct_wf.
Qed.

Lemma Nodes_ForKey_KeyString (ns : Nodes) (k : key) (n : Node) :
  nodes_wf ns -> Nodes_ForKey ns k = Some n -> KeyString n = ToString k.
Proof.
  intros [_ Hby] H. unfold Nodes_ForKey in H.
  assert (Hl : ByKey ns !! ToString k = Some n -> KeyString n = ToString k).
  { intros Hs. by apply Hby in Hs as [_ Hs]. }
  destruct (InOrder ns) as [|n0 [|n1 rest]]; [by apply Hl| |by apply Hl].
  destruct (Node_IsDynamic n0) eqn:Hd; [|by apply Hl].
  injection H as <-. unfold Node_ForKey. by rewrite Hd.
Qed.

Lemma Path_Next_KeyStrings (p p' : Path) (k : key) (tn : cache) :
  cache_ok tn -> (Path_Next p k tn).1 = Some p' ->
  root p' = root p /\ Path_KeyStrings p' = Path_KeyStrings p ++ [ToString k].
Proof.
  intros Hok Hn. pose proof (Path_Next_appends p k tn) as Ha. rewrite Hn in Ha.
  destruct Ha as (Hr & n & Hf & Hnodes). split; [done|].
  unfold Path_KeyStrings. rewrite Hnodes, fmap_app. simpl. do 2 f_equal.
  apply (Nodes_ForKey_KeyString (Path_NextNodes p tn).1); [|done].
  unfold Path_NextNodes. rewrite (proj1 (GetTypeNodes_cache_ok _ tn Hok)).
  apply builtNodes_wf.
Qed.

Lemma Ref_Next_Some (r r' : Ref) (k : key) (tn tn' : cache) :
  Ref_Next r k tn = (Some r', tn') ->
  ref_root r' = ref_root r /\ (Path_Next (ref_path r) k tn).1 = Some (ref_path r') /\
  tn' = (Path_Next (ref_path r) k tn).2.
Proof.
  unfold Ref_Next. destruct (Path_Next (ref_path r) k tn) as [[np|] tn1]; [|done].
  by intros [= <- <-].
Qed.

(** X23: what [Nexts] builds.  When [Nexts] resolves a list of keys, on
    a cache that [GetTypeNodes] alone has filled, the reference it
    returns has the same root value and root type, and the key strings
    of its path are those of the path it started from followed by the
    string forms of the keys, one for each key in order. *)
Theorem Ref_Nexts_key_strings (r r' : Ref) (keys : list key) (tn tn' : cache) :
  cache_ok tn -> Ref_Nexts r keys tn = Ok (Some r', tn') ->
  ref_root r' = ref_root r /\ root (ref_path r') = root (ref_path r) /\
  Path_KeyStrings (ref_path r') = Path_KeyStrings (ref_path r) ++ (ToString <$> keys) /\
  cache_ok tn'.
Proof.
  revert r tn. induction keys as [|k keys IH]; intros r tn Hok H.
  - injection H as <- <-. by rewrite app_nil_r.
  - assert (Hstep : forall r1 tn1, Ref_Next r k tn = (Some r1, tn1) ->
              ref_root r1 = ref_root r /\ root (ref_path r1) = root (ref_path r) /\
              Path_KeyStrings (ref_path r1) = Path_KeyStrings (ref_path r) ++ [ToString k] /\
              cache_ok tn1).
    { intros r1 tn1 H1. apply Ref_Next_Some in H1 as (Hr & Hp & ->).
      destruct (Path_Next_KeyStrings _ _ _ _ Hok Hp) as [H2 H3].
      split; [done|]. split; [done|]. split; [done|]. by apply Path_Next_cache_ok. }
    destruct keys as [|k' keys'].
    + cbn [Ref_Nexts] in H. injection H as H.
      destruct (Hstep r' tn' H) as (H1 & H2 & H3 & H4). done.
    + change (Ref_Nexts r (k :: k' :: keys') tn)
        with (let '(next, tn1) := Ref_Next r k tn in
              match next with
              | None => Panic
              | Some r1 => Ref_Nexts r1 (k' :: keys') tn1
              end) in H.
      destruct (Ref_Next r k tn) as [[r1|] tn1] eqn:Hn; [|done].
      destruct (Hstep r1 tn1 eq_refl) as (H1 & H2 & H3 & H4).
      destruct (IH r1 tn1 H4 H) as (H5 & H6 & H7 & H8).
      split; [congruence|]. split; [congruence|]. split; [|done].
      rewrite H7, H3, <- app_assoc. done.
Qed.

Lemma Ref_Nexts_key_strings_witness :
  Path_KeyStrings
    (mkPath (TPtr persons)
       [fieldNode "ByName" (TMap TString person) 0;
        entryNode TString person (KStr "John")])
  = Path_KeyStrings (NewPath (TPtr persons)) ++ ["ByName"; "John"].
Proof.
  refine (proj1 (proj2 (proj2
    (Ref_Nexts_key_strings
       (mkRef (Reflect (ptr0 persons)) (NewPath (TPtr persons)))
       (mkRef (Reflect (ptr0 persons))
          (mkPath (TPtr persons)
             [fieldNode "ByName" (TMap TString person) 0;
              entryNode TString person (KStr "John")]))
       [KStr "ByName"; KStr "John"] []
       (Ref_Next
          (mkRef (Reflect (ptr0 persons))
             (mkPath (TPtr persons) [fieldNode "ByName" (TMap TString person) 0]))
          (KStr "John")
          (Ref_Next (mkRef (Reflect (ptr0 persons)) (NewPath (TPtr persons)))
             (KStr "ByName") []).2).2 cache_ok_nil _)))).
  vm_compute. reflexivity.
Defined.

(** X24: [Nexts] composes.  When [Nexts] resolves a first list of keys
    to a reference, [Nexts] on that list followed by a second list
    does what [Nexts] on the second list does from that reference. *)
Theorem Ref_Nexts_app (r r1 : Ref) (keys1 keys2 : list key) (tn tn1 : cache) :
  Ref_Nexts r keys1 tn = Ok (Some r1, tn1) ->
  Ref_Nexts r (keys1 ++ keys2) tn = Ref_Nexts r1 keys2 tn1.
Proof.
  revert r tn. induction keys1 as [|k keys1 IH]; intros r tn H.
  - by injection H as <- <-.
  - destruct keys1 as [|k' keys1'].
    + cbn [Ref_Nexts] in H. injection H as H. cbn [app].
      destruct keys2 as [|k2 keys2']; [by cbn [Ref_Nexts]; rewrite H|].
      by rewrite (Ref_Nexts_resolved r r1 k (k2 :: keys2') tn tn1).
    + change (Ref_Nexts r (k :: k' :: keys1') tn)
        with (let '(next, tn1) := Ref_Next r k tn in
              match next with
              | None => Panic
              | Some r1 => Ref_Nexts r1 (k' :: keys1') tn1
              end) in H.
      destruct (Ref_Next r k tn) as [[r0|] tn0] eqn:Hn; [|done].
      change ((k :: k' :: keys1') ++ keys2) with (k :: (k' :: keys1') ++ keys2).
      rewrite (Ref_Nexts_resolved r r0 k _ tn tn0) by done.
      by apply IH.
Qed.

Lemma Ref_Nexts_app_witness :
  let r := mkRef (Reflect (ptr0 persons)) (NewPath (TPtr persons)) in
  let r1 := mkRef (Reflect (ptr0 persons))
              (mkPath (TPtr persons) [fieldNode "ByName" (TMap TString person) 0]) in
  Ref_Nexts r ([KStr "ByName"] ++ [KStr "John"; KStr "Name"]) []
  = Ref_Nexts r1 [KStr "John"; KStr "Name"] (Ref_Next r (KStr "ByName") []).2.
Proof.
  intros r r1. apply (Ref_Nexts_app r r1 [KStr "ByName"]).
  vm_compute. reflexivity.
Defined.

(* ------------------------------------------------------------------ *)
(** ** Decoding into a value *)

Section DecodingFacts.

Variable unicodeToLower : string -> string.
Variable parseComposite :
  Decoder -> string -> rvalue -> Value -> heap -> outcome (Value * option error * heap).

Local Abbreviation parse := (Parse unicodeToLower parseComposite).
Local Abbreviation decode := (Decode unicodeToLower parseComposite).
Local Abbreviation decodeType := (DecodeType unicodeToLower parseComposite).
Local Abbreviation setString := (Path_SetString unicodeToLower parseComposite).

(** [Parse] into [string] and into [int], for a decoder without a
    custom parser for the type. *)
Lemma Parse_string (d : Decoder) (s : string) (h : heap) :
  parser_get (Parsers d) TString = None ->
  parse d s TString h
  = Ok (Some (RV TString (At (List.length h) []) false), None, h ++ [OCell (VStr s)]).
Proof.
  intros Hp. unfold Parse, InitType, New, alloc, Elem, rload, SetV, rstore. simpl.
  rewrite Hp. simpl. rewrite cell_at_alloc. simpl. by rewrite insert_alloc.
Qed.

Lemma Parse_int (d : Decoder) (s : string) (h : heap) :
  parser_get (Parsers d) TInt = None ->
  parse d s TInt h =
    match Int_ d s 64 with
    | Some z => Ok (Some (RV TInt (At (List.length h) []) false), None, h ++ [OCell (VInt z)])
    | None => Ok (Some (RV TInt (At (List.length h) []) false), Some (ErrParseInt s),
                  h ++ [OCell (VInt 0)])
    end.
Proof.
  intros Hp. unfold Parse, InitType, New, alloc, Elem, rload, SetV, rstore. simpl.
  rewrite Hp. simpl. destruct (Int_ d s 64) as [z|]; [|done].
  simpl. rewrite cell_at_alloc. simpl. by rewrite insert_alloc.
Qed.

(** [Decode] into a pointer to a cell, in terms of [Parse]. *)
Lemma Decode_cell (d : Decoder) (t : type) (l : loc) (s : string) (h : heap) :
  decode d (ptrTo l t) s h =
    (r <- parse d s t h ;;
     let '(parsed, err, h1) := r in
     match err with
     | Some er => Ok (Some (Err er), h1)
     | None =>
         h2 <- SetV (RV t (At l []) false) parsed h1 ;;
         Ok (None, h2)
     end).
Proof.
  unfold Decode, Init, ptrTo. cbn [Reflect rtyp InitValue].
  unfold nilGuard, IsNil. cbn [rtyp kindOf rload rsrc obind].
  rewrite bool_decide_eq_false_2 by done. cbn [negb obind rtyp].
  destruct (parse d s t h) as [[[parsed err] h1]|]; [|done]. cbn [obind].
  destruct err; [done|]. unfold Elem. cbn [rtyp rload rsrc obind rro rembed valid of_opt]. done.
Qed.

(** X25: what [Decode] refuses.  Given a bool, an int, a string, an
    array or a struct by value, or a nil pointer, [Decode] returns
    [ErrDecodeInvalid] and changes nothing, whatever the string; given
    the nil interface it panics. *)
Theorem Decode_refused (d : Decoder) (s : string) (h : heap) :
  (forall t x, match kindOf t with
               | reflect.Bool | reflect.Int | reflect.String
               | reflect.Array | reflect.Struct => True
               | _ => False
               end ->
     decode d (Iface t x) s h = Ok (Some ErrDecodeInvalid, h)) /\
  (forall t, decode d (Iface (TPtr t) (VPtr None)) s h = Ok (Some ErrDecodeInvalid, h)) /\
  decode d Nil s h = Panic.
Proof.
  split; [|split].
  - intros t x Hk. unfold Decode, Init. cbn [Reflect rtyp].
    destruct t; try done.
  - intros t. unfold Decode, Init. cbn [Reflect rtyp InitValue].
    unfold nilGuard, IsNil. cbn [rtyp kindOf rload rsrc obind].
    rewrite bool_decide_eq_true_2 by done. done.
  - done.
Qed.

(** [Decode] into a pointer to a cell of type string or int. *)
Lemma Decode_into_cell (d : Decoder) (l : loc) (s : string) (h : heap) (x0 : val) :
  cell_at h l = Some x0 ->
  (parser_get (Parsers d) TString = None ->
     decode d (ptrTo l TString) s h
     = Ok (None, <[l := OCell (VStr s)]> h ++ [OCell (VStr s)])) /\
  (parser_get (Parsers d) TInt = None ->
     decode d (ptrTo l TInt) s h =
       match Int_ d s 64 with
       | Some z => Ok (None, <[l := OCell (VInt z)]> h ++ [OCell (VInt z)])
       | None => Ok (Some (Err (ErrParseInt s)), h ++ [OCell (VInt 0)])
       end).
Proof.
  intros Hc.
  assert (Hl : (l < List.length h)%nat) by by apply cell_at_lt in Hc.
  assert (Hset : forall t x,
    SetV (RV t (At l []) false) (Some (RV t (At (List.length h) []) false)) (h ++ [OCell x])
    = Ok (<[l := OCell x]> h ++ [OCell x])).
  { intros t x. unfold SetV. cbn [rsrc rro rembed rtyp negb andb]. rewrite type_eqb_refl.
    rewrite (rload_cell _ _ _ _ x) by apply cell_at_alloc. cbn [obind].
    rewrite (rstore_cell _ _ x0) by by rewrite cell_at_app_l.
    by rewrite insert_app_l. }
  split; intros Hp; rewrite Decode_cell.
  - rewrite Parse_string by done. cbn [obind]. by rewrite Hset.
  - rewrite Parse_int by done. destruct (Int_ d s 64) as [z|]; cbn [obind]; [|done].
    by rewrite Hset.
Qed.


(** [DecodeType] in terms of [Decode] into the cell it allocates. *)
Lemma DecodeType_parse (d : Decoder) (t : type) (s : string) (h : heap) :
  decodeType d t s h =
    (r <- decode d (ptrTo (List.length h) t) s (h ++ [OCell (zero t)]) ;;
     let '(err, h1) := r in
     match err with
     | Some e => Ok (Nil, Some e, h1)
     | None =>
         x <- rload h1 (RV t (At (List.length h) []) false) ;;
         Ok (Iface t x, None, h1)
     end).
Proof.
  unfold DecodeType, New, alloc.
  change (Decode unicodeToLower parseComposite d
            (Refl (Some (RV (TPtr t) (Here (VPtr (Some (List.length h)))) false))) s
            (h ++ [OCell (zero t)]))
    with (decode d (ptrTo (List.length h) t) s (h ++ [OCell (zero t)])).
  by destruct (decode d (ptrTo (List.length h) t) s (h ++ [OCell (zero t)]))
       as [[[e|] h1]|].
Qed.

(** X27: [SetString] on a path that ends at a string or an int, for a
    default decoder without a custom parser for the type.  At a string,
    [SetString(s)] is [Set] of the string [s] itself; at an int it is
    [Set] of the number the decoder's integer parser reads from [s],
    and when that parser rejects [s] it returns the parse error without
    calling [Set], so that every object that was there is left as it
    was.  (The decoding allocates two cells, which the root does not
    reach.) *)
Theorem Path_SetString_scalar (d : Decoder) (p : Path) (r : any) (s : string) (h : heap) :
  (Path_Type p = TString -> parser_get (Parsers d) TString = None ->
     setString d p r s h =
       (y <- Path_Set p r (Iface TString (VStr s)) (h ++ [OCell (VStr s); OCell (VStr s)]) ;;
        Ok (Err <$> y.1, y.2))) /\
  (Path_Type p = TInt -> parser_get (Parsers d) TInt = None ->
     setString d p r s h =
       match Int_ d s 64 with
       | Some z =>
           y <- Path_Set p r (Iface TInt (VInt z)) (h ++ [OCell (VInt z); OCell (VInt z)]) ;;
           Ok (Err <$> y.1, y.2)
       | None => Ok (Some (Err (ErrParseInt s)), h ++ [OCell (VInt 0); OCell (VInt 0)])
       end).
Proof.
  assert (Hlen : forall x : val, List.length (h ++ [OCell x]) = S (List.length h)).
  { intros x. rewrite length_app. simpl. lia. }
  assert (Hins : forall a b : val,
            <[List.length h := OCell b]> (h ++ [OCell a]) ++ [OCell b]
            = h ++ [OCell b; OCell b]).
  { intros a b. rewrite insert_alloc, <- app_assoc. done. }
  assert (Hcell : forall (a : val) (b : obj),
            cell_at (h ++ [OCell a; b]) (List.length h) = Some a).
  { intros a b. unfold cell_at. rewrite lookup_app_r by lia. by rewrite Nat.sub_diag. }
  split; intros Ht Hp; unfold Path_SetString; rewrite Ht, DecodeType_parse; cbn [zero].
  - rewrite (proj1 (Decode_into_cell d (List.length h) s _ (VStr "") (cell_at_alloc h _)) Hp).
    cbn [obind]. rewrite Hins.
    rewrite (rload_cell _ _ _ _ (VStr s)).
    + cbn [obind]. by destruct (Path_Set _ _ _ _) as [[e h1]|].
    + apply Hcell.
  - rewrite (proj2 (Decode_into_cell d (List.length h) s _ (VInt 0) (cell_at_alloc h _)) Hp).
    destruct (Int_ d s 64) as [z|]; cbn [obind].
    + rewrite Hins. rewrite (rload_cell _ _ _ _ (VInt z)).
      * cbn [obind]. by destruct (Path_Set _ _ _ _) as [[e h1]|].
      * apply Hcell.
    + by rewrite <- app_assoc.
Qed.







End DecodingFacts.

(** The decoder of the examples below reads every input as 45; it has no
    keywords and no custom parsers. *)
Lemma Decode_refused_witness :
  Decode (fun s => s) (fun _ _ _ _ _ => Panic) decoder45 (Iface TInt (VInt 0)) "45" []
  = Ok (Some ErrDecodeInvalid, []).
Proof.
  exact (proj1 (Decode_refused (fun s => s) (fun _ _ _ _ _ => Panic) decoder45 "45" [])
               TInt (VInt 0) I).
Defined.


Lemma Path_SetString_scalar_witness :
  Path_SetString (fun s => s) (fun _ _ _ _ _ => Panic) decoder45
    (mkPath (TPtr point) [fieldNode "X" TInt 0]) (ptr0 point) "45" heapPoint
  = Ok (None, [OCell (VAgg [VInt 45; VInt 0]); OCell (VInt 45); OCell (VInt 45)]).
Proof.
  rewrite (proj2 (Path_SetString_scalar (fun s => s) (fun _ _ _ _ _ => Panic) decoder45
                    (mkPath (TPtr point) [fieldNode "X" TInt 0]) (ptr0 point) "45" heapPoint)
                 eq_refl eq_refl).
  vm_compute. reflexivity.
Defined.


(* ------------------------------------------------------------------ *)
(** ** Multi-valued strings *)

Lemma append_nil_l (y : string) : "" +:+ y = y.
Proof. reflexivity. Qed.

Lemma append_cons (c : Ascii.ascii) (a y : string) :
  String c a +:+ y = String c (a +:+ y).
Proof. reflexivity. Qed.

Lemma substring_all (y : string) : String.substring 0 (String.length y) y = y.
Proof. induction y as [|c y IH]; simpl; [done|]. by rewrite IH. Qed.

Lemma substring_0_append (a y : string) :
  String.substring 0 (String.length a) (a +:+ y) = a.
Proof.
  induction a as [|c a IH].
  - rewrite append_nil_l. simpl. by destruct y.
  - rewrite append_cons. simpl. by rewrite IH.
Qed.

Lemma substring_skip_append (a y : string) :
  String.substring (String.length a) (String.length y) (a +:+ y) = y.
Proof.
  induction a as [|c a IH].
  - rewrite append_nil_l. apply substring_all.
  - rewrite append_cons. simpl. exact IH.
Qed.

Lemma length_append (a y : string) :
  String.length (a +:+ y) = (String.length a + String.length y)%nat.
Proof.
  induction a as [|c a IH]; [done|]. rewrite append_cons. simpl. by rewrite IH.
Qed.

Lemma HasPrefix_append (a y : string) : HasPrefix (a +:+ y) a = true.
Proof.
  unfold HasPrefix. rewrite length_append, substring_0_append.
  rewrite bool_decide_eq_true_2 by done. rewrite andb_true_r. apply Nat.leb_le. lia.
Qed.

Lemma TrimPrefix_append (a y : string) : TrimPrefix (a +:+ y) a = y.
Proof.
  unfold TrimPrefix. rewrite HasPrefix_append, length_append.
  replace (String.length a + String.length y - String.length a)%nat
    with (String.length y) by lia.
  apply substring_skip_append.
Qed.

Lemma HasSuffix_append (x b : string) : HasSuffix (x +:+ b) b = true.
Proof.
  unfold HasSuffix. rewrite length_append.
  replace (String.length x + String.length b - String.length b)%nat
    with (String.length x) by lia.
  rewrite substring_skip_append, bool_decide_eq_true_2 by done.
  rewrite andb_true_r. apply Nat.leb_le. lia.
Qed.

Lemma TrimSuffix_append (x b : string) : TrimSuffix (x +:+ b) b = x.
Proof.
  unfold TrimSuffix. rewrite HasSuffix_append, length_append.
  replace (String.length x + String.length b - String.length b)%nat
    with (String.length x) by lia.
  apply substring_0_append.
Qed.

Lemma append_assoc (a b c : string) : (a +:+ b) +:+ c = a +:+ (b +:+ c).
Proof.
  induction a as [|x a IH]; [done|]. rewrite !append_cons. by rewrite IH.
Qed.

Section MultiFacts.

Variable Regexp : Type.
Variable Split : Regexp -> string -> Z -> list string.

Local Abbreviation split := (Regexp_Split Regexp Split).
Local Abbreviation values := (Multi_Values Regexp Split).
Local Abbreviation keyValues := (Multi_KeyValues Regexp Split).

(** X29: the brackets of a multi-valued string.  [Values] on a string
    that starts with [Start] and ends with [End] splits what is between
    them, strict or not.  When the options are not strict, [Values]
    returns no error: it splits the string without its start and end,
    where it has them, and a string that has neither is split whole, so
    that a value may be written with or without its brackets.  When
    they are strict, a string that lacks the start or the end is an
    error, whatever the separator.  Where [Values] comes to split, it
    returns the values if the separator is set or [max] is 0, and it
    panics if the separator is nil and [max] is not 0. *)
Theorem Multi_Values_brackets (m : Multi Regexp) (max : Z) :
  (forall x, values m (Start _ m +:+ x +:+ End_ _ m) max
             = (vs <- split (ValueSeparator _ m) x max ;; Ok (inr vs))) /\
  (Strict _ m = false ->
     (forall s, values m s max
                = (vs <- split (ValueSeparator _ m)
                           (TrimSuffix (TrimPrefix s (Start _ m)) (End_ _ m)) max ;;
                   Ok (inr vs))) /\
     (forall s, HasPrefix s (Start _ m) = false -> HasSuffix s (End_ _ m) = false ->
                values m s max = (vs <- split (ValueSeparator _ m) s max ;; Ok (inr vs)))) /\
  (Strict _ m = true ->
     forall s, HasPrefix s (Start _ m) = false \/ HasSuffix s (End_ _ m) = false ->
               values m s max = Ok (inl (ErrMultiValue (Start _ m) (End_ _ m) s))) /\
  (forall re s, split re s 0 = Ok []) /\
  (forall r s, max <> 0 -> split (Some r) s max = Ok (Split r s max)) /\
  (forall s, max <> 0 -> split None s max = Panic).
Proof.
  split; [|split; [|split; [|split; [|split]]]].
  - intros x. unfold Multi_Values.
    rewrite HasPrefix_append. rewrite <- append_assoc, HasSuffix_append.
    cbn [negb orb]. rewrite andb_false_r.
    rewrite append_assoc, TrimPrefix_append, TrimSuffix_append. done.
  - intros Hs. split.
    + intros s. unfold Multi_Values. rewrite Hs. done.
    + intros s Hp Hx. unfold Multi_Values. rewrite Hs. cbn [andb].
      unfold TrimPrefix. rewrite Hp. unfold TrimSuffix. by rewrite Hx.
  - intros Hs s Hps. unfold Multi_Values. rewrite Hs. cbn [andb].
    by destruct Hps as [-> | ->]; cbn [negb orb]; rewrite ?orb_true_r.
  - intros re s. unfold Regexp_Split. by rewrite bool_decide_eq_true_2.
  - intros r s Hm. unfold Regexp_Split. by rewrite bool_decide_eq_false_2.
  - intros s Hm. unfold Regexp_Split. by rewrite bool_decide_eq_false_2.
Qed.

(** The loop of [KeyValues] returns pairs exactly when every entry
    splits in two. *)
Lemma keyValuesLoop_spec (m : Multi Regexp) (entries : list string)
    (kvs : list (string * string)) :
  keyValuesLoop Regexp Split m entries = Ok (inr kvs) <->
  Forall2 (fun entry kv => split (KeySeparator _ m) entry 2 = Ok [kv.1; kv.2]) entries kvs.
Proof.
  revert kvs. induction entries as [|entry rest IH]; intros kvs; simpl.
  - split.
    + intros [= <-]. constructor.
    + intros H. by apply Forall2_nil_inv_l in H as ->.
  - split.
    + destruct (split (KeySeparator _ m) entry 2) as [[|k [|v [|w l]]]|] eqn:Hsp; try done.
      cbn [obind].
      destruct (keyValuesLoop Regexp Split m rest) as [[e|kvs']|] eqn:Hl; [done| |done].
      cbn [obind]. intros [= <-]. constructor; [done|]. by apply IH.
    + intros H. apply Forall2_cons_inv_l in H as ([k v] & kvs' & Hsp & Hrest & ->).
      simpl in Hsp. rewrite Hsp. cbn [obind]. apply IH in Hrest. by rewrite Hrest.
Qed.

(** It returns an error exactly at the first entry that splits into
    fewer or more than two strings. *)
Lemma keyValuesLoop_error (m : Multi Regexp) (entries : list string) (e : multiError) :
  keyValuesLoop Regexp Split m entries = Ok (inl e) <->
  exists pre entry post parts,
    entries = pre ++ entry :: post /\
    Forall (fun x => exists k v, split (KeySeparator _ m) x 2 = Ok [k; v]) pre /\
    split (KeySeparator _ m) entry 2 = Ok parts /\ List.length parts <> 2%nat /\
    e = ErrKeyValue entry.
Proof.
  induction entries as [|x rest IH]; simpl.
  - split; [done|]. intros (pre & entry & post & parts & H & _). by destruct pre.
  - split.
    + destruct (split (KeySeparator _ m) x 2) as [parts|] eqn:Hsp; [|done]. cbn [obind].
      destruct parts as [|k [|v [|w l]]];
        try (intros [= <-]; exists [], x, rest; eexists;
             split; [done|]; split; [constructor|]; split; [exact Hsp|];
             split; [simpl; lia|done]).
      destruct (keyValuesLoop Regexp Split m rest) as [[e'|kvs']|] eqn:Hl; [|done|done].
      cbn [obind]. intros [= ->].
      destruct (proj1 IH eq_refl) as (pre & entry & post & parts & -> & Hpre & Hs & Hn & ->).
      exists (x :: pre), entry, post, parts. repeat split; try done.
      constructor; [by exists k, v|done].
    + intros (pre & entry & post & parts & Heq & Hpre & Hs & Hn & ->).
      destruct pre as [|y pre]; simpl in Heq; injection Heq as -> ->.
      * rewrite Hs. cbn [obind]. by destruct parts as [|k [|v [|w l]]].
      * inversion Hpre as [|? ? (k & v & Hy) Hpre']; subst. rewrite Hy. cbn [obind].
        assert (Hr : keyValuesLoop Regexp Split m (pre ++ entry :: post)
                     = Ok (inl (ErrKeyValue entry))).
        { apply IH. exists pre, entry, post, parts. by repeat split. }
        by rewrite Hr.
Qed.

(** With a nil key separator it panics at the first entry. *)
Lemma keyValuesLoop_nil (m : Multi Regexp) (entry : string) (rest : list string) :
  KeySeparator _ m = None -> keyValuesLoop Regexp Split m (entry :: rest) = Panic.
Proof. intros H. simpl. rewrite H. done. Qed.

(** X30: [KeyValues] returns one pair for each entry [Values] finds,
    in order, and does so exactly when every entry splits at the key
    separator into a key and a value.  It returns an error exactly when
    [Values] does, or at the first entry that splits into fewer or more
    than two strings.  With a nil key separator it returns no pairs
    when [Values] finds no entry, and panics as soon as [Values] finds
    one. *)
Theorem Multi_KeyValues_pairs (m : Multi Regexp) (s : string) (max : Z) :
  (forall kvs,
     keyValues m s max = Ok (inr kvs) <->
     exists entries,
       values m s max = Ok (inr entries) /\
       Forall2 (fun entry kv => split (KeySeparator _ m) entry 2 = Ok [kv.1; kv.2])
               entries kvs) /\
  (forall e,
     keyValues m s max = Ok (inl e) <->
     values m s max = Ok (inl e) \/
     exists pre entry post parts,
       values m s max = Ok (inr (pre ++ entry :: post)) /\
       Forall (fun x => exists k v, split (KeySeparator _ m) x 2 = Ok [k; v]) pre /\
       split (KeySeparator _ m) entry 2 = Ok parts /\ List.length parts <> 2%nat /\
       e = ErrKeyValue entry) /\
  (KeySeparator _ m = None ->
     (values m s max = Ok (inr []) -> keyValues m s max = Ok (inr [])) /\
     (forall entry rest, values m s max = Ok (inr (entry :: rest)) ->
                         keyValues m s max = Panic)).
Proof.
  unfold Multi_KeyValues. split; [|split].
  - intros kvs. destruct (values m s max) as [[e|entries]|]; cbn [obind]; split.
    + done.
    + by intros (entries & [=] & _).
    + intros H. exists entries. split; [done|]. by apply keyValuesLoop_spec.
    + intros (entries' & [= <-] & H). by apply keyValuesLoop_spec.
    + done.
    + by intros (entries & [=] & _).
  - intros e. destruct (values m s max) as [[e'|entries]|]; cbn [obind]; split.
    + intros [= ->]. by left.
    + intros [[= ->]|(pre & entry & post & parts & [=] & _)]. done.
    + intros H. right. apply keyValuesLoop_error in H
        as (pre & entry & post & parts & -> & H).
      by exists pre, entry, post, parts.
    + intros [[=]|(pre & entry & post & parts & [= ->] & H)].
      apply keyValuesLoop_error. by exists pre, entry, post, parts.
    + done.
    + intros [[=]|(pre & entry & post & parts & [=] & _)].
  - intros Hk. split.
    + intros ->. done.
    + intros entry rest ->. cbn [obind]. by apply keyValuesLoop_nil.
Qed.

End MultiFacts.

(** With a separator that never matches, [Split] returns the whole
    string: the brackets are stripped and the one value is what is
    between them. *)
Lemma Multi_Values_brackets_witness :
  Multi_Values unit (fun _ s _ => [s]) (mkMulti unit "[" (Some tt) None "]" true) "[a b]" (-1)
  = Ok (inr ["a b"]).
Proof.
  exact (proj1 (Multi_Values_brackets unit (fun _ s _ => [s])
                  (mkMulti unit "[" (Some tt) None "]" true) (-1)) "a b").
Defined.

(** With a split that always returns the two strings k and v, the one
    entry gives the one pair. *)
Lemma Multi_KeyValues_pairs_witness :
  Multi_KeyValues bool (fun (r : bool) s _ => if r then [s] else ["k"; "v"])
    (mkMulti bool "{" (Some true) (Some false) "}" false) "{k:v}" (-1)
  = Ok (inr [("k", "v")]).
Proof.
  apply (proj1 (Multi_KeyValues_pairs bool
                  (fun (r : bool) s _ => if r then [s] else ["k"; "v"])
                  (mkMulti bool "{" (Some true) (Some false) "}" false) "{k:v}" (-1))
           [("k", "v")]).
  exists ["k:v"]. split; [reflexivity|]. repeat constructor.
Defined.
